(** * ldap3.utils.dn : distinguished-name parsing, validation and escaping

    A shallow embedding of [ldap3/utils/dn.py] and the properties of its
    scanner, validators, escaper and parser.

    Modelling conventions
    - a Python [str] is a list of characters ([list ascii]); characters are
      code points below 256;
    - a Python [int] is a [Z]; indices may be negative and follow Python's
      rules for subscripts and slices;
    - a call either returns, raises, or (for the two [while] loops, which are
      run on fuel) runs out of fuel: type [outcome];
    - the integer flags [STATE_ANY], [STATE_ESCAPE] and [STATE_ESCAPE_HEX]
      are the constructors of an enumeration. *)

From Stdlib Require Import ZArith List Ascii String Bool Lia.
Import ListNotations.

Local Open Scope Z_scope.
Local Open Scope list_scope.

(** ** Python values *)

Definition str := list ascii.

(** String literals of the source. *)
Definition lit (s : string) : str := list_ascii_of_string s.

Definition len (s : str) : Z := Z.of_nat (List.length s).

(** Truth value of a [str]: the empty string is false. *)
Definition truthy (s : str) : bool :=
  match s with
  | [] => false
  | _ :: _ => true
  end.

Inductive exn : Type :=
| LDAPInvalidDnError (msg : str)
| IndexError
| TypeError.

Inductive outcome (A : Type) : Type :=
| Ret (a : A)
| Raise (e : exn)
| OutOfFuel.

Arguments Ret {A} a.
Arguments Raise {A} e.
Arguments OutOfFuel {A}.

Definition bind {A B : Type} (m : outcome A) (k : A -> outcome B) : outcome B :=
  match m with
  | Ret a => k a
  | Raise e => Raise e
  | OutOfFuel => OutOfFuel
  end.

Notation "x <- m ;; k" := (bind m (fun x => k))
  (at level 61, m at next level, right associativity).
Notation "' p <- m ;; k" := (bind m (fun x => match x with p => k end))
  (at level 61, p pattern, m at next level, right associativity).

(** [c in s] for a one-character [c]. *)
Definition in_str (c : ascii) (s : str) : bool :=
  existsb (Ascii.eqb c) s.

(** Index normalisation of slices: negative indices count from the end, and
    everything is clipped to [0 .. n]. *)
Definition clamp (n i : Z) : Z :=
  if i <? 0 then Z.max 0 (i + n) else Z.min i n.

(** [s[lo:hi]] *)
Definition slice (s : str) (lo hi : Z) : str :=
  let a := clamp (len s) lo in
  let b := clamp (len s) hi in
  firstn (Z.to_nat (b - a)) (skipn (Z.to_nat a) s).

(** [s[lo:]] *)
Definition slice_from (s : str) (lo : Z) : str := slice s lo (len s).

(** [s[:hi]] *)
Definition slice_to (s : str) (hi : Z) : str := slice s 0 hi.

(** [s[i]]: raises [IndexError] out of range. *)
Definition getitem (s : str) (i : Z) : outcome ascii :=
  let j := if i <? 0 then i + len s else i in
  if (j <? 0) || (len s <=? j) then Raise IndexError
  else match nth_error s (Z.to_nat j) with
       | Some c => Ret c
       | None => Raise IndexError
       end.

(** First index of [c] in [s], positions counted from [i]; [-1] if absent. *)
Fixpoint find_at (c : ascii) (s : str) (i : Z) : Z :=
  match s with
  | [] => -1
  | x :: s' => if Ascii.eqb x c then i else find_at c s' (i + 1)
  end.

(** Last index of [c] in [s], positions counted from [i]; [-1] if absent. *)
Fixpoint rfind_at (c : ascii) (s : str) (i : Z) : Z :=
  match s with
  | [] => -1
  | x :: s' =>
      let r := rfind_at c s' (i + 1) in
      if r =? -1 then (if Ascii.eqb x c then i else -1) else r
  end.

(** [s.find(c, start, end)] and [s.rfind(c, start, end)] for a one-character
    [c]. *)
Definition find (s : str) (c : ascii) (start stop : Z) : Z :=
  let a := clamp (len s) start in
  find_at c (slice s a (clamp (len s) stop)) a.

Definition rfind (s : str) (c : ascii) (start stop : Z) : Z :=
  let a := clamp (len s) start in
  rfind_at c (slice s a (clamp (len s) stop)) a.

(** [s.find(c)] and [s.rfind(c)] *)
Definition find0 (s : str) (c : ascii) : Z := find s c 0 (len s).
Definition rfind0 (s : str) (c : ascii) : Z := rfind s c 0 (len s).

(** White space as [str.strip()] sees it, for code points below 256:
    TAB, LF, VT, FF, CR, FS, GS, RS, US, SPACE, NEL and NBSP. *)
Definition is_space (c : ascii) : bool :=
  let n := Z.of_nat (nat_of_ascii c) in
  ((9 <=? n) && (n <=? 13)) || ((28 <=? n) && (n <=? 32))
  || (n =? 133) || (n =? 160).

Fixpoint lstrip (s : str) : str :=
  match s with
  | [] => []
  | c :: s' => if is_space c then lstrip s' else s
  end.

Definition rstrip (s : str) : str := rev (lstrip (rev s)).

(** [s.strip()] *)
Definition strip (s : str) : str := rstrip (lstrip s).

(** [string.hexdigits] *)
Definition hexdigits : str := lit "0123456789abcdefABCDEF".

Definition BACKSLASH : ascii := ascii_of_nat 92.
Definition NUL : ascii := ascii_of_nat 0.
Definition DQUOTE : ascii := ascii_of_nat 34.

(** The characters that must be escaped: double quote, [# + , ; < = >]
    and NUL. *)
Definition special_chars : str := DQUOTE :: lit "#+,;<=>" ++ [NUL].

(** The characters that may follow a backslash: SPACE, the characters above
    and the backslash. *)
Definition escapable_chars : str :=
  " "%char :: DQUOTE :: lit "#+,;<=>" ++ [BACKSLASH; NUL].

(** ** The three states of the escape scanners *)

Inductive state : Type :=
| STATE_ANY
| STATE_ESCAPE
| STATE_ESCAPE_HEX.

Definition state_eqb (a b : state) : bool :=
  match a, b with
  | STATE_ANY, STATE_ANY => true
  | STATE_ESCAPE, STATE_ESCAPE => true
  | STATE_ESCAPE_HEX, STATE_ESCAPE_HEX => true
  | _, _ => false
  end.

(** ** get_next_ava *)

Definition get_next_ava (dn : str) : str * str :=
  let comma := find0 dn ","%char in
  let plus := find0 dn "+"%char in
  if (plus >? 0) && (plus <? comma) then
    if find dn "="%char plus comma >? 0 then (slice_to dn plus, lit "+")
    else (slice_to dn comma, lit ",")
  else if comma >? 0 then (slice_to dn comma, lit ",")
  else (dn, lit "").

(** ** validate_attribute_type *)

Definition type_chars : str :=
  lit "ABCDEFGHIJKLMNOPQRSTUVWXYZabcdefghijklmnopqrstuvwxyz0123456789-".

(** The [for] loop over the characters of the type. *)
Fixpoint check_type_chars (s : str) : outcome unit :=
  match s with
  | [] => Ret tt
  | c :: s' =>
      if negb (in_str c type_chars) then
        Raise (LDAPInvalidDnError
                 (lit "character " ++ [c] ++ lit " not allowed in Attribute Type"))
      else check_type_chars s'
  end.

Definition validate_attribute_type (attribute_type : str) : outcome bool :=
  if negb (truthy attribute_type) then Ret false
  else
    _ <- check_type_chars attribute_type ;;
    c0 <- getitem attribute_type 0 ;;
    if in_str c0 (lit "0123456789-") then
      Raise (LDAPInvalidDnError
               (lit "character " ++ [c0]
                ++ lit " not allowed as first character of Attribute Type"))
    else Ret true.

(** ** validate_attribute_value *)

(** The loop of the ['#'] branch.  Its test is [not 'c' in hexdigits]: the
    one-character literal ['c'], not the loop variable. *)
Fixpoint check_hex_chars (s : str) : outcome unit :=
  match s with
  | [] => Ret tt
  | c :: s' =>
      if negb (in_str "c"%char hexdigits) then
        Raise (LDAPInvalidDnError
                 (lit "character " ++ [c]
                  ++ lit " not allowed in hex representation of Attribute_Value"))
      else check_hex_chars s'
  end.

(** One iteration of the validating scanner. *)
Definition validate_step (st : state) (c : ascii) : outcome state :=
  match st with
  | STATE_ANY =>
      if Ascii.eqb c BACKSLASH then Ret STATE_ESCAPE
      else if in_str c special_chars then
        Raise (LDAPInvalidDnError
                 (lit "special characters " ++ [c] ++ lit " must be escaped"))
      else Ret STATE_ANY
  | STATE_ESCAPE =>
      if in_str c hexdigits then Ret STATE_ESCAPE_HEX
      else if in_str c escapable_chars then Ret STATE_ANY
      else Raise (LDAPInvalidDnError (lit "invalid escaped character " ++ [c]))
  | STATE_ESCAPE_HEX =>
      if in_str c hexdigits then Ret STATE_ANY
      else Raise (LDAPInvalidDnError (lit "invalid escaped character " ++ [c]))
  end.

Fixpoint validate_loop (st : state) (s : str) : outcome state :=
  match s with
  | [] => Ret st
  | c :: s' => st' <- validate_step st c ;; validate_loop st' s'
  end.

Definition validate_attribute_value (attribute_value : str) : outcome bool :=
  if negb (truthy attribute_value) then Ret false
  else
    c0 <- getitem attribute_value 0 ;;
    _ <- (if Ascii.eqb c0 "#"%char then
            _ <- check_hex_chars attribute_value ;;
            if len attribute_value mod 2 =? 0 then
              Raise (LDAPInvalidDnError
                       (lit "hex representation must be in the form of <HEX><HEX> pairs"))
            else Ret tt
          else Ret tt) ;;
    c0 <- getitem attribute_value 0 ;;
    if Ascii.eqb c0 " "%char then
      Raise (LDAPInvalidDnError
               (lit "SPACE not allowed as first character of Attribute Value"))
    else
      cl <- getitem attribute_value (-1) ;;
      if Ascii.eqb cl " "%char then
        Raise (LDAPInvalidDnError
                 (lit "SPACE not allowed as last character of Attribute Value"))
      else
        st <- validate_loop STATE_ANY attribute_value ;;
        if negb (state_eqb st STATE_ANY) then
          Raise (LDAPInvalidDnError (lit "invalid final character"))
        else Ret true.

(** ** escape_attribute_value *)

(** The loop of the ['#'] branch: [valid] becomes false (and the loop breaks)
    when [not 'c' in hexdigits]. *)
Fixpoint scan_hex_valid (s : str) : bool :=
  match s with
  | [] => true
  | _ :: s' => if negb (in_str "c"%char hexdigits) then false else scan_hex_valid s'
  end.

(** The local variables of the escaping scanner. *)
Record escaper : Type := mkEscaper {
  e_state : state;
  e_escaped : str;
  e_buffer : str
}.

(** One iteration of the escaping scanner. *)
Definition escape_step (e : escaper) (c : ascii) : escaper :=
  let '(mkEscaper st escaped buffer) := e in
  match st with
  | STATE_ANY =>
      if Ascii.eqb c BACKSLASH then mkEscaper STATE_ESCAPE escaped buffer
      else if in_str c special_chars then
        mkEscaper st (escaped ++ (BACKSLASH :: [c])) buffer
      else mkEscaper st (escaped ++ [c]) buffer
  | STATE_ESCAPE =>
      if in_str c hexdigits then mkEscaper STATE_ESCAPE_HEX escaped [c]
      else if in_str c escapable_chars then
        mkEscaper STATE_ANY (escaped ++ (BACKSLASH :: [c])) buffer
      else mkEscaper st (escaped ++ ([BACKSLASH; BACKSLASH] ++ [c])) buffer
  | STATE_ESCAPE_HEX =>
      let escaped' :=
        if in_str c hexdigits then escaped ++ ([BACKSLASH] ++ buffer ++ [c])
        else escaped ++ ([BACKSLASH; BACKSLASH] ++ buffer ++ [c]) in
      mkEscaper STATE_ANY escaped' []
  end.

Definition escape_loop (e : escaper) (s : str) : escaper :=
  fold_left escape_step s e.

(** The values of [state], [escaped] and [buffer] before the loop. *)
Definition escaper_init : escaper := mkEscaper STATE_ANY [] [].

(** The statements after the loop that flush a pending escape. *)
Definition escape_final (e : escaper) : str :=
  match e_state e with
  | STATE_ESCAPE => e_escaped e ++ [BACKSLASH; BACKSLASH]
  | STATE_ESCAPE_HEX => e_escaped e ++ ([BACKSLASH; BACKSLASH] ++ e_buffer e)
  | STATE_ANY => e_escaped e
  end.

(** The two statements that protect a leading and a trailing SPACE. *)
Definition escape_spaces (escaped : str) : outcome str :=
  e0 <- getitem escaped 0 ;;
  let escaped := if Ascii.eqb e0 " "%char then BACKSLASH :: escaped else escaped in
  el <- getitem escaped (-1) ;;
  trailing <- (if Ascii.eqb el " "%char && (len escaped >? 1) then
                 e2 <- getitem escaped (-2) ;;
                 Ret (negb (Ascii.eqb e2 BACKSLASH))
               else Ret false) ;;
  Ret (if trailing : bool then slice_to escaped (-1) ++ [BACKSLASH; " "%char]
       else escaped).

Definition escape_attribute_value (attribute_value : str) : outcome str :=
  if negb (truthy attribute_value) then Ret []
  else
    c0 <- getitem attribute_value 0 ;;
    let hex_form :=
      if Ascii.eqb c0 "#"%char then
        let valid := true in
        let valid := if len attribute_value mod 2 =? 0 then false else valid in
        if valid then scan_hex_valid attribute_value else valid
      else false in
    if hex_form then Ret attribute_value
    else
      escape_spaces
        (escape_final (escape_loop escaper_init attribute_value)).

(** ** split_ava *)

(** The second component of [split_ava]'s result is a string on every path
    but the last one, which returns the bound method [ava.strip] itself. *)
Inductive pyval : Type :=
| VStr (s : str)
| VBoundStrip (self : str).

(** The [while equal > 0] loop, on fuel. *)
Fixpoint split_ava_loop (fuel : nat) (ava : str) (escape strip_ : bool)
    (equal : Z) : outcome (str * pyval) :=
  match fuel with
  | O => OutOfFuel
  | S fuel' =>
      if equal >? 0 then
        c <- getitem ava (equal - 1) ;;
        if negb (Ascii.eqb c BACKSLASH) then
          if strip_ then
            let attribute_type := strip (slice ava 0 equal) in
            attribute_value <-
              (if escape then escape_attribute_value (strip (slice_from ava (equal + 1)))
               else Ret (strip (slice_from ava (equal + 1)))) ;;
            Ret (attribute_type, VStr attribute_value)
          else
            let attribute_type := slice ava 0 equal in
            attribute_value <-
              (if escape then escape_attribute_value (slice_from ava (equal + 1))
               else Ret (slice_from ava (equal + 1))) ;;
            Ret (attribute_type, VStr attribute_value)
        else split_ava_loop fuel' ava escape strip_ (rfind ava "="%char 0 equal)
      else Ret (lit "", if strip_ then VBoundStrip ava else VStr ava)
  end.

Definition split_ava (ava : str) (escape strip_ : bool) : outcome (str * pyval) :=
  split_ava_loop (S (List.length ava)) ava escape strip_ (rfind0 ava "="%char).

(** ** parse_dn *)

Definition ava_triple : Type := str * str * str.

(** [validate_attribute_value] applied to whatever [split_ava] returned: a
    bound method is true and cannot be subscripted. *)
Definition validate_attribute_value_obj (v : pyval) : outcome bool :=
  match v with
  | VStr s => validate_attribute_value s
  | VBoundStrip _ => Raise TypeError
  end.

(** ['...' + attribute_value] and the tuple stored in [rdns] need a string. *)
Definition as_str (v : pyval) : outcome str :=
  match v with
  | VStr s => Ret s
  | VBoundStrip _ => Raise TypeError
  end.

(** The [while not done] loop, on fuel. *)
Fixpoint parse_dn_loop (fuel : nat) (dn : str) (escape strip_ : bool)
    (rdns : list ava_triple) : outcome (list ava_triple) :=
  match fuel with
  | O => OutOfFuel
  | S fuel' =>
      let '(ava, separator) := get_next_ava dn in
      if truthy ava then
        '(attribute_type, attribute_value) <- split_ava ava escape strip_ ;;
        ok <- validate_attribute_type attribute_type ;;
        if negb ok then
          Raise (LDAPInvalidDnError
                   (lit "unable to validate attribute type: " ++ attribute_type))
        else
          ok <- validate_attribute_value_obj attribute_value ;;
          value <- as_str attribute_value ;;
          if negb ok then
            Raise (LDAPInvalidDnError
                     (lit "unable to validate attribute value: " ++ value))
          else
            parse_dn_loop fuel' (slice_from dn (len ava + 1)) escape strip_
              (rdns ++ [(attribute_type, value, separator)])
      else Ret rdns
  end.

Definition parse_dn (dn : str) (escape strip_ : bool) : outcome (list ava_triple) :=
  parse_dn_loop (S (List.length dn)) dn escape strip_ [].

(** ** safe_dn *)

Definition render_ava (rdn : ava_triple) : str :=
  let '(t, v, sep) := rdn in t ++ lit "=" ++ v ++ sep.

Definition render (rdns : list ava_triple) : str :=
  fold_left (fun acc rdn => acc ++ render_ava rdn) rdns [].

Definition safe_dn (dn : str) : outcome str :=
  rdns <- parse_dn dn true true ;;
  Ret (render rdns).


(** ** _add_ava and to_dn *)

(** An element of the list that [to_dn] returns: a string, or the tuple of
    an attribute name and a value when [decompose] is set. *)
Inductive component : Type :=
| CStr (s : str)
| CPair (attr_name value : str).

(** [s.partition(c)] for a one-character [c]: what is before the first [c],
    the separator found, and what is after it; the string itself and two
    empty strings when there is no [c]. *)
Fixpoint partition (s : str) (c : ascii) : str * str * str :=
  match s with
  | [] => ([], [], [])
  | x :: s' =>
      if Ascii.eqb x c then ([], [c], s')
      else let '(before, sep, after) := partition s' c in (x :: before, sep, after)
  end.

Definition _add_ava (ava : str) (decompose remove_space space_around_equal : bool)
  : component :=
  if negb (truthy ava) then CStr (lit "")
  else
    let space := if space_around_equal then lit " " else lit "" in
    let '(attr_name, _, value) := partition ava "="%char in
    if decompose then
      if remove_space then CPair (strip attr_name) (strip value)
      else CPair attr_name value
    else
      if remove_space then
        CStr (strip attr_name ++ space ++ lit "=" ++ space ++ strip value)
      else CStr (attr_name ++ space ++ lit "=" ++ space ++ value).

(** The local variables of [to_dn]. *)
Record scanner : Type := mkScanner {
  s_dn : list component;
  s_component : str;
  s_escape_sequence : bool
}.

(** One iteration of the loop of [to_dn]; the iterator is a string, so [c]
    is one character. *)
Definition to_dn_step (decompose remove_space space_around_equal separate_rdn : bool)
    (st : scanner) (c : ascii) : scanner :=
  let '(mkScanner dn component escape_sequence) := st in
  if in_str c [BACKSLASH] then mkScanner dn (component ++ [c]) true
  else if escape_sequence && negb (in_str c (lit " ")) then
    mkScanner dn (component ++ [c]) false
  else if in_str c (lit "+") && separate_rdn then
    mkScanner (dn ++ [_add_ava component decompose remove_space space_around_equal])
      (lit "") escape_sequence
  else if Ascii.eqb c ","%char then
    if in_str "="%char component then
      mkScanner (dn ++ [_add_ava component decompose remove_space space_around_equal])
        (lit "") escape_sequence
    else mkScanner dn (component ++ [c]) escape_sequence
  else mkScanner dn (component ++ [c]) escape_sequence.

Definition scanner_init : scanner := mkScanner [] (lit "") false.

Definition to_dn (iterator : str)
    (decompose remove_space space_around_equal separate_rdn : bool)
  : list component :=
  let st :=
    fold_left (to_dn_step decompose remove_space space_around_equal separate_rdn)
      iterator scanner_init in
  s_dn st ++ [_add_ava (s_component st) decompose remove_space space_around_equal].
(** ** Auxiliary notions used in the statements *)

(** An outcome that is a returned value or an [LDAPInvalidDnError]. *)
Definition ret_or_invalid {A : Type} (o : outcome A) : Prop :=
  (exists a, o = Ret a) \/ (exists m, o = Raise (LDAPInvalidDnError m)).

(** [escaped_validates v]: the escaped form of [v] passes the validator. *)
Definition escaped_validates (v : str) : Prop :=
  exists w, escape_attribute_value v = Ret w
            /\ validate_attribute_value w = Ret true.

(** How the text of a value is read, from left to right, in the statement
    about escaping then validating.  The reading is outside an escape, in
    an escape that a backslash opened, after the hex digit that an open
    escape is waiting to complete, in a run of loose backslashes (a
    backslash came right after that hex digit), or after a hex digit that
    ends such a run. *)
Inductive reading : Type :=
| OUTSIDE
| OPENED
| PENDING_DIGIT
| LOOSE
| LOOSE_DIGIT.

(** One character of the reading; [None] when the reading fails.
    - Outside an escape a backslash opens one; any other character is
      passed over.
    - In an open escape a hex digit becomes the pending digit; a SPACE, a
      backslash or a character that must be escaped closes the escape; any
      other character leaves it open.
    - After the pending digit a backslash starts a run of loose
      backslashes, a character that must be escaped fails the reading, and
      any other character (a hex digit too) closes the escape.
    - In a run of loose backslashes a backslash continues the run, a SPACE
      ends it, a hex digit ends it if a second hex digit follows, and any
      other character fails the reading. *)
Definition read_step (r : reading) (c : ascii) : option reading :=
  match r with
  | OUTSIDE => if Ascii.eqb c BACKSLASH then Some OPENED else Some OUTSIDE
  | OPENED =>
      if in_str c hexdigits then Some PENDING_DIGIT
      else if in_str c escapable_chars then Some OUTSIDE
      else Some OPENED
  | PENDING_DIGIT =>
      if Ascii.eqb c BACKSLASH then Some LOOSE
      else if in_str c special_chars then None
      else Some OUTSIDE
  | LOOSE =>
      if Ascii.eqb c BACKSLASH then Some LOOSE
      else if Ascii.eqb c " "%char then Some OUTSIDE
      else if in_str c hexdigits then Some LOOSE_DIGIT
      else None
  | LOOSE_DIGIT => if in_str c hexdigits then Some OUTSIDE else None
  end.

(** [reads r s]: the reading of [s] from [r] does not fail, and does not
    stop inside a run of loose backslashes. *)
Fixpoint reads (r : reading) (s : str) : bool :=
  match s with
  | [] =>
      match r with
      | OUTSIDE | OPENED | PENDING_DIGIT => true
      | LOOSE | LOOSE_DIGIT => false
      end
  | c :: s' =>
      match read_step r c with
      | Some r' => reads r' s'
      | None => false
      end
  end.

(** What the validating scanner makes of the output written so far. *)
Definition written (e : escaper) : outcome state :=
  validate_loop STATE_ANY (e_escaped e).

(** The buffer holds one hex digit. *)
Definition one_hex (buffer : str) : Prop :=
  exists h, buffer = [h] /\ in_str h hexdigits = true.

(** The escaper's variables at each point of the reading. *)
Definition reading_inv (r : reading) (e : escaper) : Prop :=
  match r with
  | OUTSIDE => e_state e = STATE_ANY /\ written e = Ret STATE_ANY
  | OPENED => e_state e = STATE_ESCAPE /\ written e = Ret STATE_ANY
  | PENDING_DIGIT =>
      e_state e = STATE_ESCAPE_HEX /\ one_hex (e_buffer e)
      /\ written e = Ret STATE_ANY
  | LOOSE =>
      (e_state e = STATE_ANY \/ e_state e = STATE_ESCAPE)
      /\ written e = Ret STATE_ESCAPE
  | LOOSE_DIGIT =>
      (e_state e = STATE_ANY /\ written e = Ret STATE_ESCAPE_HEX)
      \/ (e_state e = STATE_ESCAPE_HEX /\ one_hex (e_buffer e)
          /\ written e = Ret STATE_ESCAPE)
  end.

(** The escaper's variables once the output can no longer become valid:
    the validating scanner has raised, or it waits for a second hex digit
    while the escaper is about to write a backslash. *)
Definition lost (e : escaper) : Prop :=
  (exists x, written e = Raise x)
  \/ (written e = Ret STATE_ESCAPE_HEX /\ e_state e <> STATE_ANY).

(** A call terminates when it returns or raises. *)
Definition terminates {A : Type} (o : outcome A) : Prop :=
  match o with
  | OutOfFuel => False
  | _ => True
  end.

(** [plus_splits x]: [x] has a first ['+'] that is not its first character
    and is followed, somewhere, by an ['=']. *)
Definition plus_splits (x : str) : Prop :=
  exists a r, x = a ++ "+"%char :: r /\ in_str "+"%char a = false
              /\ a <> [] /\ in_str "="%char r = true.

(** The three ways in which [get_next_ava] answers. *)
Inductive boundary (dn : str) : str -> str -> str -> Prop :=
| boundary_plus (ava r1 r2 : str) :
    dn = ava ++ "+"%char :: r1 ++ ","%char :: r2 ->
    in_str "+"%char ava = false -> in_str ","%char ava = false -> ava <> [] ->
    in_str ","%char r1 = false -> in_str "="%char r1 = true ->
    boundary dn ava (lit "+") (r1 ++ ","%char :: r2)
| boundary_comma (ava r : str) :
    dn = ava ++ ","%char :: r ->
    in_str ","%char ava = false -> ava <> [] -> ~ plus_splits ava ->
    boundary dn ava (lit ",") r
| boundary_last :
    in_str ","%char dn = false \/ (exists r, dn = ","%char :: r) ->
    boundary dn dn (lit "") [].


(** [parsed escape strip_ dn rdns]: the iterations of [parse_dn] on [dn],
    one per triple of [rdns], all of them successful. *)
Inductive parsed (escape strip_ : bool) : str -> list ava_triple -> Prop :=
| parsed_nil : parsed escape strip_ [] []
| parsed_cons (dn ava sep rest t v : str) (rdns : list ava_triple) :
    boundary dn ava sep rest ->
    split_ava ava escape strip_ = Ret (t, VStr v) ->
    validate_attribute_type t = Ret true ->
    validate_attribute_value v = Ret true ->
    parsed escape strip_ rest rdns ->
    parsed escape strip_ dn ((t, v, sep) :: rdns).

(** The separators of a list of triples: [","] or ["+"] inside, [""] or
    [","] at the end. *)
Fixpoint separators_ok (rdns : list ava_triple) : Prop :=
  match rdns with
  | [] => True
  | (_, _, sep) :: rest =>
      match rest with
      | [] => sep = lit "" \/ sep = lit ","
      | _ :: _ => sep = lit "," \/ sep = lit "+"
      end /\ separators_ok rest
  end.

(** A string of white space only. *)
Definition all_space (w : str) : Prop := forall c, In c w -> is_space c = true.

(** What the escaping scanner has read but not written yet. *)
Definition pending (e : escaper) : str :=
  match e_state e with
  | STATE_ANY => []
  | STATE_ESCAPE => [BACKSLASH]
  | STATE_ESCAPE_HEX => BACKSLASH :: e_buffer e
  end.

(** Every ['='] of [s] follows a backslash. *)
Definition equals_escaped (s : str) : Prop :=
  forall j, nth_error s j = Some "="%char ->
            exists j', j = S j' /\ nth_error s j' = Some BACKSLASH.

(** The value part of [split_ava]'s result when it splits at an ['=']. *)
Definition split_value (escape strip_ : bool) (V : str) : outcome str :=
  if strip_ then
    if escape then escape_attribute_value (strip V) else Ret (strip V)
  else
    if escape then escape_attribute_value V else Ret V.

(** [ava_shape ava t v]: [ava] is [t], an ['='] and [v], with white space
    around [t] and around [v]. *)
Definition ava_shape (ava t v : str) : Prop :=
  exists w1 w2 w3 w4,
    ava = w1 ++ t ++ w2 ++ "="%char :: w3 ++ v ++ w4
    /\ all_space w1 /\ all_space w2 /\ all_space w3 /\ all_space w4.

(** [typed t]: [t] is not empty and made of the characters of a type. *)
Definition typed (t : str) : Prop :=
  t <> [] /\ forall x, In x t -> in_str x type_chars = true.

(** [s] without its backslashes. *)
Definition without_backslashes (s : str) : str :=
  filter (fun c => negb (Ascii.eqb c BACKSLASH)) s.

(** [v] with a backslash before each character that must be escaped. *)
Definition escape_specials (v : str) : str :=
  flat_map (fun c => if in_str c special_chars then [BACKSLASH; c] else [c]) v.

(** The loop of [to_dn], from a given state. *)
Definition to_dn_loop (decompose remove_space space_around_equal separate_rdn : bool)
    (st : scanner) (s : str) : scanner :=
  fold_left (to_dn_step decompose remove_space space_around_equal separate_rdn) s st.

(** The string that [_add_ava] makes of the pair it would return with
    [decompose]. *)
Definition join_component (space_around_equal : bool) (c : component) : component :=
  match c with
  | CStr s => CStr s
  | CPair attr_name value =>
      let space := if space_around_equal then lit " " else lit "" in
      CStr (attr_name ++ space ++ lit "=" ++ space ++ value)
  end.

(** [sep.join(l)] *)
Fixpoint join_with (sep : str) (l : list str) : str :=
  match l with
  | [] => []
  | [x] => x
  | x :: l' => x ++ sep ++ join_with sep l'
  end.

(** The text of a component returned without [decompose]. *)
Definition component_str (c : component) : str :=
  match c with
  | CStr s => s
  | CPair attr_name value => attr_name ++ lit "=" ++ value
  end.

(** Only SPACE characters. *)
Definition only_spaces (s : str) : Prop := forall x, In x s -> x = " "%char.

(** * Properties *)

(** ** Subscripts, slices and searches *)

Arguments len : simpl never.

Lemma len_nonneg (s : str) : 0 <= len s.
Proof. unfold len; lia. Qed.

Lemma len_cons (c : ascii) (s : str) : len (c :: s) = len s + 1.
Proof. unfold len; cbn [List.length]; lia. Qed.

Lemma len_app (s t : str) : len (s ++ t) = len s + len t.
Proof. unfold len; rewrite length_app; lia. Qed.

Lemma len_nil : len [] = 0.
Proof. reflexivity. Qed.

Lemma truthy_false (s : str) : truthy s = false <-> s = [].
Proof. destruct s; cbn; split; congruence. Qed.

Lemma truthy_true (s : str) : truthy s = true <-> s <> [].
Proof. destruct s; cbn; split; congruence. Qed.

Lemma getitem_nonneg (s : str) (i : Z) (d : ascii) :
  0 <= i < len s -> getitem s i = Ret (nth (Z.to_nat i) s d).
Proof.
  intros Hi. unfold getitem.
  destruct (Z.ltb_spec i 0); [lia|].
  destruct (Z.ltb_spec i 0); [lia|].
  destruct (Z.leb_spec (len s) i); [lia|]. cbn [orb].
  destruct (nth_error s (Z.to_nat i)) eqn:E.
  - now rewrite (nth_error_nth _ _ d E).
  - apply nth_error_None in E. unfold len in *. lia.
Qed.

Lemma getitem_neg (s : str) (i : Z) (d : ascii) :
  - len s <= i < 0 -> getitem s i = Ret (nth (Z.to_nat (i + len s)) s d).
Proof.
  intros Hi. unfold getitem.
  destruct (Z.ltb_spec i 0); [|lia].
  destruct (Z.ltb_spec (i + len s) 0); [lia|].
  destruct (Z.leb_spec (len s) (i + len s)); [lia|]. cbn [orb].
  destruct (nth_error s (Z.to_nat (i + len s))) eqn:E.
  - now rewrite (nth_error_nth _ _ d E).
  - apply nth_error_None in E. unfold len in *. lia.
Qed.

Lemma getitem_head (c : ascii) (s : str) : getitem (c :: s) 0 = Ret c.
Proof.
  rewrite (getitem_nonneg _ _ c); [reflexivity|].
  rewrite len_cons. pose proof (len_nonneg s). lia.
Qed.

Lemma getitem_last (s : str) (d : ascii) :
  s <> [] -> getitem s (-1) = Ret (last s d).
Proof.
  intros Hs. destruct (exists_last Hs) as (s' & c & ->).
  rewrite (getitem_neg _ _ d).
  - rewrite len_app, last_last. unfold len. cbn [List.length].
    replace (Z.to_nat (-1 + (Z.of_nat (List.length s') + Z.of_nat 1)))
      with (List.length s') by lia.
    now rewrite nth_middle.
  - rewrite len_app. pose proof (len_nonneg s'). unfold len at 1 2. cbn. lia.
Qed.

Lemma getitem_not_fuel (s : str) (i : Z) : getitem s i <> OutOfFuel.
Proof.
  unfold getitem.
  destruct ((_ <? 0) || _); [discriminate|].
  destruct (nth_error _ _); discriminate.
Qed.

Lemma clamp_inside (n i : Z) : 0 <= i <= n -> clamp n i = i.
Proof.
  intros. unfold clamp. destruct (Z.ltb_spec i 0); lia.
Qed.

Lemma clamp_range (n i : Z) : 0 <= n -> 0 <= clamp n i <= n.
Proof.
  intros. unfold clamp. destruct (Z.ltb_spec i 0); lia.
Qed.

Lemma slice_inside (s : str) (lo hi : Z) :
  0 <= lo <= len s -> 0 <= hi <= len s ->
  slice s lo hi = firstn (Z.to_nat (hi - lo)) (skipn (Z.to_nat lo) s).
Proof.
  intros. unfold slice. now rewrite !clamp_inside.
Qed.

Lemma slice_full (s : str) : slice s 0 (len s) = s.
Proof.
  pose proof (len_nonneg s).
  rewrite slice_inside by lia. cbn [Z.to_nat skipn].
  rewrite Z.sub_0_r. unfold len. rewrite Nat2Z.id. apply firstn_all.
Qed.

Lemma slice_to_app (s t : str) : slice_to (s ++ t) (len s) = s.
Proof.
  unfold slice_to. pose proof (len_nonneg s). pose proof (len_nonneg t).
  rewrite slice_inside by (rewrite len_app; lia).
  cbn [Z.to_nat skipn]. rewrite Z.sub_0_r. unfold len. rewrite Nat2Z.id.
  rewrite firstn_app, Nat.sub_diag, firstn_all. cbn. apply app_nil_r.
Qed.

Lemma slice_from_app (s t : str) : slice_from (s ++ t) (len s) = t.
Proof.
  unfold slice_from. pose proof (len_nonneg s). pose proof (len_nonneg t).
  rewrite slice_inside by (rewrite len_app; lia).
  rewrite len_app. unfold len. rewrite Nat2Z.id.
  rewrite skipn_app, Nat.sub_diag, skipn_all. cbn [app skipn].
  replace (Z.to_nat _) with (List.length t) by lia. apply firstn_all.
Qed.

Lemma slice_from_beyond (s : str) (lo : Z) : len s <= lo -> slice_from s lo = [].
Proof.
  intros. unfold slice_from, slice. pose proof (len_nonneg s).
  unfold clamp. destruct (Z.ltb_spec lo 0); [lia|].
  destruct (Z.ltb_spec (len s) 0); [lia|].
  rewrite !Z.min_r by lia. now rewrite Z.sub_diag.
Qed.

Lemma len_slice_from (s : str) (lo : Z) :
  0 <= lo -> len (slice_from s lo) = Z.max 0 (len s - lo).
Proof.
  intros. unfold slice_from, slice. pose proof (len_nonneg s).
  rewrite (clamp_inside _ (len s)) by lia.
  unfold clamp. destruct (Z.ltb_spec lo 0); [lia|].
  unfold len in *. rewrite length_firstn, length_skipn. lia.
Qed.

Lemma find_at_absent (c : ascii) (s : str) (i : Z) :
  in_str c s = false -> find_at c s i = -1.
Proof.
  revert i. induction s as [|x s IH]; intros i H; [reflexivity|].
  cbn in *. apply orb_false_iff in H as [H1 H2].
  rewrite Ascii.eqb_sym, H1. now apply IH.
Qed.

Lemma find_at_first (c : ascii) (s t : str) (i : Z) :
  in_str c s = false -> find_at c (s ++ c :: t) i = i + len s.
Proof.
  revert i. induction s as [|x s IH]; intros i H.
  - cbn. rewrite Ascii.eqb_refl. rewrite len_nil. lia.
  - cbn in *. apply orb_false_iff in H as [H1 H2].
    rewrite Ascii.eqb_sym, H1, IH by assumption. rewrite len_cons. lia.
Qed.

Lemma find_at_bounds (c : ascii) (s : str) (i : Z) :
  find_at c s i = -1 \/ i <= find_at c s i < i + len s.
Proof.
  revert i. induction s as [|x s IH]; intros i; [now left|].
  cbn [find_at]. rewrite len_cons. pose proof (len_nonneg s).
  destruct (Ascii.eqb x c); [right; lia|].
  destruct (IH (i + 1)) as [->|]; [now left|right; lia].
Qed.

Lemma find_at_split (c : ascii) (s : str) (i : Z) :
  0 <= i -> find_at c s i <> -1 ->
  exists s1 s2, s = s1 ++ c :: s2 /\ in_str c s1 = false
                /\ find_at c s i = i + len s1.
Proof.
  revert i. induction s as [|x s IH]; intros i Hi H; [now cbn in H|].
  cbn [find_at] in *. destruct (Ascii.eqb x c) eqn:E.
  - apply Ascii.eqb_eq in E as ->. exists [], s. repeat split.
    rewrite len_nil. lia.
  - destruct (IH (i + 1)) as (s1 & s2 & -> & H1 & H2); [lia|assumption|].
    exists (x :: s1), s2. repeat split.
    + cbn. now rewrite Ascii.eqb_sym, E.
    + rewrite H2, len_cons. lia.
Qed.

Lemma rfind_at_absent (c : ascii) (s : str) (i : Z) :
  in_str c s = false -> rfind_at c s i = -1.
Proof.
  revert i. induction s as [|x s IH]; intros i H; [reflexivity|].
  cbn in *. apply orb_false_iff in H as [H1 H2].
  rewrite IH by assumption. cbn. now rewrite Ascii.eqb_sym, H1.
Qed.

Lemma rfind_at_bounds (c : ascii) (s : str) (i : Z) :
  0 <= i -> rfind_at c s i = -1 \/ i <= rfind_at c s i < i + len s.
Proof.
  revert i. induction s as [|x s IH]; intros i Hi; [now left|].
  cbn [rfind_at]. rewrite len_cons. pose proof (len_nonneg s).
  destruct (IH (i + 1)) as [->|H1]; [lia| |].
  - cbn. destruct (Ascii.eqb x c); [right; lia|now left].
  - destruct (Z.eqb_spec (rfind_at c s (i + 1)) (-1)); [lia|right; lia].
Qed.

Lemma len_slice_le (s : str) (lo hi : Z) :
  len (slice s lo hi) <= Z.max 0 (clamp (len s) hi - clamp (len s) lo).
Proof.
  unfold slice, len. rewrite length_firstn. lia.
Qed.

(** [rfind] answers [-1] or an index inside the searched window. *)
Lemma rfind_bounds (s : str) (c : ascii) (lo hi : Z) :
  0 <= lo -> 0 <= hi ->
  rfind s c lo hi = -1 \/ (lo <= rfind s c lo hi < hi /\ rfind s c lo hi < len s).
Proof.
  intros Hlo Hhi. unfold rfind. pose proof (len_nonneg s) as Hn.
  pose proof (clamp_range (len s) lo Hn) as Ha.
  pose proof (clamp_range (len s) hi Hn) as Hb.
  set (a := clamp (len s) lo) in *.
  destruct (rfind_at_bounds c (slice s a (clamp (len s) hi)) a) as [->|H];
    [lia|now left|].
  right. pose proof (len_slice_le s a (clamp (len s) hi)) as Hl.
  rewrite (clamp_inside _ a) in Hl by lia.
  rewrite (clamp_inside _ (clamp (len s) hi)) in Hl by lia.
  assert (a = Z.min lo (len s) /\ clamp (len s) hi = Z.min hi (len s)) as [Ea Eb].
  { subst a. unfold clamp. destruct (Z.ltb_spec lo 0), (Z.ltb_spec hi 0); lia. }
  lia.
Qed.

Lemma find0_absent (s : str) (c : ascii) : in_str c s = false -> find0 s c = -1.
Proof.
  intros. unfold find0, find. pose proof (len_nonneg s).
  rewrite !clamp_inside by lia. rewrite slice_full. now apply find_at_absent.
Qed.

Lemma rfind0_absent (s : str) (c : ascii) : in_str c s = false -> rfind0 s c = -1.
Proof.
  intros. unfold rfind0, rfind. pose proof (len_nonneg s).
  rewrite !clamp_inside by lia. rewrite slice_full. now apply rfind_at_absent.
Qed.

Lemma find0_first (s t : str) (c : ascii) :
  in_str c s = false -> find0 (s ++ c :: t) c = len s.
Proof.
  intros. unfold find0, find. pose proof (len_nonneg (s ++ c :: t)).
  rewrite !clamp_inside by lia. rewrite slice_full.
  now rewrite find_at_first by assumption.
Qed.

Lemma find0_split (s : str) (c : ascii) :
  find0 s c <> -1 ->
  exists s1 s2, s = s1 ++ c :: s2 /\ in_str c s1 = false /\ find0 s c = len s1.
Proof.
  unfold find0, find. pose proof (len_nonneg s).
  rewrite !clamp_inside by lia. rewrite slice_full. intros Hf.
  destruct (find_at_split c s 0) as (s1 & s2 & ? & ? & ?); [lia|assumption|].
  exists s1, s2. repeat split; assumption || lia.
Qed.

Lemma in_str_app (c : ascii) (s t : str) :
  in_str c (s ++ t) = in_str c s || in_str c t.
Proof. unfold in_str. apply existsb_app. Qed.

Lemma in_str_In (c : ascii) (s : str) : in_str c s = true <-> In c s.
Proof.
  unfold in_str. rewrite existsb_exists. split.
  - intros (x & Hx & E). apply Ascii.eqb_eq in E. now subst.
  - intros Hc. exists c. split; [assumption|apply Ascii.eqb_refl].
Qed.

(** ** The validators *)

Lemma check_type_chars_cases (s : str) : ret_or_invalid (check_type_chars s).
Proof.
  induction s as [|c s IH]; cbn [check_type_chars].
  - left. now exists tt.
  - destruct (negb _); [right; eauto|assumption].
Qed.

Lemma check_hex_chars_ret (s : str) : check_hex_chars s = Ret tt.
Proof.
  induction s as [|c s IH]; [reflexivity|].
  cbn [check_hex_chars].
  change (in_str "c"%char hexdigits) with true. exact IH.
Qed.

Lemma validate_step_cases (st : state) (c : ascii) :
  ret_or_invalid (validate_step st c).
Proof.
  unfold validate_step.
  destruct st; repeat match goal with |- context [if ?b then _ else _] => destruct b end;
    (left; eauto; fail) || (right; eauto).
Qed.

Lemma validate_loop_cases (s : str) (st : state) :
  ret_or_invalid (validate_loop st s).
Proof.
  revert st. induction s as [|c s IH]; intros st; cbn [validate_loop].
  - left. eauto.
  - destruct (validate_step_cases st c) as [[st' ->]|[m ->]]; cbn [bind].
    + apply IH.
    + right. eauto.
Qed.

Lemma validate_attribute_type_cons (c : ascii) (s : str) :
  validate_attribute_type (c :: s) = Ret true
  \/ exists m, validate_attribute_type (c :: s) = Raise (LDAPInvalidDnError m).
Proof.
  unfold validate_attribute_type. cbn [truthy negb].
  destruct (check_type_chars_cases (c :: s)) as [[[] ->]|[m ->]]; cbn [bind].
  - rewrite getitem_head. cbn [bind].
    destruct (in_str c _); [right; eauto|now left].
  - right. eauto.
Qed.

Lemma validate_attribute_value_cons (c : ascii) (s : str) :
  validate_attribute_value (c :: s) = Ret true
  \/ exists m, validate_attribute_value (c :: s) = Raise (LDAPInvalidDnError m).
Proof.
  unfold validate_attribute_value. cbn [truthy negb].
  rewrite getitem_head. cbn [bind]. rewrite check_hex_chars_ret. cbn [bind].
  destruct (Ascii.eqb c "#" && (len (c :: s) mod 2 =? 0)) eqn:E.
  - apply andb_true_iff in E as [-> ->]. cbn [bind]. right; eauto.
  - assert ((if Ascii.eqb c "#"
             then if len (c :: s) mod 2 =? 0
                  then Raise (LDAPInvalidDnError
                         (lit "hex representation must be in the form of <HEX><HEX> pairs"))
                  else Ret tt
             else Ret tt) = Ret tt) as ->.
    { destruct (Ascii.eqb c "#"); [|reflexivity]. cbn [andb] in E. now rewrite E. }
    cbn [bind]. destruct (Ascii.eqb c " "); [right; eauto|].
    rewrite (getitem_last _ c) by discriminate. cbn [bind].
    destruct (Ascii.eqb (last (c :: s) c) " "); [right; eauto|].
    destruct (validate_loop_cases (c :: s) STATE_ANY) as [[st ->]|[m ->]]; cbn [bind].
    + destruct (negb _); [right; eauto|now left].
    + right; eauto.
Qed.

(** C7. Each validator returns [False] exactly on the empty string; on a
    non-empty string it returns [True] or raises [LDAPInvalidDnError], and
    never returns [False]. *)
Theorem validators_false_iff_empty (s : str) :
  (validate_attribute_type s = Ret false <-> s = [])
  /\ (validate_attribute_value s = Ret false <-> s = [])
  /\ (s <> [] ->
      (validate_attribute_type s = Ret true
       \/ exists m, validate_attribute_type s = Raise (LDAPInvalidDnError m))
      /\ (validate_attribute_value s = Ret true
          \/ exists m, validate_attribute_value s = Raise (LDAPInvalidDnError m))).
Proof.
  destruct s as [|c s].
  - repeat split; congruence.
  - pose proof (validate_attribute_type_cons c s) as Ht.
    pose proof (validate_attribute_value_cons c s) as Hv.
    repeat split; try discriminate; try assumption.
    + destruct Ht as [->|[m ->]]; discriminate.
    + destruct Hv as [->|[m ->]]; discriminate.
Qed.

Lemma validators_false_iff_empty_witness :
  lit "cn" <> []
  /\ validate_attribute_type (lit "cn") = Ret true
  /\ validate_attribute_value (lit "cn") = Ret true.
Proof.
  split; [discriminate|].
  destruct (validators_false_iff_empty (lit "cn")) as (_ & _ & H).
  destruct (H ltac:(discriminate)) as [[Ht|[m Ht]] [Hv|[m' Hv]]];
    split; solve [assumption | vm_compute in Ht; discriminate
                  | vm_compute in Hv; discriminate | reflexivity].
Defined.

(** The scanner of [validate_attribute_value] rejects a leading ['#']. *)
Lemma validate_sharp_raises (s : str) :
  exists m, validate_attribute_value ("#"%char :: s) = Raise (LDAPInvalidDnError m).
Proof.
  destruct (validate_attribute_value_cons "#" s) as [H|H]; [|assumption].
  exfalso. revert H. unfold validate_attribute_value. cbn [truthy negb].
  rewrite getitem_head. cbn [bind]. rewrite check_hex_chars_ret. cbn [bind].
  change (Ascii.eqb "#" "#") with true. cbv iota.
  destruct (_ =? 0); cbn [bind]; [discriminate|].
  change (Ascii.eqb "#" " ") with false. cbv iota.
  rewrite (getitem_last _ "#"%char) by discriminate. cbn [bind].
  destruct (Ascii.eqb _ " "); [discriminate|].
  cbn [validate_loop]. 
  change (validate_step STATE_ANY "#") with
    (@Raise state (LDAPInvalidDnError (lit "special characters " ++ ["#"%char] ++ lit " must be escaped"))).
  cbn [bind]. discriminate.
Qed.

(** C3. A value made of ['#'] and hex digits is rejected whatever the number
    of digits: after the length test the value still goes through the
    scanner, which raises on the unescaped ['#']. *)
Theorem validate_hex_form_rejected :
  validate_attribute_value (lit "#1a2b")
  = Raise (LDAPInvalidDnError (lit "special characters # must be escaped"))
  /\ validate_attribute_value (lit "#1a2")
     = Raise (LDAPInvalidDnError
                (lit "hex representation must be in the form of <HEX><HEX> pairs"))
  /\ forall s, exists m,
       validate_attribute_value ("#"%char :: s) = Raise (LDAPInvalidDnError m).
Proof.
  split; [reflexivity|]. split; [reflexivity|]. exact validate_sharp_raises.
Qed.

(** ** The escaper *)

(** Character classes, settled by enumeration of the 256 characters. *)
Ltac by_char c :=
  destruct c as [[] [] [] [] [] [] [] []]; vm_compute; intros;
  solve [reflexivity | discriminate | congruence | tauto | intuition congruence].

Lemma hex_not_special (c : ascii) :
  in_str c hexdigits = true ->
  in_str c special_chars = false /\ Ascii.eqb c BACKSLASH = false
  /\ Ascii.eqb c " " = false.
Proof. by_char c. Qed.

Lemma special_escapable (c : ascii) :
  in_str c special_chars = true ->
  in_str c escapable_chars = true /\ in_str c hexdigits = false.
Proof. by_char c. Qed.

Lemma backslash_escapable :
  in_str BACKSLASH escapable_chars = true /\ in_str BACKSLASH hexdigits = false.
Proof. split; reflexivity. Qed.

Lemma not_escapable_plain (c : ascii) :
  in_str c escapable_chars = false ->
  in_str c special_chars = false /\ Ascii.eqb c BACKSLASH = false.
Proof. by_char c. Qed.

Lemma escape_loop_cons (e : escaper) (c : ascii) (s : str) :
  escape_loop e (c :: s) = escape_loop (escape_step e c) s.
Proof. reflexivity. Qed.

Lemma escape_loop_snoc (e : escaper) (s : str) (c : ascii) :
  escape_loop e (s ++ [c]) = escape_step (escape_loop e s) c.
Proof. unfold escape_loop. now rewrite fold_left_app. Qed.

(** Every iteration leaves something behind: output, or a pending escape. *)
Lemma escape_step_progress (e : escaper) (c : ascii) :
  e_escaped (escape_step e c) <> [] \/ e_state (escape_step e c) <> STATE_ANY.
Proof.
  destruct e as [st escaped buffer]. unfold escape_step.
  destruct st;
    repeat match goal with |- context [if ?b then _ else _] => destruct b end;
    cbn [e_escaped e_state];
    solve [right; discriminate
          | left; intros H; apply app_eq_nil in H as [_ H]; discriminate].
Qed.

Lemma escape_final_nonempty (e : escaper) :
  e_escaped e <> [] \/ e_state e <> STATE_ANY -> escape_final e <> [].
Proof.
  unfold escape_final. intros [H|H]; destruct (e_state e); try congruence;
    intros E; apply app_eq_nil in E as [E1 E2]; try discriminate; congruence.
Qed.

Lemma escaped_nonempty (v : str) :
  v <> [] -> escape_final (escape_loop escaper_init v) <> [].
Proof.
  intros Hv. destruct (exists_last Hv) as (v' & c & ->).
  rewrite escape_loop_snoc. apply escape_final_nonempty, escape_step_progress.
Qed.

Lemma escape_spaces_total (escaped : str) :
  escaped <> [] -> exists s, escape_spaces escaped = Ret s.
Proof.
  intros H. destruct escaped as [|c0 escaped]; [congruence|].
  unfold escape_spaces. rewrite getitem_head. cbn [bind].
  set (escaped' := if Ascii.eqb c0 " " then _ else _).
  assert (escaped' <> []) as Hne by (subst escaped'; destruct (Ascii.eqb c0 " "); discriminate).
  rewrite (getitem_last _ c0 Hne). cbn [bind].
  destruct (Ascii.eqb (last escaped' c0) " " && (len escaped' >? 1)) eqn:E;
    cbn [bind]; [|eauto].
  apply andb_true_iff in E as [_ E]. apply Z.gtb_lt in E.
  rewrite (getitem_neg _ _ c0) by lia. cbn [bind]. eauto.
Qed.

Lemma escape_attribute_value_total (v : str) :
  exists s, escape_attribute_value v = Ret s.
Proof.
  destruct v as [|c v]; [now exists []|].
  unfold escape_attribute_value. cbn [truthy negb].
  rewrite getitem_head. cbn [bind].
  match goal with |- context [if ?b then Ret _ else _] => destruct b end; [eauto|].
  apply escape_spaces_total, (escaped_nonempty (c :: v)). discriminate.
Qed.

(** C6. [escape_attribute_value] returns a string on every input, the empty
    string on the empty input, and the buffer whose first and last characters
    it reads is not empty when the input is not. *)
Theorem escape_attribute_value_never_fails :
  (forall v, exists s, escape_attribute_value v = Ret s)
  /\ escape_attribute_value [] = Ret []
  /\ (forall v, v <> [] -> escape_final (escape_loop escaper_init v) <> []).
Proof.
  split; [exact escape_attribute_value_total|].
  split; [reflexivity|exact escaped_nonempty].
Qed.

Lemma escape_attribute_value_never_fails_witness :
  lit "a" <> [] /\ escape_final (escape_loop escaper_init (lit "a")) <> [].
Proof.
  split; [discriminate|].
  apply (proj2 (proj2 escape_attribute_value_never_fails)). discriminate.
Defined.

(** C5. In [STATE_ESCAPE] a character that is neither a hex digit nor
    escapable is written after two backslashes, and the scanner stays in
    [STATE_ESCAPE]: the branch does not assign [state]. *)
Theorem escape_unknown_stays_in_escape :
  escape_attribute_value (lit "\zz") = Ret (lit "\\z\\z\\")
  /\ forall escaped buffer c,
       in_str c hexdigits = false -> in_str c escapable_chars = false ->
       escape_step (mkEscaper STATE_ESCAPE escaped buffer) c
       = mkEscaper STATE_ESCAPE (escaped ++ [BACKSLASH; BACKSLASH; c]) buffer.
Proof.
  split; [reflexivity|].
  intros escaped buffer c Hh He. cbn [escape_step]. now rewrite Hh, He.
Qed.

Lemma escape_unknown_stays_in_escape_witness :
  escape_step (mkEscaper STATE_ESCAPE [] []) "z"%char
  = mkEscaper STATE_ESCAPE [BACKSLASH; BACKSLASH; "z"%char] [].
Proof.
  apply (proj2 escape_unknown_stays_in_escape [] [] "z"%char); reflexivity.
Defined.

(** ** Escaping, then validating *)

Lemma validate_loop_app (st : state) (a b : str) :
  validate_loop st (a ++ b) = (st' <- validate_loop st a ;; validate_loop st' b).
Proof.
  revert st. induction a as [|c a IH]; intros st; [reflexivity|].
  cbn [app validate_loop]. destruct (validate_step st c); cbn [bind]; auto.
Qed.

Lemma vstep_any_backslash : validate_step STATE_ANY BACKSLASH = Ret STATE_ESCAPE.
Proof. reflexivity. Qed.

Lemma vstep_any_plain (c : ascii) :
  Ascii.eqb c BACKSLASH = false -> in_str c special_chars = false ->
  validate_step STATE_ANY c = Ret STATE_ANY.
Proof. intros H1 H2. cbn [validate_step]. now rewrite H1, H2. Qed.

Lemma vstep_escape_hex (c : ascii) :
  in_str c hexdigits = true -> validate_step STATE_ESCAPE c = Ret STATE_ESCAPE_HEX.
Proof. intros H. cbn [validate_step]. now rewrite H. Qed.

Lemma vstep_escape_escapable (c : ascii) :
  in_str c hexdigits = false -> in_str c escapable_chars = true ->
  validate_step STATE_ESCAPE c = Ret STATE_ANY.
Proof. intros H1 H2. cbn [validate_step]. now rewrite H1, H2. Qed.

Lemma vstep_hex_hex (c : ascii) :
  in_str c hexdigits = true -> validate_step STATE_ESCAPE_HEX c = Ret STATE_ANY.
Proof. intros H. cbn [validate_step]. now rewrite H. Qed.

Lemma vstep_any_hex (c : ascii) :
  in_str c hexdigits = true -> validate_step STATE_ANY c = Ret STATE_ANY.
Proof.
  intros H. destruct (hex_not_special c H) as (H1 & H2 & _).
  now apply vstep_any_plain.
Qed.

Lemma vstep_escape_backslash :
  validate_step STATE_ESCAPE BACKSLASH = Ret STATE_ANY.
Proof. reflexivity. Qed.

(** The validator reads back one chunk written by the escaper. *)
Ltac read_back :=
  repeat (cbn [validate_loop app bind];
          first [ rewrite vstep_any_backslash
                | rewrite vstep_escape_backslash
                | rewrite vstep_escape_hex by assumption
                | rewrite vstep_hex_hex by assumption
                | rewrite vstep_any_hex by assumption
                | rewrite vstep_escape_escapable by assumption
                | rewrite vstep_any_plain by assumption ]);
  cbn [validate_loop app bind].

Lemma char_classes (c : ascii) :
  in_str c escapable_chars
  = (Ascii.eqb c " " || in_str c special_chars || Ascii.eqb c BACKSLASH)
  /\ (in_str c hexdigits = true ->
      in_str c special_chars = false /\ Ascii.eqb c BACKSLASH = false
      /\ Ascii.eqb c " " = false)
  /\ (Ascii.eqb c BACKSLASH = true ->
      in_str c special_chars = false /\ Ascii.eqb c " " = false)
  /\ (in_str c special_chars = true -> Ascii.eqb c " " = false).
Proof. by_char c. Qed.

Lemma vstep_any_special (c : ascii) :
  Ascii.eqb c BACKSLASH = false -> in_str c special_chars = true ->
  validate_step STATE_ANY c
  = Raise (LDAPInvalidDnError
             (lit "special characters " ++ [c] ++ lit " must be escaped")).
Proof. intros H1 H2. cbn [validate_step]. now rewrite H1, H2. Qed.

Lemma vstep_escape_other (c : ascii) :
  in_str c hexdigits = false -> in_str c escapable_chars = false ->
  validate_step STATE_ESCAPE c
  = Raise (LDAPInvalidDnError (lit "invalid escaped character " ++ [c])).
Proof. intros H1 H2. cbn [validate_step]. now rewrite H1, H2. Qed.

Lemma vstep_hex_other (c : ascii) :
  in_str c hexdigits = false ->
  validate_step STATE_ESCAPE_HEX c
  = Raise (LDAPInvalidDnError (lit "invalid escaped character " ++ [c])).
Proof. intros H. cbn [validate_step]. now rewrite H. Qed.

Lemma vstep_hex_backslash :
  validate_step STATE_ESCAPE_HEX BACKSLASH
  = Raise (LDAPInvalidDnError (lit "invalid escaped character " ++ [BACKSLASH])).
Proof. reflexivity. Qed.

(** The classes of a character, by cases. *)
Ltac classes c :=
  let H := fresh "Hcl" in
  pose proof (char_classes c) as H;
  destruct (in_str c hexdigits) eqn:?, (Ascii.eqb c BACKSLASH) eqn:?,
           (in_str c special_chars) eqn:?, (Ascii.eqb c " ") eqn:?;
  cbn [orb] in H;
  destruct H as (? & ? & ? & ?);
  try (intuition discriminate).

(** The validator reads on, over one more chunk written by the escaper. *)
Ltac read_on :=
  rewrite ?validate_loop_app;
  repeat match goal with
         | H : validate_loop STATE_ANY ?e = _ |- context [validate_loop STATE_ANY ?e] =>
             rewrite H
         end;
  repeat (cbn [validate_loop app bind];
          first [ rewrite vstep_any_backslash
                | rewrite vstep_escape_backslash
                | rewrite vstep_hex_backslash
                | rewrite vstep_escape_hex by assumption
                | rewrite vstep_hex_hex by assumption
                | rewrite vstep_any_hex by assumption
                | rewrite vstep_escape_escapable by assumption
                | rewrite vstep_any_plain by assumption
                | rewrite vstep_any_special by assumption
                | rewrite vstep_escape_other by assumption
                | rewrite vstep_hex_other by assumption ]);
  cbn [validate_loop app bind].

Ltac settle :=
  solve [ repeat split; (reflexivity || assumption || discriminate || eauto)
        | left; repeat split; (reflexivity || assumption || discriminate || eauto)
        | right; repeat split; (reflexivity || assumption || discriminate || eauto) ].

Lemma reading_step (r : reading) (e : escaper) (c : ascii) :
  reading_inv r e ->
  match read_step r c with
  | Some r' => reading_inv r' (escape_step e c)
  | None => lost (escape_step e c)
  end.
Proof.
  destruct e as [st escaped buffer]. unfold reading_inv, lost, written, one_hex.
  cbn [e_state e_escaped e_buffer].
  intros H.
  destruct r;
    [ destruct H as [-> Hv]
    | destruct H as [-> Hv]
    | destruct H as (-> & (h & -> & Hh) & Hv)
    | destruct H as [[-> | ->] Hv]
    | destruct H as [[-> Hv] | (-> & (h & -> & Hh) & Hv)] ].
  all: classes c.
  all: unfold read_step, escape_step.
  all: repeat match goal with H : ?x = _ |- context [?x] => rewrite H end.
  all: cbn [e_state e_escaped e_buffer].
  all: try match goal with
         | H : Ascii.eqb ?x BACKSLASH = true |- _ => apply Ascii.eqb_eq in H; subst x
         end.
  all: read_on.
  all: settle.
Qed.

Lemma lost_step (e : escaper) (c : ascii) : lost e -> lost (escape_step e c).
Proof.
  destruct e as [st escaped buffer]. unfold lost, written.
  cbn [e_state e_escaped e_buffer].
  intros [[x Hx] | [Hv Hst]].
  - left. exists x. unfold escape_step.
    destruct st;
      repeat match goal with |- context [if ?b then _ else _] => destruct b end;
      cbn [e_escaped]; rewrite ?validate_loop_app, Hx; reflexivity.
  - destruct st; [congruence| |]; classes c; unfold escape_step;
      repeat match goal with H : ?x = _ |- context [?x] => rewrite H end;
      cbn [e_state e_escaped e_buffer];
      try match goal with
          | H : Ascii.eqb ?x BACKSLASH = true |- _ => apply Ascii.eqb_eq in H; subst x
          end;
      read_on; settle.
Qed.

Lemma lost_final (e : escaper) :
  lost e -> validate_loop STATE_ANY (escape_final e) <> Ret STATE_ANY.
Proof.
  destruct e as [st escaped buffer]. unfold lost, written, escape_final.
  cbn [e_state e_escaped e_buffer].
  intros [[x Hx] | [Hv Hst]].
  - destruct st; rewrite ?validate_loop_app, Hx; discriminate.
  - destruct st; [congruence| |]; read_on; discriminate.
Qed.

Lemma lost_loop (s : str) (e : escaper) :
  lost e -> validate_loop STATE_ANY (escape_final (escape_loop e s)) <> Ret STATE_ANY.
Proof.
  revert e. induction s as [|c s IH]; intros e He; [now apply lost_final|].
  rewrite escape_loop_cons. apply IH. now apply lost_step.
Qed.

Lemma reading_final (r : reading) (e : escaper) :
  reading_inv r e ->
  validate_loop STATE_ANY (escape_final e) = Ret STATE_ANY <-> reads r [] = true.
Proof.
  destruct e as [st escaped buffer]. unfold reading_inv, written, one_hex, escape_final.
  cbn [e_state e_escaped e_buffer reads].
  intros H.
  destruct r;
    [ destruct H as [-> Hv]
    | destruct H as [-> Hv]
    | destruct H as (-> & (h & -> & Hh) & Hv)
    | destruct H as [[-> | ->] Hv]
    | destruct H as [[-> Hv] | (-> & (h & -> & Hh) & Hv)] ].
  all: read_on.
  all: split; intros; (reflexivity || discriminate).
Qed.

(** The escaped text brings the validating scanner back to [STATE_ANY]
    exactly when the reading of the value succeeds. *)
Lemma reading_loop (s : str) (r : reading) (e : escaper) :
  reading_inv r e ->
  validate_loop STATE_ANY (escape_final (escape_loop e s)) = Ret STATE_ANY
  <-> reads r s = true.
Proof.
  revert r e. induction s as [|c s IH]; intros r e He; [now apply reading_final|].
  rewrite escape_loop_cons. cbn [reads].
  pose proof (reading_step r e c He) as Hstep.
  destruct (read_step r c) as [r'|].
  - now apply IH.
  - split; [|discriminate]. intros H. now apply lost_loop in H.
Qed.

Lemma reading_init : reading_inv OUTSIDE escaper_init.
Proof. split; reflexivity. Qed.

Lemma last_app_ne (a b : str) (d : ascii) :
  b <> [] -> last (a ++ b) d = last b d.
Proof.
  intros Hb. destruct (exists_last Hb) as (b' & x & ->).
  now rewrite app_assoc, !last_last.
Qed.

(** The last character written is the last one read, or a backslash. *)
Lemma escape_final_last (e : escaper) (c d : ascii) :
  last (escape_final (escape_step e c)) d = c
  \/ last (escape_final (escape_step e c)) d = BACKSLASH.
Proof.
  destruct e as [st escaped buffer].
  unfold escape_step, escape_final.
  destruct st;
    repeat match goal with |- context [if ?b then _ else _] => destruct b end;
    cbn [e_state e_escaped e_buffer];
    rewrite last_app_ne by (try discriminate; intros E; apply app_eq_nil in E as [_ E]; apply app_eq_nil in E as [_ E]; discriminate);
    try (cbn; auto; fail).
  all: left; rewrite app_assoc; apply last_last.
Qed.

Lemma escape_spaces_plain (escaped : str) (d : ascii) :
  escaped <> [] -> last escaped d <> " "%char ->
  escape_spaces escaped
  = Ret (if Ascii.eqb (hd d escaped) " " then BACKSLASH :: escaped else escaped).
Proof.
  intros Hne Hl. destruct escaped as [|c0 escaped]; [congruence|].
  unfold escape_spaces. rewrite getitem_head. cbn [bind hd].
  set (escaped' := if Ascii.eqb c0 " " then _ else _).
  assert (escaped' <> []) as Hne' by (subst escaped'; destruct (Ascii.eqb c0 " "); discriminate).
  rewrite (getitem_last _ d Hne'). cbn [bind].
  assert (last escaped' d = last (c0 :: escaped) d) as ->.
  { subst escaped'. destruct (Ascii.eqb c0 " "); reflexivity. }
  destruct (Ascii.eqb_spec (last (c0 :: escaped) d) " "); [contradiction|].
  reflexivity.
Qed.

Lemma validate_loop_head (c : ascii) (s : str) :
  validate_loop STATE_ANY (c :: s) = Ret STATE_ANY ->
  in_str c special_chars = false.
Proof.
  cbn [validate_loop validate_step].
  destruct (Ascii.eqb c BACKSLASH) eqn:E.
  - apply Ascii.eqb_eq in E. now subst.
  - destruct (in_str c special_chars); [discriminate|reflexivity].
Qed.

(** A string that the scanner accepts, and that neither starts nor ends
    with a SPACE, is a valid attribute value. *)
Lemma validate_attribute_value_accepts (w : str) (d : ascii) :
  w <> [] -> Ascii.eqb (hd d w) " " = false -> Ascii.eqb (last w d) " " = false ->
  validate_loop STATE_ANY w = Ret STATE_ANY ->
  validate_attribute_value w = Ret true.
Proof.
  intros Hne Hh Hl Hv. destruct w as [|c w]; [congruence|]. cbn [hd] in Hh.
  unfold validate_attribute_value. cbn [truthy negb].
  rewrite getitem_head. cbn [bind].
  assert (Ascii.eqb c "#" = false) as ->.
  { apply validate_loop_head in Hv. destruct (Ascii.eqb_spec c "#"); [|reflexivity].
    subst. discriminate. }
  cbn [bind]. rewrite Hh, (getitem_last _ d) by discriminate. cbn [bind].
  rewrite Hl, Hv. reflexivity.
Qed.





(** ** split_ava *)

Lemma escape_attribute_value_terminates (v : str) :
  terminates (escape_attribute_value v).
Proof. destruct (escape_attribute_value_total v) as [s ->]. exact I. Qed.

Lemma bind_terminates {A B : Type} (m : outcome A) (k : A -> outcome B) :
  terminates m -> (forall a, m = Ret a -> terminates (k a)) -> terminates (m <- m ;; k m).
Proof.
  intros Hm Hk. destruct m; cbn [bind]; [now apply Hk|exact I|exact Hm].
Qed.

Lemma getitem_terminates (s : str) (i : Z) : terminates (getitem s i).
Proof.
  pose proof (getitem_not_fuel s i). now destruct (getitem s i).
Qed.

Lemma split_ava_loop_terminates (fuel : nat) (ava : str) (escape strip_ : bool)
    (equal : Z) :
  Z.max 0 equal < Z.of_nat fuel ->
  terminates (split_ava_loop fuel ava escape strip_ equal).
Proof.
  revert equal. induction fuel as [|fuel IH]; intros equal Hf; [lia|].
  - cbn [split_ava_loop]. destruct (Z.gtb_spec equal 0); [|exact I].
    apply bind_terminates; [apply getitem_terminates|]. intros c _.
    destruct (negb _).
    + destruct strip_, escape;
        try (apply bind_terminates;
             [apply escape_attribute_value_terminates|intros; exact I]);
        exact I.
    + apply IH. destruct (rfind_bounds ava "="%char 0 equal) as [->|[Hr _]]; lia.
Qed.

Lemma rfind0_bounds (s : str) (c : ascii) : -1 <= rfind0 s c < Z.max 1 (len s).
Proof.
  unfold rfind0. pose proof (len_nonneg s).
  destruct (rfind_bounds s c 0 (len s)) as [->|[? ?]]; lia.
Qed.

Lemma split_ava_terminates (ava : str) (escape strip_ : bool) :
  terminates (split_ava ava escape strip_).
Proof.
  apply split_ava_loop_terminates. pose proof (rfind0_bounds ava "="%char).
  unfold len in *. lia.
Qed.

(** C8. Without any ['='] in the AVA, [split_ava] with [strip=True] returns
    the empty type and the bound method [ava.strip] (the method is not
    called), not the stripped string. *)
Theorem split_ava_without_equal (ava : str) (escape : bool) :
  in_str "="%char ava = false ->
  split_ava ava escape true = Ret (lit "", VBoundStrip ava).
Proof.
  intros H. unfold split_ava. rewrite (rfind0_absent _ _ H). reflexivity.
Qed.

Lemma split_ava_without_equal_witness :
  split_ava (lit " abc ") false true = Ret (lit "", VBoundStrip (lit " abc ")).
Proof. apply split_ava_without_equal. reflexivity. Defined.

(** ** get_next_ava and the loop of parse_dn *)

Lemma len_slice_to (s : str) (hi : Z) : len (slice_to s hi) <= len s.
Proof.
  unfold slice_to. pose proof (len_slice_le s 0 hi). pose proof (len_nonneg s).
  pose proof (clamp_range (len s) hi H0). rewrite (clamp_inside _ 0) in H by lia.
  lia.
Qed.

Lemma get_next_ava_len (dn : str) : len (fst (get_next_ava dn)) <= len dn.
Proof.
  unfold get_next_ava.
  repeat match goal with |- context [if ?b then _ else _] => destruct b end;
    cbn [fst]; apply len_slice_to || lia.
Qed.

(** What is left after a non-empty AVA is shorter than what there was. *)
Lemma parse_dn_remainder_shorter (dn : str) :
  fst (get_next_ava dn) <> [] ->
  len (slice_from dn (len (fst (get_next_ava dn)) + 1)) < len dn.
Proof.
  intros Hne. pose proof (get_next_ava_len dn).
  assert (0 < len (fst (get_next_ava dn))).
  { destruct (fst (get_next_ava dn)); [congruence|].
    rewrite len_cons. pose proof (len_nonneg s). lia. }
  rewrite len_slice_from by lia. lia.
Qed.

Lemma validate_attribute_type_terminates (s : str) :
  terminates (validate_attribute_type s).
Proof.
  destruct s as [|c s]; [exact I|].
  destruct (validate_attribute_type_cons c s) as [->|[m ->]]; exact I.
Qed.

Lemma validate_attribute_value_terminates (s : str) :
  terminates (validate_attribute_value s).
Proof.
  destruct s as [|c s]; [exact I|].
  destruct (validate_attribute_value_cons c s) as [->|[m ->]]; exact I.
Qed.

Lemma parse_dn_loop_terminates (fuel : nat) (dn : str) (escape strip_ : bool)
    (rdns : list ava_triple) :
  len dn < Z.of_nat fuel ->
  terminates (parse_dn_loop fuel dn escape strip_ rdns).
Proof.
  revert dn rdns. induction fuel as [|fuel IH]; intros dn rdns Hf.
  - pose proof (len_nonneg dn). lia.
  - cbn [parse_dn_loop].
    pose proof (parse_dn_remainder_shorter dn) as Hs.
    destruct (get_next_ava dn) as [ava separator]. cbn [fst] in Hs.
    destruct ava as [|a ava]; [exact I|]. cbn [truthy].
    apply bind_terminates; [apply split_ava_terminates|].
    intros [attribute_type attribute_value] _.
    apply bind_terminates; [apply validate_attribute_type_terminates|].
    intros ok _. destruct (negb ok); [exact I|].
    apply bind_terminates.
    { destruct attribute_value; [apply validate_attribute_value_terminates|exact I]. }
    intros ok' _.
    apply bind_terminates; [destruct attribute_value; exact I|].
    intros value _. destruct (negb ok'); [exact I|].
    apply IH. specialize (Hs ltac:(discriminate)). lia.
Qed.

(** More fuel than the length of the input does not change the result. *)
Lemma parse_dn_loop_fuel_stable (fuel fuel' : nat) (dn : str)
    (escape strip_ : bool) (rdns : list ava_triple) :
  len dn < Z.of_nat fuel -> len dn < Z.of_nat fuel' ->
  parse_dn_loop fuel dn escape strip_ rdns
  = parse_dn_loop fuel' dn escape strip_ rdns.
Proof.
  revert fuel' dn rdns. induction fuel as [|fuel IH]; intros fuel' dn rdns Hf Hf'.
  - pose proof (len_nonneg dn). lia.
  - destruct fuel' as [|fuel']; [pose proof (len_nonneg dn); lia|].
    cbn [parse_dn_loop].
    pose proof (parse_dn_remainder_shorter dn) as Hs.
    destruct (get_next_ava dn) as [ava separator]. cbn [fst] in Hs.
    destruct ava as [|a ava]; [reflexivity|]. cbn [truthy].
    specialize (Hs ltac:(discriminate)).
    destruct (split_ava _ _ _) as [[attribute_type attribute_value]| |];
      cbn [bind]; try reflexivity.
    destruct (validate_attribute_type _) as [ok| |]; cbn [bind]; try reflexivity.
    destruct (negb ok); [reflexivity|].
    destruct (validate_attribute_value_obj _) as [ok'| |]; cbn [bind];
      try reflexivity.
    destruct (as_str _) as [value| |]; cbn [bind]; try reflexivity.
    destruct (negb ok'); [reflexivity|].
    apply IH; lia.
Qed.

(** C10. One iteration of [parse_dn] either finds an empty AVA and returns,
    or leaves a strictly shorter string; so the loop terminates on every
    input. *)
Theorem parse_dn_terminates (dn : str) (escape strip_ : bool) :
  ((fst (get_next_ava dn) = []
    /\ forall fuel rdns, parse_dn_loop (S fuel) dn escape strip_ rdns = Ret rdns)
   \/ (fst (get_next_ava dn) <> []
       /\ len (slice_from dn (len (fst (get_next_ava dn)) + 1)) < len dn))
  /\ terminates (parse_dn dn escape strip_).
Proof.
  split.
  - destruct (fst (get_next_ava dn)) as [|a ava] eqn:E.
    + left. split; [reflexivity|]. intros fuel rdns. cbn [parse_dn_loop].
      destruct (get_next_ava dn) as [ava separator]. cbn [fst] in E. now subst.
    + right. split; [discriminate|]. rewrite <- E.
      apply parse_dn_remainder_shorter. rewrite E. discriminate.
  - apply parse_dn_loop_terminates. unfold len. lia.
Qed.

(** C4. The multi-valued RDN of the specification. *)
Theorem parse_dn_multi_valued_rdn :
  parse_dn (lit "cn=a+ou=b,dc=example") false true
  = Ret [(lit "cn", lit "a", lit "+");
         (lit "ou", lit "b", lit ",");
         (lit "dc", lit "example", lit "")].
Proof. vm_compute. reflexivity. Qed.

(** ** The boundaries found by get_next_ava *)

Lemma len_pos (s : str) : s <> [] -> 0 < len s.
Proof.
  destruct s as [|c s]; [congruence|]. intros _.
  rewrite len_cons. pose proof (len_nonneg s). lia.
Qed.

Lemma in_str_split_first (c : ascii) (s : str) :
  in_str c s = true ->
  exists s1 s2, s = s1 ++ c :: s2 /\ in_str c s1 = false.
Proof.
  induction s as [|x s IH]; [discriminate|]. cbn [in_str existsb].
  destruct (Ascii.eqb c x) eqn:E; cbn [orb].
  - intros _. apply Ascii.eqb_eq in E as <-. now exists [], s.
  - intros H. destruct (IH H) as (s1 & s2 & -> & H1).
    exists (x :: s1), s2. split; [reflexivity|].
    cbn [in_str existsb]. now rewrite E.
Qed.

Lemma first_occurrence_unique (c : ascii) (s1 s2 t1 t2 : str) :
  s1 ++ c :: s2 = t1 ++ c :: t2 ->
  in_str c s1 = false -> in_str c t1 = false -> s1 = t1 /\ s2 = t2.
Proof.
  revert t1. induction s1 as [|x s1 IH]; intros [|y t1] E H1 H2; cbn in *.
  - injection E as ->. now split.
  - injection E as <- _. now rewrite Ascii.eqb_refl in H2.
  - injection E as -> _. now rewrite Ascii.eqb_refl in H1.
  - injection E as -> E. apply orb_false_iff in H1 as [_ H1].
    apply orb_false_iff in H2 as [_ H2].
    destruct (IH _ E H1 H2) as [-> ->]. now split.
Qed.

Lemma find0_app_absent (s t : str) (c : ascii) :
  in_str c s = false ->
  find0 (s ++ t) c = -1 \/ len s <= find0 (s ++ t) c.
Proof.
  intros H. destruct (in_str c t) eqn:E.
  - right. destruct (in_str_split_first c t E) as (t1 & t2 & -> & Ht).
    rewrite app_assoc, find0_first; [rewrite len_app; pose proof (len_nonneg t1); lia|].
    now rewrite in_str_app, H, Ht.
  - left. apply find0_absent. now rewrite in_str_app, H, E.
Qed.

Lemma slice_from_app1 (a r : str) (c : ascii) :
  slice_from (a ++ c :: r) (len a + 1) = r.
Proof.
  change (a ++ c :: r) with (a ++ [c] ++ r). rewrite app_assoc.
  replace (len a + 1) with (len (a ++ [c])) by now rewrite len_app.
  apply slice_from_app.
Qed.

Lemma slice_mid (a b c : str) : slice (a ++ b ++ c) (len a) (len a + len b) = b.
Proof.
  pose proof (len_nonneg a). pose proof (len_nonneg b). pose proof (len_nonneg c).
  rewrite slice_inside by (rewrite !len_app; lia).
  unfold len. rewrite Nat2Z.id, skipn_app, Nat.sub_diag, skipn_all. cbn [app skipn].
  replace (Z.to_nat _) with (List.length b) by lia.
  now rewrite firstn_app, Nat.sub_diag, firstn_all, app_nil_r.
Qed.

(** The search for ['='] between the first ['+'] and the first [',']. *)
Lemma find_equal_between (a r1 r2 : str) :
  a <> [] ->
  (find (a ++ "+"%char :: r1 ++ ","%char :: r2) "="%char
        (len a) (len a + 1 + len r1) >? 0)
  = in_str "="%char r1.
Proof.
  intros Ha. pose proof (len_nonneg a). pose proof (len_nonneg r1).
  pose proof (len_nonneg r2).
  assert (0 < len a) by now apply len_pos.
  unfold find.
  rewrite !clamp_inside by (rewrite ?len_app, ?len_cons, ?len_app, ?len_cons; lia).
  change (a ++ "+"%char :: r1 ++ ","%char :: r2)
    with (a ++ ("+"%char :: r1) ++ (","%char :: r2)).
  replace (len a + 1 + len r1) with (len a + len ("+"%char :: r1))
    by (rewrite len_cons; lia).
  rewrite slice_mid. cbn [find_at]. change (Ascii.eqb "+" "=") with false. cbv iota.
  destruct (in_str "="%char r1) eqn:E.
  - destruct (in_str_split_first _ _ E) as (s1 & s2 & -> & Hs).
    rewrite find_at_first by assumption. pose proof (len_nonneg s1).
    apply Z.gtb_lt. lia.
  - rewrite find_at_absent by assumption. reflexivity.
Qed.

Lemma get_next_ava_no_comma (dn : str) :
  in_str ","%char dn = false -> get_next_ava dn = (dn, lit "").
Proof.
  intros H. unfold get_next_ava. rewrite (find0_absent _ _ H).
  destruct (find0_app_absent [] dn "+"%char eq_refl) as [E|E]; cbn [app] in E.
  - rewrite E. reflexivity.
  - destruct (Z.ltb_spec (find0 dn "+"%char) (-1)); [rewrite len_nil in E; lia|].
    now rewrite andb_false_r.
Qed.

Lemma get_next_ava_leading_comma (r : str) :
  get_next_ava (","%char :: r) = (","%char :: r, lit "").
Proof.
  unfold get_next_ava.
  change (find0 (","%char :: r) ",") with (find0 ([] ++ ","%char :: r) ",").
  rewrite (find0_first [] r ","%char eq_refl), len_nil.
  destruct (find0 _ "+"%char >? 0) eqn:E1, (find0 _ "+"%char <? 0) eqn:E2;
    cbn [andb]; try reflexivity.
  apply Z.gtb_lt in E1. apply Z.ltb_lt in E2. lia.
Qed.

Lemma get_next_ava_plus (a r1 r2 : str) :
  in_str "+"%char a = false -> in_str ","%char a = false -> a <> [] ->
  in_str ","%char r1 = false -> in_str "="%char r1 = true ->
  get_next_ava (a ++ "+"%char :: r1 ++ ","%char :: r2) = (a, lit "+").
Proof.
  intros Hp Hc Ha Hc1 He.
  pose proof (len_pos a Ha). pose proof (len_nonneg r1).
  set (dn := a ++ "+"%char :: r1 ++ ","%char :: r2).
  assert (find0 dn "+"%char = len a) as Ep by now apply find0_first.
  assert (find0 dn ","%char = len a + 1 + len r1) as Ec.
  { subst dn.
    replace (a ++ "+"%char :: r1 ++ ","%char :: r2)
      with ((a ++ "+"%char :: r1) ++ ","%char :: r2) by now rewrite <- app_assoc.
    rewrite find0_first; [rewrite len_app, len_cons; lia|].
    rewrite in_str_app, Hc. cbn [in_str existsb orb]. exact Hc1. }
  unfold get_next_ava. rewrite Ep, Ec.
  destruct (Z.gtb_spec (len a) 0); [|lia].
  destruct (Z.ltb_spec (len a) (len a + 1 + len r1)); [|lia]. cbn [andb].
  subst dn. rewrite (find_equal_between a r1 r2 Ha), He. now rewrite slice_to_app.
Qed.

Lemma get_next_ava_comma (x r : str) :
  in_str ","%char x = false -> x <> [] -> ~ plus_splits x ->
  get_next_ava (x ++ ","%char :: r) = (x, lit ",").
Proof.
  intros Hc Hx Hns. pose proof (len_pos x Hx).
  assert (find0 (x ++ ","%char :: r) ","%char = len x) as Ec by now apply find0_first.
  assert (slice_to (x ++ ","%char :: r) (len x) = x) as Es by apply slice_to_app.
  destruct (in_str "+"%char x) eqn:Hp.
  - destruct (in_str_split_first _ _ Hp) as (a & r1 & E & Ha).
    assert (find0 (x ++ ","%char :: r) "+"%char = len a) as Ep.
    { rewrite E, <- app_assoc. cbn [app]. now apply find0_first. }
    assert (len x = len a + 1 + len r1) as El
      by (rewrite E, len_app, len_cons; lia).
    unfold get_next_ava. rewrite Ep, Ec. pose proof (len_nonneg r1).
    assert (a = [] \/ a <> []) as [->|Hne] by (destruct a; [now left|now right]).
    + rewrite len_nil. cbn [Z.gtb Z.compare andb].
      destruct (Z.gtb_spec (len x) 0); [|lia]. now rewrite Es.
    + pose proof (len_pos a Hne).
      destruct (Z.gtb_spec (len a) 0); [|lia].
      destruct (Z.ltb_spec (len a) (len x)); [|lia]. cbn [andb].
      assert (in_str "="%char r1 = false) as He.
      { destruct (in_str "="%char r1) eqn:He; [|reflexivity].
        exfalso. apply Hns. exists a, r1. repeat split; auto. }
      assert ((find (x ++ ","%char :: r) "="%char (len a) (len x) >? 0)
              = false) as ->.
      { rewrite El, E, <- app_assoc. cbn [app].
        now rewrite (find_equal_between a r1 r). }
      now rewrite Es.
  - unfold get_next_ava. rewrite Ec.
    destruct (Z.gtb_spec (len x) 0); [|lia].
    destruct (find0_app_absent x (","%char :: r) "+"%char Hp) as [E|E].
    + rewrite E. cbn [Z.gtb Z.compare andb]. now rewrite Es.
    + destruct (Z.ltb_spec (find0 (x ++ ","%char :: r) "+"%char) (len x)); [lia|].
      rewrite andb_false_r. now rewrite Es.
Qed.

Lemma nil_or_not (s : str) : s = [] \/ s <> [].
Proof. destruct s; [now left|now right]. Qed.

Lemma get_next_ava_boundary (dn : str) :
  exists ava sep rest, get_next_ava dn = (ava, sep) /\ boundary dn ava sep rest.
Proof.
  destruct (in_str ","%char dn) eqn:Hc.
  2:{ exists dn, (lit ""), []. split; [now apply get_next_ava_no_comma|].
      constructor. now left. }
  destruct (in_str_split_first _ _ Hc) as (x & r & -> & Hx). clear Hc.
  destruct (nil_or_not x) as [->|Hne].
  { eexists _, _, []. split; [apply get_next_ava_leading_comma|].
    constructor. right. eauto. }
  assert (plus_splits x \/ ~ plus_splits x) as [Hs|Hns].
  { destruct (in_str "+"%char x) eqn:Hp.
    - destruct (in_str_split_first _ _ Hp) as (a & r1 & E & Ha).
      destruct (nil_or_not a) as [->|Hane].
      + right. intros (a' & r' & E' & Ha' & Hne' & _). rewrite E in E'.
        destruct (first_occurrence_unique _ _ _ _ _ E' Ha Ha') as [<- _]. congruence.
      + destruct (in_str "="%char r1) eqn:He.
        * left. exists a, r1. auto.
        * right. intros (a' & r' & E' & Ha' & Hne' & He'). rewrite E in E'.
          destruct (first_occurrence_unique _ _ _ _ _ E' Ha Ha') as [_ <-].
          congruence.
    - right. intros (a' & r' & E' & Ha' & Hne' & He'). rewrite E' in Hp.
      rewrite in_str_app in Hp. cbn [in_str existsb] in Hp.
      rewrite Ascii.eqb_refl in Hp. cbn [orb] in Hp. now rewrite orb_true_r in Hp. }
  - destruct Hs as (a & r1 & -> & Ha & Hane & He).
    rewrite in_str_app in Hx. apply orb_false_iff in Hx as [Hx1 Hx2].
    cbn [in_str existsb] in Hx2. apply orb_false_iff in Hx2 as [_ Hx2].
    exists a, (lit "+"), (r1 ++ ","%char :: r).
    rewrite <- app_assoc. cbn [app]. split.
    + now apply get_next_ava_plus.
    + now constructor.
  - exists x, (lit ","), r. split.
    + now apply get_next_ava_comma.
    + now constructor.
Qed.

Lemma get_next_ava_inv (dn ava sep : str) :
  get_next_ava dn = (ava, sep) -> exists rest, boundary dn ava sep rest.
Proof.
  destruct (get_next_ava_boundary dn) as (ava' & sep' & rest & E & B).
  rewrite E. intros [= <- <-]. eauto.
Qed.

(** What [parse_dn] goes on with after an AVA. *)
Lemma boundary_remainder (dn ava sep rest : str) :
  boundary dn ava sep rest -> slice_from dn (len ava + 1) = rest.
Proof.
  intros [a r1 r2 -> _ _ _ _ _|a r -> _ _ _|_].
  - apply slice_from_app1.
  - apply slice_from_app1.
  - apply slice_from_beyond. lia.
Qed.

(** ** parse_dn as a relation *)

Lemma boundary_ava_nil (dn sep rest : str) : boundary dn [] sep rest -> dn = [].
Proof.
  inversion 1; subst; congruence.
Qed.

Lemma parse_dn_loop_parsed (fuel : nat) (dn : str) (escape strip_ : bool)
    (acc out : list ava_triple) :
  parse_dn_loop fuel dn escape strip_ acc = Ret out ->
  exists new, out = acc ++ new /\ parsed escape strip_ dn new.
Proof.
  revert dn acc. induction fuel as [|fuel IH]; intros dn acc; [discriminate|].
  cbn [parse_dn_loop].
  destruct (get_next_ava dn) as [ava sep] eqn:E.
  destruct (get_next_ava_inv _ _ _ E) as [rest B].
  destruct ava as [|a0 ava]; cbn [truthy].
  - intros [= <-]. exists []. rewrite app_nil_r. split; [reflexivity|].
    rewrite (boundary_ava_nil _ _ _ B). constructor.
  - rewrite (boundary_remainder _ _ _ _ B).
    destruct (split_ava _ _ _) as [[t value]| |] eqn:Es; cbn [bind]; try discriminate.
    destruct (validate_attribute_type t) as [[|]| |] eqn:Et; cbn [bind negb];
      try discriminate.
    destruct value as [v|self]; cbn [validate_attribute_value_obj as_str];
      [|discriminate].
    destruct (validate_attribute_value v) as [[|]| |] eqn:Ev; cbn [bind negb];
      try discriminate.
    intros H. destruct (IH _ _ H) as (new & -> & Hp).
    exists ((t, v, sep) :: new). rewrite <- app_assoc. split; [reflexivity|].
    econstructor; eassumption.
Qed.

Lemma boundary_get_next_ava (dn ava sep rest : str) :
  boundary dn ava sep rest -> get_next_ava dn = (ava, sep).
Proof.
  intros [a r1 r2 -> ? ? ? ? ?|a r -> ? ? ?|[H|[r ->]]].
  - now apply get_next_ava_plus.
  - now apply get_next_ava_comma.
  - now apply get_next_ava_no_comma.
  - apply get_next_ava_leading_comma.
Qed.

Lemma boundary_rest_shorter (dn ava sep rest : str) :
  boundary dn ava sep rest -> dn <> [] -> len rest < len dn.
Proof.
  intros [a r1 r2 -> ? ? ? ? ?|a r -> ? ? ?|_] Hd.
  - rewrite (len_app a), len_cons. pose proof (len_nonneg a). lia.
  - rewrite len_app, len_cons. pose proof (len_nonneg a). lia.
  - rewrite len_nil. now apply len_pos.
Qed.

Lemma split_ava_nil (escape strip_ : bool) (t v : str) :
  split_ava [] escape strip_ = Ret (t, VStr v) -> t = [].
Proof.
  destruct escape, strip_; cbv; congruence.
Qed.

Lemma parsed_nonempty (escape strip_ : bool) (dn : str) (x : ava_triple)
    (rdns : list ava_triple) :
  parsed escape strip_ dn (x :: rdns) -> dn <> [].
Proof.
  inversion 1 as [|? ava ? ? t ? ? B Es Et]; subst. intros ->.
  assert (ava = []) as -> by (inversion B; subst; try reflexivity;
    match goal with H : [] = _ ++ _ |- _ => symmetry in H; apply app_eq_nil in H as [_ H]; discriminate end).
  apply split_ava_nil in Es. subst. discriminate.
Qed.

Lemma parsed_nil_inv (escape strip_ : bool) (rdns : list ava_triple) :
  parsed escape strip_ [] rdns -> rdns = [].
Proof.
  destruct rdns as [|x rdns]; [reflexivity|].
  intros H. now destruct (parsed_nonempty _ _ _ _ _ H).
Qed.

Lemma parsed_parse_dn_loop (escape strip_ : bool) (dn : str)
    (new : list ava_triple) :
  parsed escape strip_ dn new ->
  forall fuel acc, len dn < Z.of_nat fuel ->
    parse_dn_loop fuel dn escape strip_ acc = Ret (acc ++ new).
Proof.
  induction 1 as [|dn ava sep rest t v rdns B Es Et Ev Hp IH]; intros fuel acc Hf.
  - destruct fuel; [rewrite len_nil in Hf; lia|]. cbn. now rewrite app_nil_r.
  - assert (dn <> []) as Hd by (eapply parsed_nonempty; econstructor; eassumption).
    destruct fuel as [|fuel]; [pose proof (len_nonneg dn); lia|].
    cbn [parse_dn_loop]. rewrite (boundary_get_next_ava _ _ _ _ B).
    assert (truthy ava = true) as ->.
    { apply truthy_true. intros ->. apply boundary_ava_nil in B. congruence. }
    rewrite Es. cbn [bind]. rewrite Et. cbn [bind negb validate_attribute_value_obj].
    rewrite Ev. cbn [bind negb as_str]. rewrite (boundary_remainder _ _ _ _ B).
    rewrite IH by (pose proof (boundary_rest_shorter _ _ _ _ B Hd); lia).
    now rewrite <- app_assoc.
Qed.

(** [parse_dn] returns [rdns] exactly when its iterations are [parsed]. *)
Lemma parse_dn_parsed (dn : str) (escape strip_ : bool) (rdns : list ava_triple) :
  parse_dn dn escape strip_ = Ret rdns <-> parsed escape strip_ dn rdns.
Proof.
  unfold parse_dn. split.
  - intros H. now destruct (parse_dn_loop_parsed _ _ _ _ _ _ H) as (new & -> & Hp).
  - intros H. apply (parsed_parse_dn_loop _ _ _ _ H (S (List.length dn)) []).
    unfold len. lia.
Qed.

(** ** Separators *)

Lemma parsed_separators_ok (escape strip_ : bool) (dn : str)
    (rdns : list ava_triple) :
  parsed escape strip_ dn rdns -> separators_ok rdns.
Proof.
  induction 1 as [|dn ava sep rest t v rdns B Es Et Ev Hp IH]; [exact I|].
  cbn [separators_ok]. split; [|exact IH].
  destruct B as [a r1 r2 -> ? ? ? ? ?|a r -> ? ? ?|_].
  - destruct rdns; [|now right]. inversion Hp as [E|].
    symmetry in E. apply app_eq_nil in E as [_ E]. discriminate.
  - destruct rdns; [now right|now left].
  - apply parsed_nil_inv in Hp. subst. now left.
Qed.

Lemma separators_ok_last (init : list ava_triple) (t v sep : str) :
  separators_ok (init ++ [(t, v, sep)]) ->
  (forall t' v' sep', In (t', v', sep') init -> sep' = lit "," \/ sep' = lit "+")
  /\ (sep = lit "" \/ sep = lit ",").
Proof.
  induction init as [|[[t0 v0] sep0] init IH]; cbn [app separators_ok].
  - intros [H _]. split; [intros ? ? ? []|exact H].
  - intros [H1 H2]. destruct (IH H2) as [IH1 IH2]. split; [|exact IH2].
    intros t' v' sep' [[= <- <- <-]|Hin]; [|eauto].
    destruct (init ++ [(t, v, sep)]) eqn:E; [|exact H1].
    apply app_eq_nil in E as [_ E]. discriminate.
Qed.

Lemma boundary_shape (dn ava sep rest : str) :
  boundary dn ava sep rest ->
  (exists c, dn = ava ++ c :: rest) \/ (rest = [] /\ sep = lit "").
Proof.
  intros [a r1 r2 -> ? ? ? ? ?|a r -> ? ? ?|_]; [left|left|right]; eauto.
Qed.

Lemma boundary_comma_inv (dn ava rest : str) :
  boundary dn ava (lit ",") rest -> dn = ava ++ ","%char :: rest.
Proof. inversion 1; subst; reflexivity. Qed.

(** A final comma separator is the last character of the input. *)
Lemma parsed_trailing_comma (escape strip_ : bool) (dn : str)
    (rdns : list ava_triple) :
  parsed escape strip_ dn rdns ->
  forall init t v, rdns = init ++ [(t, v, lit ",")] -> exists d, dn = d ++ lit ",".
Proof.
  induction 1 as [|dn ava sep rest t v rdns B Es Et Ev Hp IH]; intros init t1 v1 E.
  - symmetry in E. apply app_eq_nil in E as [_ E]. discriminate.
  - destruct init as [|x init]; cbn [app] in E.
    + injection E as ? ? ? ?; subst. inversion Hp; subst.
      apply boundary_comma_inv in B. exists ava. exact B.
    + injection E as _ E. destruct (IH _ _ _ E) as [d Hd].
      destruct (boundary_shape _ _ _ _ B) as [[c ->]|[-> _]].
      * exists (ava ++ c :: d). rewrite Hd. now rewrite <- app_assoc.
      * symmetry in Hd. apply app_eq_nil in Hd as [_ Hd]. discriminate.
Qed.

(** C9, as the code has it.  In the list returned by [parse_dn] every triple
    but the last has separator [","] or ["+"]; the last one has [""], or
    [","] when the input ends with a comma. *)
Theorem parse_dn_separators (dn : str) (escape strip_ : bool)
    (init : list ava_triple) (t v sep : str) :
  parse_dn dn escape strip_ = Ret (init ++ [(t, v, sep)]) ->
  (forall t' v' sep', In (t', v', sep') init -> sep' = lit "," \/ sep' = lit "+")
  /\ (sep = lit "" \/ (sep = lit "," /\ exists d, dn = d ++ lit ",")).
Proof.
  intros H. apply parse_dn_parsed in H.
  destruct (separators_ok_last _ _ _ _ (parsed_separators_ok _ _ _ _ H)) as [H1 H2].
  split; [exact H1|]. destruct H2 as [->| ->]; [now left|right].
  split; [reflexivity|]. eapply parsed_trailing_comma; [exact H|reflexivity].
Qed.

Lemma parse_dn_separators_witness :
  (forall t' v' sep',
      In (t', v', sep') [(lit "cn", lit "a", lit "+"); (lit "ou", lit "b", lit ",")] ->
      sep' = lit "," \/ sep' = lit "+")
  /\ (lit "" = lit "" \/ (lit "" = lit "," /\ exists d, lit "cn=a+ou=b,dc=example" = d ++ lit ",")).
Proof.
  apply (parse_dn_separators (lit "cn=a+ou=b,dc=example") false true
           [(lit "cn", lit "a", lit "+"); (lit "ou", lit "b", lit ",")]
           (lit "dc") (lit "example") (lit "")).
  vm_compute. reflexivity.
Defined.

(** C9 fails on an input that ends with a comma: the only triple, hence the
    last one, has separator [","]. *)
Lemma parse_dn_trailing_comma :
  parse_dn (lit "cn=a,") false true = Ret [(lit "cn", lit "a", lit ",")]
  /\ lit "," <> lit "".
Proof. split; [vm_compute; reflexivity|discriminate]. Qed.

(** ** strip *)

Lemma all_space_nil : all_space [].
Proof. intros c []. Qed.

Lemma all_space_cons (c : ascii) (w : str) :
  is_space c = true -> all_space w -> all_space (c :: w).
Proof. intros Hc Hw x [<-|Hx]; auto. Qed.

Lemma all_space_rev (w : str) : all_space w -> all_space (rev w).
Proof. intros Hw c Hc. apply Hw. now apply in_rev. Qed.

Lemma all_space_absent (w : str) (c : ascii) :
  all_space w -> is_space c = false -> in_str c w = false.
Proof.
  intros Hw Hc. destruct (in_str c w) eqn:E; [|reflexivity].
  apply in_str_In, Hw in E. congruence.
Qed.

Lemma lstrip_decomp (s : str) : exists w, s = w ++ lstrip s /\ all_space w.
Proof.
  induction s as [|c s (w & E & Hw)].
  - exists []. split; [reflexivity|apply all_space_nil].
  - cbn [lstrip]. destruct (is_space c) eqn:Hc.
    + exists (c :: w). split; [cbn; now f_equal|now apply all_space_cons].
    + exists []. split; [reflexivity|apply all_space_nil].
Qed.

Lemma rstrip_decomp (s : str) : exists w, s = rstrip s ++ w /\ all_space w.
Proof.
  unfold rstrip. destruct (lstrip_decomp (rev s)) as (w & E & Hw).
  exists (rev w). split; [|now apply all_space_rev].
  rewrite <- rev_app_distr, <- E. now rewrite rev_involutive.
Qed.

Lemma strip_decomp (s : str) :
  exists w1 w2, s = w1 ++ strip s ++ w2 /\ all_space w1 /\ all_space w2.
Proof.
  unfold strip. destruct (lstrip_decomp s) as (w1 & E1 & H1).
  destruct (rstrip_decomp (lstrip s)) as (w2 & E2 & H2).
  exists w1, w2. repeat split; try assumption. now rewrite <- E2.
Qed.

Lemma lstrip_fixed (c : ascii) (s : str) :
  is_space c = false -> lstrip (c :: s) = c :: s.
Proof. intros H. cbn [lstrip]. now rewrite H. Qed.

Lemma lstrip_snoc (s : str) (c : ascii) :
  is_space c = false -> lstrip (s ++ [c]) = lstrip s ++ [c].
Proof.
  intros Hc. induction s as [|x s IH]; cbn [app lstrip].
  - now rewrite Hc.
  - destruct (is_space x); [exact IH|reflexivity].
Qed.

Lemma rstrip_cons (c : ascii) (s : str) :
  is_space c = false -> rstrip (c :: s) = c :: rstrip s.
Proof.
  intros Hc. unfold rstrip. cbn [rev].
  now rewrite lstrip_snoc, rev_app_distr by assumption.
Qed.

Lemma rstrip_snoc (s : str) (c : ascii) :
  is_space c = false -> rstrip (s ++ [c]) = s ++ [c].
Proof.
  intros Hc. unfold rstrip. rewrite rev_app_distr. cbn [rev app].
  rewrite lstrip_fixed by assumption. cbn [rev]. now rewrite rev_involutive.
Qed.

Lemma lstrip_head (s : str) :
  lstrip s = [] \/ exists c s', lstrip s = c :: s' /\ is_space c = false.
Proof.
  induction s as [|c s IH]; [now left|]. cbn [lstrip].
  destruct (is_space c) eqn:Hc; [exact IH|right; eauto].
Qed.

Lemma rstrip_last (s : str) :
  rstrip s = [] \/ exists s' c, rstrip s = s' ++ [c] /\ is_space c = false.
Proof.
  unfold rstrip. destruct (lstrip_head (rev s)) as [->|(c & s' & -> & Hc)];
    [now left|right]. exists (rev s'), c. now split.
Qed.

(** A stripped string is empty, or starts and ends with a character that is
    not white space. *)
Lemma strip_ends (s : str) :
  strip s = []
  \/ exists c s' s'' d, strip s = c :: s' /\ strip s = s'' ++ [d]
                        /\ is_space c = false /\ is_space d = false.
Proof.
  unfold strip. destruct (lstrip_head s) as [->|(c & s' & -> & Hc)]; [now left|].
  right. destruct (rstrip_last (c :: s')) as [E|(s'' & d & E & Hd)].
  - rewrite rstrip_cons in E by assumption. discriminate.
  - exists c, (rstrip s'), s'', d. rewrite <- E.
    now rewrite rstrip_cons by assumption.
Qed.

Lemma strip_fixed (c d : ascii) (s s' : str) :
  c :: s = s' ++ [d] -> is_space c = false -> is_space d = false ->
  strip (c :: s) = c :: s.
Proof.
  intros E Hc Hd. unfold strip. rewrite lstrip_fixed by assumption.
  rewrite E. now apply rstrip_snoc.
Qed.

Lemma strip_idempotent (s : str) : strip (strip s) = strip s.
Proof.
  destruct (strip_ends s) as [->|(c & s' & s'' & d & E1 & E2 & Hc & Hd)];
    [reflexivity|].
  rewrite E1. apply (strip_fixed c d s' s''); [congruence|assumption|assumption].
Qed.

(** ** Attribute types *)

Lemma type_char_plain (c : ascii) :
  in_str c type_chars = true ->
  is_space c = false /\ Ascii.eqb c "=" = false /\ Ascii.eqb c "," = false
  /\ Ascii.eqb c "+" = false /\ Ascii.eqb c BACKSLASH = false.
Proof. by_char c. Qed.

Lemma check_type_chars_ret (s : str) :
  check_type_chars s = Ret tt -> forall c, In c s -> in_str c type_chars = true.
Proof.
  induction s as [|x s IH]; intros H c; [intros []|]. cbn [check_type_chars] in H.
  destruct (in_str x type_chars) eqn:E; cbn [negb] in H; [|discriminate].
  intros [<-|Hc]; auto.
Qed.

Lemma validate_attribute_type_true (t : str) :
  validate_attribute_type t = Ret true ->
  t <> [] /\ forall c, In c t -> in_str c type_chars = true.
Proof.
  destruct t as [|c t]; [discriminate|]. unfold validate_attribute_type.
  cbn [truthy negb]. intros H. split; [discriminate|].
  destruct (check_type_chars (c :: t)) as [[]| |] eqn:E; cbn [bind] in H;
    try discriminate.
  now apply check_type_chars_ret.
Qed.

Lemma type_absent (t : str) (c : ascii) :
  (forall x, In x t -> in_str x type_chars = true) ->
  in_str c type_chars = false -> in_str c t = false.
Proof.
  intros Ht Hc. destruct (in_str c t) eqn:E; [|reflexivity].
  apply in_str_In, Ht in E. congruence.
Qed.

Lemma type_strip_fixed (t : str) :
  t <> [] -> (forall x, In x t -> in_str x type_chars = true) -> strip t = t.
Proof.
  intros Hne Ht. destruct t as [|c t]; [congruence|].
  destruct (exists_last Hne) as (t' & d & E).
  apply (strip_fixed c d t t' E).
  - apply type_char_plain, Ht. now left.
  - apply type_char_plain, Ht. rewrite E. apply in_or_app. right. now left.
Qed.

(** ** Valid values and the escaper *)

Lemma validate_step_to_escape (st : state) (c : ascii) :
  validate_step st c = Ret STATE_ESCAPE -> st = STATE_ANY /\ c = BACKSLASH.
Proof.
  destruct st; cbn [validate_step].
  - destruct (Ascii.eqb_spec c BACKSLASH); [now split|].
    destruct (in_str c special_chars); discriminate.
  - destruct (in_str c hexdigits); [discriminate|].
    destruct (in_str c escapable_chars); discriminate.
  - destruct (in_str c hexdigits); discriminate.
Qed.

Lemma validate_step_equal (st st' : state) :
  validate_step st "="%char = Ret st' -> st = STATE_ESCAPE.
Proof. destruct st; [discriminate|reflexivity|discriminate]. Qed.

Lemma validate_loop_equal_escaped (v : str) (st st' : state) :
  validate_loop st v = Ret st' ->
  forall j, nth_error v j = Some "="%char ->
    (j = 0%nat /\ st = STATE_ESCAPE)
    \/ exists j', j = S j' /\ nth_error v j' = Some BACKSLASH.
Proof.
  revert st. induction v as [|c v IH]; intros st H j Hj; [now destruct j|].
  cbn [validate_loop] in H.
  destruct (validate_step st c) as [st1| |] eqn:E; cbn [bind] in H; try discriminate.
  destruct j as [|j]; cbn [nth_error] in Hj.
  - injection Hj as ->. left. split; [reflexivity|]. eapply validate_step_equal, E.
  - right. exists j. split; [reflexivity|].
    destruct (IH _ H _ Hj) as [[-> ->]|(j' & -> & Hj')]; [|exact Hj'].
    apply validate_step_to_escape in E as [_ ->]. reflexivity.
Qed.

Lemma escape_step_valid (e : escaper) (c : ascii) (st' : state) :
  validate_step (e_state e) c = Ret st' ->
  e_state (escape_step e c) = st'
  /\ e_escaped (escape_step e c) ++ pending (escape_step e c)
     = (e_escaped e ++ pending e) ++ [c].
Proof.
  destruct e as [st escaped buffer]. cbn [e_state e_escaped].
  unfold escape_step, pending. destruct st; cbn [validate_step e_state e_buffer].
  - destruct (Ascii.eqb_spec c BACKSLASH) as [->|].
    + intros [= <-]. cbn [e_state e_escaped]. split; [reflexivity|].
      now rewrite app_nil_r.
    + destruct (in_str c special_chars); [discriminate|]. intros [= <-].
      cbn [e_state e_escaped]. split; [reflexivity|]. now rewrite !app_nil_r.
  - destruct (in_str c hexdigits).
    + intros [= <-]. cbn [e_state e_escaped e_buffer]. split; [reflexivity|].
      now rewrite <- app_assoc.
    + destruct (in_str c escapable_chars); [|discriminate]. intros [= <-].
      cbn [e_state e_escaped]. split; [reflexivity|].
      now rewrite app_nil_r, <- app_assoc.
  - destruct (in_str c hexdigits); [|discriminate]. intros [= <-].
    cbn [e_state e_escaped]. split; [reflexivity|].
    rewrite app_nil_r, <- !app_assoc. reflexivity.
Qed.

Lemma escape_loop_valid (v : str) (e : escaper) (st' : state) :
  validate_loop (e_state e) v = Ret st' ->
  e_state (escape_loop e v) = st'
  /\ e_escaped (escape_loop e v) ++ pending (escape_loop e v)
     = (e_escaped e ++ pending e) ++ v.
Proof.
  revert e. induction v as [|c v IH]; intros e H.
  - injection H as <-. cbn. now rewrite app_nil_r.
  - cbn [validate_loop] in H. rewrite escape_loop_cons.
    destruct (validate_step (e_state e) c) as [st1| |] eqn:E; cbn [bind] in H;
      try discriminate.
    destruct (escape_step_valid _ _ _ E) as [E1 E2]. rewrite <- E1 in H.
    destruct (IH _ H) as [IH1 IH2]. split; [exact IH1|].
    rewrite IH2, E2, <- app_assoc. reflexivity.
Qed.

Lemma validate_attribute_value_true (v : str) :
  validate_attribute_value v = Ret true ->
  exists c v', v = c :: v' /\ Ascii.eqb c "#" = false /\ Ascii.eqb c " " = false
               /\ Ascii.eqb (last v " "%char) " " = false
               /\ validate_loop STATE_ANY v = Ret STATE_ANY.
Proof.
  destruct v as [|c v']; [discriminate|]. intros H. exists c, v'.
  split; [reflexivity|].
  destruct (Ascii.eqb_spec c "#") as [->|Hs].
  { destruct (validate_sharp_raises v') as [m E]. congruence. }
  revert H. unfold validate_attribute_value. cbn [truthy negb].
  rewrite getitem_head. cbn [bind].
  destruct (Ascii.eqb_spec c "#"); [contradiction|]. cbn [bind].
  destruct (Ascii.eqb c " "); [discriminate|].
  rewrite (getitem_last _ " "%char) by discriminate. cbn [bind].
  destruct (Ascii.eqb (last (c :: v') " "%char) " "); [discriminate|].
  destruct (validate_loop STATE_ANY (c :: v')) as [[]| |]; cbn [bind state_eqb negb];
    try discriminate.
  repeat split; reflexivity.
Qed.

(** Escaping a valid value leaves it as it is. *)
Lemma escape_valid_value (v : str) :
  validate_attribute_value v = Ret true -> escape_attribute_value v = Ret v.
Proof.
  intros H.
  destruct (validate_attribute_value_true v H) as (c & v' & -> & Hs & Hsp & Hl & Hv).
  unfold escape_attribute_value. cbn [truthy negb].
  rewrite getitem_head. cbn [bind]. rewrite Hs.
  destruct (escape_loop_valid (c :: v') escaper_init STATE_ANY Hv) as [E1 E2].
  assert (escape_final (escape_loop escaper_init (c :: v')) = c :: v') as ->.
  { unfold escape_final. unfold pending in E2. rewrite E1 in *.
    now rewrite app_nil_r in E2. }
  rewrite (escape_spaces_plain _ " "%char); cbn [hd].
  - now rewrite Hsp.
  - discriminate.
  - intros E. rewrite E in Hl. discriminate.
Qed.

Lemma valid_value_equals_escaped (v : str) :
  validate_attribute_value v = Ret true -> equals_escaped v.
Proof.
  intros H j Hj.
  destruct (validate_attribute_value_true v H) as (c & v' & -> & _ & _ & _ & Hv).
  destruct (validate_loop_equal_escaped _ _ _ Hv j Hj) as [[_ ?]|?];
    [discriminate|assumption].
Qed.

(** ** The split point of split_ava *)

Lemma rfind_at_hit (c : ascii) (s : str) (i : Z) :
  0 <= i -> rfind_at c s i <> -1 ->
  nth_error s (Z.to_nat (rfind_at c s i - i)) = Some c.
Proof.
  revert i. induction s as [|x s IH]; intros i Hi; cbn [rfind_at]; [congruence|].
  destruct (Z.eqb_spec (rfind_at c s (i + 1)) (-1)) as [E|E].
  - destruct (Ascii.eqb_spec x c) as [->|]; [|congruence].
    intros _. now rewrite Z.sub_diag.
  - intros _. destruct (rfind_at_bounds c s (i + 1)) as [?|Hb]; [lia|congruence|].
    replace (Z.to_nat (rfind_at c s (i + 1) - i))
      with (S (Z.to_nat (rfind_at c s (i + 1) - (i + 1)))) by lia.
    cbn [nth_error]. apply IH; [lia|assumption].
Qed.

Lemma rfind_at_ge (c : ascii) (s : str) (i : Z) (j : nat) :
  0 <= i -> nth_error s j = Some c -> i + Z.of_nat j <= rfind_at c s i.
Proof.
  revert i j. induction s as [|x s IH]; intros i j Hi Hj; [now destruct j|].
  cbn [rfind_at].
  destruct (rfind_at_bounds c s (i + 1)) as [E|Hb]; [lia| |].
  - rewrite E, Z.eqb_refl. destruct j as [|j]; cbn [nth_error] in Hj.
    + injection Hj as ->. rewrite Ascii.eqb_refl. lia.
    + specialize (IH (i + 1) j ltac:(lia) Hj). lia.
  - destruct (Z.eqb_spec (rfind_at c s (i + 1)) (-1)); [lia|].
    destruct j as [|j]; cbn [nth_error] in Hj; [lia|].
    specialize (IH (i + 1) j ltac:(lia) Hj). lia.
Qed.

Lemma slice_prefix (s : str) (hi : Z) :
  0 <= hi <= len s -> slice s 0 hi = firstn (Z.to_nat hi) s.
Proof.
  intros H. rewrite slice_inside by lia. cbn [Z.to_nat skipn].
  now rewrite Z.sub_0_r.
Qed.

(** [rfind] over a prefix answers [-1] or the index of an occurrence. *)
Lemma rfind_hit (s : str) (c : ascii) (hi : Z) :
  0 <= hi <= len s -> rfind s c 0 hi <> -1 ->
  0 <= rfind s c 0 hi < hi
  /\ nth_error s (Z.to_nat (rfind s c 0 hi)) = Some c.
Proof.
  intros Hhi Hr.
  destruct (rfind_bounds s c 0 hi) as [?|[Hb _]]; [lia|lia|congruence|].
  split; [exact Hb|]. revert Hr Hb. unfold rfind.
  rewrite !clamp_inside by lia. rewrite slice_prefix by lia. intros Hr Hb.
  pose proof (rfind_at_hit c _ 0 ltac:(lia) Hr) as Hn.
  rewrite Z.sub_0_r, nth_error_firstn in Hn.
  destruct (Nat.ltb_spec (Z.to_nat (rfind_at c (firstn (Z.to_nat hi) s) 0)) (Z.to_nat hi));
    [exact Hn|discriminate].
Qed.

(** [rfind] over a prefix does not miss an occurrence. *)
Lemma rfind_ge (s : str) (c : ascii) (hi : Z) (j : nat) :
  0 <= hi <= len s -> Z.of_nat j < hi -> nth_error s j = Some c ->
  Z.of_nat j <= rfind s c 0 hi.
Proof.
  intros Hhi Hj Hn. unfold rfind.
  rewrite !clamp_inside by lia. rewrite slice_prefix by lia.
  apply (rfind_at_ge c _ 0 j); [lia|].
  rewrite nth_error_firstn.
  destruct (Nat.ltb_spec j (Z.to_nat hi)); [exact Hn|lia].
Qed.

Lemma getitem_nth_error (s : str) (n : nat) (c : ascii) :
  nth_error s n = Some c -> getitem s (Z.of_nat n) = Ret c.
Proof.
  intros H. assert (n < List.length s)%nat by (apply nth_error_Some; congruence).
  rewrite (getitem_nonneg _ _ c) by (unfold len; lia).
  rewrite Nat2Z.id. now rewrite (nth_error_nth _ _ c H).
Qed.

(** The loop at an index that holds an ['=']. *)
Lemma split_ava_loop_at (fuel : nat) (T V : str) (escape strip_ : bool) :
  T <> [] ->
  split_ava_loop (S fuel) (T ++ "="%char :: V) escape strip_ (len T)
  = if Ascii.eqb (last T " "%char) BACKSLASH then
      split_ava_loop fuel (T ++ "="%char :: V) escape strip_
        (rfind (T ++ "="%char :: V) "="%char 0 (len T))
    else
      v <- split_value escape strip_ V ;;
      Ret (if strip_ then strip T else T, VStr v).
Proof.
  intros HT. pose proof (len_pos T HT) as Hl. cbn [split_ava_loop].
  destruct (Z.gtb_spec (len T) 0); [|lia].
  destruct (exists_last HT) as (T' & x & ->).
  assert (getitem ((T' ++ [x]) ++ "="%char :: V) (len (T' ++ [x]) - 1) = Ret x) as ->.
  { rewrite len_app. replace (len T' + len [x] - 1) with (Z.of_nat (List.length T'))
      by (unfold len; cbn [List.length]; lia).
    apply getitem_nth_error. rewrite <- !app_assoc. now rewrite nth_error_app2, Nat.sub_diag by lia. }
  cbn [bind]. rewrite last_last.
  destruct (Ascii.eqb x BACKSLASH); cbn [negb]; [reflexivity|].
  change (slice ((T' ++ [x]) ++ "="%char :: V) 0 (len (T' ++ [x])))
    with (slice_to ((T' ++ [x]) ++ "="%char :: V) (len (T' ++ [x]))).
  rewrite slice_to_app, slice_from_app1.
  unfold split_value. destruct strip_, escape; reflexivity.
Qed.

Lemma last_nth_error (s : str) (d : ascii) :
  s <> [] -> nth_error s (List.length s - 1) = Some (last s d).
Proof.
  intros H. destruct (exists_last H) as (s' & x & ->).
  rewrite last_last, length_app. cbn [List.length].
  replace (List.length s' + 1 - 1)%nat with (List.length s') by lia.
  now rewrite nth_error_app2, Nat.sub_diag by lia.
Qed.

(** The loop at an index [n] that holds an ['=']: it looks at the character
    before, and either goes on to the ['='] before or splits at [n]. *)
Lemma split_ava_loop_index (fuel n : nat) (ava : str) (escape strip_ : bool)
    (x : ascii) :
  nth_error ava (S n) = Some "="%char -> nth_error ava n = Some x ->
  split_ava_loop (S fuel) ava escape strip_ (Z.of_nat (S n))
  = if Ascii.eqb x BACKSLASH then
      split_ava_loop fuel ava escape strip_ (rfind ava "="%char 0 (Z.of_nat (S n)))
    else
      v <- split_value escape strip_ (skipn (S (S n)) ava) ;;
      Ret (if strip_ then strip (firstn (S n) ava) else firstn (S n) ava, VStr v).
Proof.
  intros He Hx. destruct (nth_error_split _ _ He) as (T & V & E & Hl).
  assert (T <> []) as HT by (intros ->; discriminate).
  assert (last T " "%char = x) as Hlast.
  { pose proof (last_nth_error T " "%char HT) as H. rewrite Hl in H.
    cbn [Nat.sub] in H. rewrite Nat.sub_0_r in H.
    rewrite E, nth_error_app1 in Hx by lia. congruence. }
  assert (Z.of_nat (S n) = len T) as -> by (unfold len; now rewrite Hl).
  rewrite E at 1 2. rewrite (split_ava_loop_at fuel T V escape strip_ HT), Hlast.
  rewrite <- E.
  assert (firstn (S n) ava = T) as ->
    by (rewrite E, <- Hl, firstn_app, Nat.sub_diag, firstn_all; cbn; apply app_nil_r).
  assert (skipn (S (S n)) ava = V) as ->.
  { rewrite E. change (T ++ "="%char :: V) with (T ++ ["="%char] ++ V).
    rewrite app_assoc. replace (S (S n)) with (List.length (T ++ ["="%char]))
      by (rewrite length_app; cbn [List.length]; lia).
    now rewrite skipn_app, Nat.sub_diag, skipn_all. }
  reflexivity.
Qed.

(** What a split at an ['='] returns, read backwards. *)
Lemma split_ava_loop_inv (ava : str) (escape : bool) (t v : str) (fuel : nat) :
  forall equal,
    equal = -1 \/ (0 <= equal /\ nth_error ava (Z.to_nat equal) = Some "="%char) ->
    split_ava_loop fuel ava escape true equal = Ret (t, VStr v) ->
    exists T V, ava = T ++ "="%char :: V /\ T <> [] /\ t = strip T
                /\ split_value escape true V = Ret v.
Proof.
  induction fuel as [|fuel IH]; intros equal Hhit; [discriminate|].
  destruct (Z.gtb_spec equal 0) as [Hpos|Hpos].
  2:{ cbn [split_ava_loop]. destruct (Z.gtb_spec equal 0); [lia|discriminate]. }
  destruct Hhit as [->|[_ He]]; [lia|].
  destruct (Z.to_nat equal) as [|n] eqn:En; [lia|].
  assert (equal = Z.of_nat (S n)) as -> by lia.
  assert (n < List.length ava)%nat as Hn
    by (apply Nat.lt_succ_l, nth_error_Some; congruence).
  destruct (nth_error ava n) as [x|] eqn:Hx; [|apply nth_error_None in Hx; lia].
  rewrite (split_ava_loop_index fuel n ava escape true x He Hx).
  destruct (Ascii.eqb x BACKSLASH).
  - apply IH.
    assert (0 <= Z.of_nat (S n) <= len ava) as Hr.
    { assert (S n < List.length ava)%nat by (apply nth_error_Some; congruence).
      unfold len. lia. }
    destruct (Z.eq_dec (rfind ava "="%char 0 (Z.of_nat (S n))) (-1)) as [E|E];
      [now left|right].
    destruct (rfind_hit ava "="%char _ Hr E) as [Hb Hh]. split; [lia|exact Hh].
  - destruct (split_value escape true _) as [v'| |] eqn:Ev; cbn [bind]; try discriminate.
    intros [= <- <-]. exists (firstn (S n) ava), (skipn (S (S n)) ava).
    repeat split; try assumption.
    + symmetry. now apply firstn_skipn_middle.
    + intros E. apply (f_equal (@List.length ascii)) in E.
      rewrite length_firstn in E. cbn [List.length] in E. lia.
Qed.

Lemma rfind0_hit (s : str) (c : ascii) :
  rfind0 s c = -1
  \/ (0 <= rfind0 s c < len s /\ nth_error s (Z.to_nat (rfind0 s c)) = Some c).
Proof.
  pose proof (len_nonneg s). unfold rfind0.
  destruct (Z.eq_dec (rfind s c 0 (len s)) (-1)) as [E|E]; [now left|right].
  now apply rfind_hit.
Qed.

Lemma split_ava_inv (ava : str) (escape : bool) (t v : str) :
  split_ava ava escape true = Ret (t, VStr v) ->
  exists T V, ava = T ++ "="%char :: V /\ T <> [] /\ t = strip T
              /\ split_value escape true V = Ret v.
Proof.
  unfold split_ava. apply split_ava_loop_inv.
  destruct (rfind0_hit ava "="%char) as [?|[? ?]]; [now left|right]. split; [lia|assumption].
Qed.

(** What a split returns when the ['='] after [T] is the last one that does
    not follow a backslash. *)
Lemma split_ava_loop_forward (T V : str) (escape strip_ : bool) :
  T <> [] -> Ascii.eqb (last T " "%char) BACKSLASH = false -> equals_escaped V ->
  forall fuel n,
    (List.length T <= n)%nat ->
    nth_error (T ++ "="%char :: V) n = Some "="%char ->
    (n - List.length T < fuel)%nat ->
    split_ava_loop fuel (T ++ "="%char :: V) escape strip_ (Z.of_nat n)
    = (v <- split_value escape strip_ V ;;
       Ret (if strip_ then strip T else T, VStr v)).
Proof.
  intros HT Hlast HV. induction fuel as [|fuel IH]; intros n Hn He Hf; [lia|].
  pose proof (len_pos T HT) as HlT. unfold len in HlT.
  destruct (Nat.eq_dec n (List.length T)) as [->|Hne].
  - replace (Z.of_nat (List.length T)) with (len T) by reflexivity.
    now rewrite split_ava_loop_at, Hlast.
  - destruct n as [|n]; [lia|].
    assert (nth_error (T ++ "="%char :: V) n = Some BACKSLASH) as Hx.
    { rewrite nth_error_app2 in He by lia.
      destruct (S n - List.length T)%nat as [|j] eqn:Ej; [lia|].
      cbn [nth_error] in He. destruct (HV j He) as (j' & -> & Hj').
      rewrite nth_error_app2 by lia.
      replace (n - List.length T)%nat with (S j') by lia. exact Hj'. }
    rewrite (split_ava_loop_index fuel n _ escape strip_ BACKSLASH He Hx).
    rewrite Ascii.eqb_refl.
    assert (S n < List.length (T ++ "="%char :: V))%nat as Hlen
      by (apply nth_error_Some; congruence).
    assert (0 <= Z.of_nat (S n) <= len (T ++ "="%char :: V)) as Hr
      by (unfold len; lia).
    assert (nth_error (T ++ "="%char :: V) (List.length T) = Some "="%char) as HeT
      by now rewrite nth_error_app2, Nat.sub_diag by lia.
    pose proof (rfind_ge _ "="%char _ (List.length T) Hr ltac:(lia) HeT) as Hge.
    destruct (rfind_hit _ "="%char _ Hr ltac:(lia)) as [Hb Hh].
    set (r := rfind (T ++ "="%char :: V) "="%char 0 (Z.of_nat (S n))) in *.
    replace r with (Z.of_nat (Z.to_nat r)) by lia.
    apply IH; [lia|exact Hh|lia].
Qed.

Lemma split_ava_forward (T V : str) (escape strip_ : bool) :
  T <> [] -> Ascii.eqb (last T " "%char) BACKSLASH = false -> equals_escaped V ->
  split_ava (T ++ "="%char :: V) escape strip_
  = (v <- split_value escape strip_ V ;;
     Ret (if strip_ then strip T else T, VStr v)).
Proof.
  intros HT Hlast HV. unfold split_ava.
  assert (nth_error (T ++ "="%char :: V) (List.length T) = Some "="%char) as HeT
    by now rewrite nth_error_app2, Nat.sub_diag by lia.
  assert (List.length T < List.length (T ++ "="%char :: V))%nat as Hlen
    by (apply nth_error_Some; congruence).
  pose proof (rfind_ge (T ++ "="%char :: V) "="%char (len (T ++ "="%char :: V))
                (List.length T) ltac:(unfold len; lia) ltac:(unfold len; lia) HeT) as Hge.
  destruct (rfind0_hit (T ++ "="%char :: V) "="%char) as [E|[Hb Hh]];
    [unfold rfind0 in E; lia|].
  unfold rfind0 in *.
  set (r := rfind (T ++ "="%char :: V) "="%char 0 (len (T ++ "="%char :: V))) in *.
  replace r with (Z.of_nat (Z.to_nat r)) by lia.
  apply split_ava_loop_forward; try assumption; unfold len in *; lia.
Qed.

(** ** safe_dn *)

Lemma render_from (rdns : list ava_triple) (acc : str) :
  fold_left (fun acc rdn => acc ++ render_ava rdn) rdns acc = acc ++ render rdns.
Proof.
  unfold render. revert acc. induction rdns as [|x rdns IH]; intros acc; cbn [fold_left].
  - now rewrite app_nil_r.
  - rewrite IH, (IH ([] ++ render_ava x)). cbn [app]. now rewrite app_assoc.
Qed.

Lemma render_cons (x : ava_triple) (rdns : list ava_triple) :
  render (x :: rdns) = render_ava x ++ render rdns.
Proof. unfold render at 1. cbn [fold_left app]. apply render_from. Qed.

Lemma render_ava_app (t v sep R : str) :
  render_ava (t, v, sep) ++ R = (t ++ "="%char :: v) ++ sep ++ R.
Proof. cbn [render_ava]. change (lit "=") with ["="%char]. now rewrite <- !app_assoc. Qed.

(** With escaping switched on, a DN that parses without it parses to the
    same triples. *)
Lemma split_ava_loop_escape (ava t v : str) (fuel : nat) :
  forall equal,
    split_ava_loop fuel ava false true equal = Ret (t, VStr v) ->
    validate_attribute_value v = Ret true ->
    split_ava_loop fuel ava true true equal = Ret (t, VStr v).
Proof.
  induction fuel as [|fuel IH]; intros equal; [discriminate|].
  cbn [split_ava_loop]. destruct (equal >? 0); [|discriminate].
  destruct (getitem ava (equal - 1)) as [c| |]; cbn [bind]; try discriminate.
  destruct (negb (Ascii.eqb c BACKSLASH)); [|apply IH].
  cbn [bind]. intros [= <- <-] Hv. now rewrite (escape_valid_value _ Hv).
Qed.

Lemma parsed_escape (dn : str) (rdns : list ava_triple) :
  parsed false true dn rdns -> parsed true true dn rdns.
Proof.
  induction 1 as [|dn ava sep rest t v rdns B Es Et Ev Hp IH]; [constructor|].
  econstructor; try eassumption. now apply split_ava_loop_escape.
Qed.

(** The AVA that was split, and the type and value it gave. *)
Lemma split_ava_shape (ava t v : str) :
  split_ava ava false true = Ret (t, VStr v) ->
  ava_shape ava t v /\ strip v = v.
Proof.
  intros H. destruct (split_ava_inv _ _ _ _ H) as (T & V & -> & _ & -> & Hv).
  cbn in Hv. injection Hv as <-. split; [|apply strip_idempotent].
  destruct (strip_decomp T) as (w1 & w2 & ET & H1 & H2).
  destruct (strip_decomp V) as (w3 & w4 & EV & H3 & H4).
  exists w1, w2, w3, w4. repeat split; try assumption.
  rewrite ET at 1. rewrite EV at 1. now rewrite <- !app_assoc.
Qed.

Lemma in_str_cons (c x : ascii) (s : str) :
  in_str c (x :: s) = Ascii.eqb c x || in_str c s.
Proof. reflexivity. Qed.

Lemma typed_absent (t : str) (c : ascii) :
  typed t -> in_str c type_chars = false -> in_str c t = false.
Proof. intros [_ Ht]. now apply type_absent. Qed.

Lemma shape_absent (ava t v : str) (c : ascii) :
  ava_shape ava t v -> in_str c ava = false -> in_str c v = false.
Proof.
  intros (w1 & w2 & w3 & w4 & -> & _) H.
  destruct (in_str c v) eqn:E; [|reflexivity].
  rewrite <- H. symmetry. apply in_str_In. apply in_str_In in E.
  apply in_or_app. right. apply in_or_app. right. apply in_or_app. right.
  right. apply in_or_app. right. apply in_or_app. now left.
Qed.

Lemma shape_first (ava t v : str) (c : ascii) (r : str) :
  ava_shape ava t v -> typed t -> ava = c :: r ->
  is_space c = true \/ in_str c type_chars = true.
Proof.
  intros (w1 & w2 & w3 & w4 & -> & H1 & _) [Hne Ht] E.
  destruct w1 as [|x w1]; cbn [app] in E.
  - destruct t as [|x t]; [congruence|]. injection E as -> _.
    right. apply Ht. now left.
  - injection E as -> _. left. apply H1. now left.
Qed.

Lemma shape_plus_splits (ava t v : str) :
  ava_shape ava t v -> typed t ->
  plus_splits (t ++ "="%char :: v) -> plus_splits ava.
Proof.
  intros (w1 & w2 & w3 & w4 & -> & H1 & H2 & H3 & H4) Ht (a & r & E & Ha & _ & Hr).
  assert (in_str "+"%char t = false) as Htp by now apply typed_absent.
  assert (in_str "+"%char v = true) as Hv.
  { apply (f_equal (in_str "+"%char)) in E.
    rewrite !in_str_app, !in_str_cons, Htp, Ascii.eqb_refl, orb_true_r in E.
    exact E. }
  destruct (in_str_split_first _ _ Hv) as (a' & r' & -> & Ha').
  assert (a = t ++ "="%char :: a' /\ r = r') as [-> ->].
  { apply (first_occurrence_unique "+"%char); [|assumption|].
    - rewrite <- E, <- app_assoc. reflexivity.
    - now rewrite in_str_app, in_str_cons, Htp, Ha'. }
  exists (w1 ++ t ++ w2 ++ "="%char :: w3 ++ a'), (r' ++ w4). repeat split.
  - rewrite <- !app_assoc. cbn [app]. now rewrite <- !app_assoc.
  - rewrite !in_str_app, in_str_cons, !in_str_app, Htp, Ha'.
    now rewrite !all_space_absent by (assumption || reflexivity).
  - intros E'. apply (f_equal (in_str "="%char)) in E'.
    rewrite !in_str_app, in_str_cons, Ascii.eqb_refl in E'. cbn [orb] in E'.
    rewrite !orb_true_r in E'. discriminate.
  - now rewrite in_str_app, Hr.
Qed.

(** The boundary found in the input is found again in the rendering. *)
Lemma boundary_transfer (dn ava sep rest t v R : str) :
  boundary dn ava sep rest -> ava_shape ava t v -> typed t ->
  (rest = [] -> R = []) ->
  (in_str ","%char rest = true ->
   exists r1 r2, R = r1 ++ ","%char :: r2 /\ in_str ","%char r1 = false
                 /\ in_str "="%char r1 = true) ->
  boundary ((t ++ "="%char :: v) ++ sep ++ R) (t ++ "="%char :: v) sep R.
Proof.
  intros B Hs Ht Hnil Hcomma.
  assert (forall c, in_str c type_chars = false -> Ascii.eqb c "=" = false ->
                    in_str c ava = false -> in_str c (t ++ "="%char :: v) = false)
    as Habs.
  { intros c Hc1 Hc2 Hc3. rewrite in_str_app, in_str_cons.
    now rewrite (typed_absent t c Ht Hc1), Hc2, (shape_absent _ _ _ _ Hs Hc3). }
  assert (t ++ "="%char :: v <> []) as Hne
    by (intros E; apply app_eq_nil in E as [_ E]; discriminate).
  inversion B as [a r1 r2 Ed Hp Hc Hane Hc1 He1|a r Ed Hc Hane Hns|Hl]; subst.
  - destruct Hcomma as (r1' & r2' & -> & Hr1 & Hr2).
    { now rewrite in_str_app, in_str_cons, Ascii.eqb_refl, orb_true_r. }
    change (lit "+" ++ r1' ++ ","%char :: r2') with ("+"%char :: r1' ++ ","%char :: r2').
    constructor; auto.
  - change (lit "," ++ R) with (","%char :: R).
    constructor; auto. intros Hps. apply Hns. eapply shape_plus_splits; eassumption.
  - rewrite (Hnil eq_refl). cbn [lit list_ascii_of_string app]. rewrite app_nil_r.
    constructor. left. destruct Hl as [Hl|[r ->]]; [auto|].
    destruct (shape_first _ _ _ _ _ Hs Ht eq_refl); discriminate.
Qed.

Lemma first_comma_after_equal (t y r1 r2 : str) :
  in_str ","%char t = false -> t ++ "="%char :: y = r1 ++ ","%char :: r2 ->
  in_str "="%char r1 = true.
Proof.
  revert r1. induction t as [|c t IH]; intros [|x r1] Ht E; cbn [app] in E.
  - discriminate.
  - injection E as <- _. reflexivity.
  - injection E as -> _. now rewrite in_str_cons, Ascii.eqb_refl in Ht.
  - injection E as _ E. rewrite in_str_cons in Ht. apply orb_false_iff in Ht as [_ Ht].
    rewrite in_str_cons, (IH _ Ht E). apply orb_true_r.
Qed.

Lemma parsed_typed (escape strip_ : bool) (dn t v sep : str)
    (rdns : list ava_triple) :
  parsed escape strip_ dn ((t, v, sep) :: rdns) -> typed t.
Proof.
  inversion 1; subst. now apply validate_attribute_type_true.
Qed.

Lemma parsed_keeps_comma (dn : str) (rdns : list ava_triple) :
  parsed false true dn rdns ->
  in_str ","%char dn = true -> in_str ","%char (render rdns) = true.
Proof.
  induction 1 as [|dn ava sep rest t v rdns B Es Et Ev Hp IH]; [discriminate|].
  intros Hc. rewrite render_cons, render_ava_app, !in_str_app.
  destruct (split_ava_shape _ _ _ Es) as [Hs _].
  apply validate_attribute_type_true in Et.
  inversion B as [a r1 r2 Ed _ _ _ _ _|a r Ed _ _ _|Hl]; subst.
  - rewrite IH; [now rewrite !orb_true_r|].
    now rewrite in_str_app, in_str_cons, Ascii.eqb_refl, orb_true_r.
  - change (in_str "," (lit ",")) with true. cbn [orb]. apply orb_true_r.
  - destruct Hl as [Hl|[r ->]]; [congruence|].
    destruct (shape_first _ _ _ _ _ Hs Et eq_refl); discriminate.
Qed.

Lemma typed_last_plain (t : str) :
  typed t -> Ascii.eqb (last t " "%char) BACKSLASH = false.
Proof.
  intros [Hne Ht]. destruct (exists_last Hne) as (t' & x & ->).
  rewrite last_last. apply type_char_plain, Ht, in_or_app. right. now left.
Qed.

(** The rendering of what [parse_dn] returned parses to the same triples,
    with or without escaping. *)
Lemma parsed_render (dn : str) (rdns : list ava_triple) :
  parsed false true dn rdns ->
  forall escape, parsed escape true (render rdns) rdns.
Proof.
  induction 1 as [|dn ava sep rest t v rdns B Es Et Ev Hp IH]; intros escape;
    [constructor|].
  destruct (split_ava_shape _ _ _ Es) as [Hs Hstrip].
  pose proof (validate_attribute_type_true _ Et) as Ht.
  rewrite render_cons, render_ava_app.
  apply parsed_cons with (ava := t ++ "="%char :: v) (rest := render rdns).
  - apply (boundary_transfer dn ava sep rest); try assumption.
    + intros ->. now rewrite (parsed_nil_inv _ _ _ Hp).
    + intros Hc. pose proof (parsed_keeps_comma _ _ Hp Hc) as Hr.
      destruct (in_str_split_first _ _ Hr) as (r1 & r2 & E & Hr1).
      exists r1, r2. repeat split; try assumption.
      destruct rdns as [|[[t2 v2] sep2] rdns]; [discriminate|].
      pose proof (parsed_typed _ _ _ _ _ _ _ Hp) as Ht2.
      rewrite render_cons, render_ava_app, <- app_assoc in E. cbn [app] in E.
      apply (first_comma_after_equal t2 (v2 ++ sep2 ++ render rdns) r1 r2);
        [|exact E].
      now apply typed_absent.
  - rewrite split_ava_forward.
    + rewrite (type_strip_fixed t) by apply Ht.
      unfold split_value. rewrite Hstrip.
      destruct escape; [rewrite (escape_valid_value _ Ev)|]; reflexivity.
    + apply Ht.
    + now apply typed_last_plain.
    + now apply valid_value_equals_escaped.
  - assumption.
  - assumption.
  - apply IH.
Qed.

(** C2. For a DN that [parse_dn] accepts, [safe_dn] returns a string that
    [parse_dn] accepts again (with the same triples), and on which [safe_dn]
    changes nothing. *)
Theorem safe_dn_round_trip (d : str) (rdns : list ava_triple) :
  parse_dn d false true = Ret rdns ->
  exists s, safe_dn d = Ret s
            /\ parse_dn s false true = Ret rdns
            /\ safe_dn s = Ret s.
Proof.
  intros H. apply parse_dn_parsed in H. exists (render rdns).
  pose proof (parsed_render _ _ H) as Hr. unfold safe_dn.
  rewrite (proj2 (parse_dn_parsed d true true rdns) (parsed_escape _ _ H)).
  rewrite (proj2 (parse_dn_parsed _ true true rdns) (Hr true)).
  rewrite (proj2 (parse_dn_parsed _ false true rdns) (Hr false)).
  repeat split; reflexivity.
Qed.

Lemma safe_dn_round_trip_witness :
  exists s, safe_dn (lit " cn = John Smith + ou=x , dc=example") = Ret s
            /\ parse_dn s false true
               = Ret [(lit "cn", lit "John Smith", lit "+");
                      (lit "ou", lit "x", lit ",");
                      (lit "dc", lit "example", lit "")]
            /\ safe_dn s = Ret s.
Proof.
  apply safe_dn_round_trip. vm_compute. reflexivity.
Defined.

(** * Further properties *)

(** ** What the validators accept *)

Lemma check_type_chars_all (s : str) :
  (forall c, In c s -> in_str c type_chars = true) -> check_type_chars s = Ret tt.
Proof.
  induction s as [|x s IH]; intros H; [reflexivity|]. cbn [check_type_chars].
  rewrite (H x) by now left. cbn [negb]. apply IH. intros c Hc. apply H. now right.
Qed.

(** X1. [validate_attribute_type] returns [True] exactly on the non-empty
    strings of letters, digits and hyphens whose first character is neither
    a digit nor a hyphen. *)
Theorem validate_attribute_type_accepts_iff (t : str) :
  validate_attribute_type t = Ret true
  <-> t <> []
      /\ (forall c, In c t -> in_str c type_chars = true)
      /\ in_str (hd " "%char t) (lit "0123456789-") = false.
Proof.
  split.
  - intros H. destruct (validate_attribute_type_true t H) as [Hne Hall].
    repeat split; try assumption.
    destruct t as [|c t]; [congruence|]. cbn [hd].
    revert H. unfold validate_attribute_type. cbn [truthy negb].
    rewrite check_type_chars_all by assumption. cbn [bind].
    rewrite getitem_head. cbn [bind].
    destruct (in_str c (lit "0123456789-")); [discriminate|reflexivity].
  - intros (Hne & Hall & Hfirst). destruct t as [|c t]; [congruence|].
    cbn [hd] in Hfirst. unfold validate_attribute_type. cbn [truthy negb].
    rewrite check_type_chars_all by assumption. cbn [bind].
    rewrite getitem_head. cbn [bind]. now rewrite Hfirst.
Qed.

Lemma validate_step_special (st st' : state) (c : ascii) :
  in_str c special_chars = true -> validate_step st c = Ret st' ->
  st = STATE_ESCAPE.
Proof.
  intros Hc. destruct (special_escapable c Hc) as [_ Hh].
  destruct st; cbn [validate_step]; [|reflexivity|now rewrite Hh].
  rewrite Hc. destruct (Ascii.eqb_spec c BACKSLASH); [subst; discriminate|discriminate].
Qed.

Lemma validate_loop_special_escaped (v : str) (st st' : state) :
  validate_loop st v = Ret st' ->
  forall j c, nth_error v j = Some c -> in_str c special_chars = true ->
    (j = 0%nat /\ st = STATE_ESCAPE)
    \/ exists j', j = S j' /\ nth_error v j' = Some BACKSLASH.
Proof.
  revert st. induction v as [|x v IH]; intros st H j c Hj Hc; [now destruct j|].
  cbn [validate_loop] in H.
  destruct (validate_step st x) as [st1| |] eqn:E; cbn [bind] in H; try discriminate.
  destruct j as [|j]; cbn [nth_error] in Hj.
  - injection Hj as ->. left. split; [reflexivity|].
    eapply validate_step_special; eassumption.
  - right. exists j. split; [reflexivity|].
    destruct (IH _ H _ _ Hj Hc) as [[-> ->]|(j' & -> & Hj')]; [|exact Hj'].
    apply validate_step_to_escape in E as [_ ->]. reflexivity.
Qed.

(** X2. In a value that [validate_attribute_value] accepts, every double
    quote, [#], [+], [,], [;], [<], [=], [>] and NUL directly follows a
    backslash. *)
Theorem valid_value_specials_follow_backslash (v : str) (j : nat) (c : ascii) :
  validate_attribute_value v = Ret true ->
  nth_error v j = Some c -> in_str c special_chars = true ->
  exists j', j = S j' /\ nth_error v j' = Some BACKSLASH.
Proof.
  intros H Hj Hc.
  destruct (validate_attribute_value_true v H) as (c0 & v' & -> & _ & _ & _ & Hv).
  destruct (validate_loop_special_escaped _ _ _ Hv j c Hj Hc) as [[_ ?]|?];
    [discriminate|assumption].
Qed.

Lemma valid_value_specials_follow_backslash_witness :
  exists j', 2%nat = S j' /\ nth_error (lit "a\,b") j' = Some BACKSLASH.
Proof.
  apply (valid_value_specials_follow_backslash (lit "a\,b") 2 ","%char);
    reflexivity.
Defined.

Lemma validate_loop_plain (v : str) :
  in_str BACKSLASH v = false ->
  (forall c, In c v -> in_str c special_chars = false) ->
  validate_loop STATE_ANY v = Ret STATE_ANY.
Proof.
  induction v as [|x v IH]; intros Hb Hs; [reflexivity|].
  rewrite in_str_cons in Hb. apply orb_false_iff in Hb as [Hb1 Hb2].
  cbn [validate_loop]. rewrite vstep_any_plain.
  - cbn [bind]. apply IH; [assumption|]. intros c Hc. apply Hs. now right.
  - now rewrite Ascii.eqb_sym.
  - apply Hs. now left.
Qed.

(** X3. A non-empty value without backslash and without any of the
    characters that must be escaped, which neither starts nor ends with a
    SPACE, is accepted by [validate_attribute_value] and returned unchanged
    by [escape_attribute_value]. *)
Theorem plain_value_valid_and_unchanged (v : str) :
  v <> [] ->
  in_str BACKSLASH v = false ->
  (forall c, In c v -> in_str c special_chars = false) ->
  hd " "%char v <> " "%char -> last v " "%char <> " "%char ->
  validate_attribute_value v = Ret true /\ escape_attribute_value v = Ret v.
Proof.
  intros Hne Hb Hs Hh Hl.
  assert (validate_attribute_value v = Ret true) as Hv.
  { apply (validate_attribute_value_accepts v " "%char); try assumption.
    - now destruct (Ascii.eqb_spec (hd " "%char v) " ").
    - now destruct (Ascii.eqb_spec (last v " "%char) " ").
    - now apply validate_loop_plain. }
  split; [exact Hv|now apply escape_valid_value].
Qed.

Lemma plain_value_valid_and_unchanged_witness :
  validate_attribute_value (lit "John Smith") = Ret true
  /\ escape_attribute_value (lit "John Smith") = Ret (lit "John Smith").
Proof.
  apply plain_value_valid_and_unchanged.
  - discriminate.
  - reflexivity.
  - intros c Hc. cbn in Hc.
    repeat (destruct Hc as [<-|Hc]; [reflexivity|]). destruct Hc.
  - discriminate.
  - discriminate.
Defined.

(** ** What the escaper returns *)

(** X4. A value that [validate_attribute_value] accepts is returned
    unchanged by [escape_attribute_value]. *)
Theorem escape_returns_valid_value_unchanged (v : str) :
  validate_attribute_value v = Ret true -> escape_attribute_value v = Ret v.
Proof. exact (escape_valid_value v). Qed.

Lemma escape_returns_valid_value_unchanged_witness :
  escape_attribute_value (lit "a\,b\2c") = Ret (lit "a\,b\2c").
Proof. apply escape_returns_valid_value_unchanged. reflexivity. Defined.

Lemma slice_to_drop_last (y : str) (l : ascii) : slice_to (y ++ [l]) (-1) = y.
Proof.
  unfold slice_to, slice, clamp. rewrite len_app. pose proof (len_nonneg y).
  change (len [l]) with 1. destruct (Z.ltb_spec (-1) 0); [|lia].
  destruct (Z.ltb_spec 0 0); [lia|].
  rewrite Z.min_l, Z.max_r by lia. cbn [Z.to_nat skipn].
  replace (Z.to_nat (-1 + (len y + 1) - 0)) with (List.length y) by (unfold len; lia).
  now rewrite firstn_app, Nat.sub_diag, firstn_all, app_nil_r.
Qed.

Lemma getitem_penultimate (x : str) (p l : ascii) :
  getitem (x ++ [p; l]) (-2) = Ret p.
Proof.
  rewrite (getitem_neg _ _ p).
  - rewrite len_app. change (len [p; l]) with 2.
    replace (Z.to_nat (-2 + (len x + 2))) with (List.length x) by (unfold len; lia).
    now rewrite nth_middle.
  - rewrite len_app. change (len [p; l]) with 2. pose proof (len_nonneg x). lia.
Qed.

(** What the last two statements of the escaper do to a non-empty buffer:
    a backslash goes before a leading SPACE, and before a trailing SPACE
    that does not follow a backslash already. *)
Lemma escape_spaces_cases (E : str) :
  E <> [] ->
  escape_spaces E
  = Ret (if Ascii.eqb (hd " "%char E) " " then BACKSLASH :: E else E)
  \/ exists x p,
      (if Ascii.eqb (hd " "%char E) " " then BACKSLASH :: E else E)
      = x ++ [p; " "%char]
      /\ p <> BACKSLASH
      /\ escape_spaces E = Ret (x ++ [p; BACKSLASH; " "%char]).
Proof.
  intros HE. destruct E as [|c0 E]; [congruence|]. cbn [hd].
  unfold escape_spaces. rewrite getitem_head. cbn [bind].
  set (E' := if Ascii.eqb c0 " " then BACKSLASH :: c0 :: E else c0 :: E).
  assert (E' <> []) as Hne by (subst E'; destruct (Ascii.eqb c0 " "); discriminate).
  rewrite (getitem_last _ " "%char Hne). cbn [bind].
  destruct (Ascii.eqb_spec (last E' " "%char) " ") as [Hl|Hl]; cbn [andb bind];
    [|now left].
  destruct (Z.gtb_spec (len E') 1) as [Hlen|Hlen]; cbn [bind]; [|now left].
  destruct (exists_last Hne) as (y & l & Ey).
  rewrite Ey in Hl, Hlen |- *. rewrite last_last in Hl. subst l.
  assert (y <> []) as Hy.
  { intros ->. cbn in Hlen. unfold len in Hlen. cbn in Hlen. lia. }
  destruct (exists_last Hy) as (x & p & ->).
  rewrite <- app_assoc. cbn [app]. rewrite getitem_penultimate. cbn [bind].
  destruct (Ascii.eqb_spec p BACKSLASH) as [->|Hp]; cbn [negb]; [now left|].
  right. exists x, p. repeat split; try assumption.
  change (x ++ [p; " "%char]) with (x ++ [p] ++ [" "%char]).
  rewrite app_assoc, slice_to_drop_last, <- app_assoc. reflexivity.
Qed.

(** X5. What [escape_attribute_value] returns never starts with a SPACE. *)
Theorem escape_never_starts_with_space (v w : str) :
  escape_attribute_value v = Ret w -> hd "x"%char w <> " "%char.
Proof.
  destruct v as [|c v]; [intros [= <-]; discriminate|].
  unfold escape_attribute_value. cbn [truthy negb]. rewrite getitem_head.
  cbn [bind]. cbv zeta.
  destruct (Ascii.eqb_spec c "#") as [->|Hc].
  - match goal with |- context [if ?b then Ret _ else _] => destruct b end.
    + intros [= <-]. discriminate.
    + pose proof (escaped_nonempty ("#"%char :: v) ltac:(discriminate)) as HE.
      destruct (escape_spaces_cases _ HE) as [->|(x & p & E & _ & ->)].
      * intros [= <-]. destruct (escape_final _) as [|e0 E']; [congruence|].
        cbn [hd]. destruct (Ascii.eqb_spec e0 " "); [discriminate|assumption].
      * intros [= <-]. destruct (escape_final _) as [|e0 E']; [congruence|].
        cbn [hd] in E. destruct (Ascii.eqb_spec e0 " ").
        -- destruct x; injection E as <- _; discriminate.
        -- destruct x; injection E as <- _; assumption.
  - pose proof (escaped_nonempty (c :: v) ltac:(discriminate)) as HE.
    destruct (escape_spaces_cases _ HE) as [->|(x & p & E & _ & ->)].
    + intros [= <-]. destruct (escape_final _) as [|e0 E']; [congruence|].
      cbn [hd]. destruct (Ascii.eqb_spec e0 " "); [discriminate|assumption].
    + intros [= <-]. destruct (escape_final _) as [|e0 E']; [congruence|].
      cbn [hd] in E. destruct (Ascii.eqb_spec e0 " ").
      * destruct x; injection E as <- _; discriminate.
      * destruct x; injection E as <- _; assumption.
Qed.

Lemma escape_never_starts_with_space_witness :
  hd "x"%char (lit "\ lead") <> " "%char.
Proof.
  apply (escape_never_starts_with_space (lit " lead")). reflexivity.
Defined.

Lemma without_backslashes_app (a b : str) :
  without_backslashes (a ++ b) = without_backslashes a ++ without_backslashes b.
Proof. apply filter_app. Qed.

Lemma without_backslashes_cons (c : ascii) (s : str) :
  without_backslashes (c :: s)
  = (if Ascii.eqb c BACKSLASH then [] else [c]) ++ without_backslashes s.
Proof. unfold without_backslashes. cbn [filter]. now destruct (Ascii.eqb c BACKSLASH). Qed.

Lemma without_backslashes_nil : without_backslashes [] = [].
Proof. reflexivity. Qed.

Ltac text_norm :=
  repeat (rewrite ?without_backslashes_app, ?without_backslashes_cons,
            ?without_backslashes_nil, ?Ascii.eqb_refl, ?app_nil_r;
          cbn [app]);
  rewrite <- ?app_assoc.

Lemma escape_step_keeps_text (e : escaper) (c : ascii) :
  without_backslashes (e_escaped (escape_step e c) ++ pending (escape_step e c))
  = without_backslashes (e_escaped e ++ pending e) ++ without_backslashes [c].
Proof.
  destruct e as [st escaped buffer]. unfold escape_step, pending.
  destruct st; cbn [e_state e_escaped e_buffer].
  - destruct (Ascii.eqb_spec c BACKSLASH) as [->|Hc].
    + cbn [e_state e_escaped]. text_norm. reflexivity.
    + destruct (in_str c special_chars); cbn [e_state e_escaped]; text_norm;
        reflexivity.
  - destruct (in_str c hexdigits); [|destruct (in_str c escapable_chars)];
      cbn [e_state e_escaped e_buffer]; text_norm; reflexivity.
  - destruct (in_str c hexdigits); cbn [e_state e_escaped]; text_norm; reflexivity.
Qed.

Lemma escape_loop_keeps_text (v : str) (e : escaper) :
  without_backslashes (e_escaped (escape_loop e v) ++ pending (escape_loop e v))
  = without_backslashes (e_escaped e ++ pending e) ++ without_backslashes v.
Proof.
  revert e. induction v as [|c v IH]; intros e.
  - cbn [escape_loop fold_left]. now rewrite app_nil_r.
  - rewrite escape_loop_cons, IH, escape_step_keeps_text, <- app_assoc.
    f_equal. symmetry. apply (without_backslashes_app [c] v).
Qed.

Lemma escape_final_keeps_text (e : escaper) :
  without_backslashes (escape_final e)
  = without_backslashes (e_escaped e ++ pending e).
Proof.
  unfold escape_final, pending. destruct (e_state e); text_norm; reflexivity.
Qed.

Lemma escape_spaces_keeps_text (E w : str) :
  E <> [] -> escape_spaces E = Ret w ->
  without_backslashes w = without_backslashes E.
Proof.
  intros HE. destruct (escape_spaces_cases E HE) as [->|(x & p & Ex & _ & ->)];
    intros [= <-].
  - destruct (Ascii.eqb (hd " "%char E) " "); text_norm; reflexivity.
  - transitivity (without_backslashes (x ++ [p; " "%char])).
    + text_norm. reflexivity.
    + rewrite <- Ex. destruct (Ascii.eqb (hd " "%char E) " "); text_norm; reflexivity.
Qed.

Lemma escape_keeps_text (v w : str) :
  escape_attribute_value v = Ret w ->
  without_backslashes w = without_backslashes v.
Proof.
  destruct v as [|c v]; [now intros [= <-]|].
  unfold escape_attribute_value. cbn [truthy negb]. rewrite getitem_head.
  cbn [bind]. cbv zeta.
  match goal with |- context [if ?b then Ret _ else _] => destruct b end;
    [now intros [= <-]|].
  intros H.
  rewrite (escape_spaces_keeps_text _ _ (escaped_nonempty (c :: v) ltac:(discriminate)) H).
  now rewrite escape_final_keeps_text, escape_loop_keeps_text.
Qed.

(** X6. [escape_attribute_value] adds or removes nothing but backslashes:
    its result and its argument are the same string once the backslashes
    are taken out. *)
Theorem escape_changes_backslashes_only (v w : str) :
  escape_attribute_value v = Ret w ->
  without_backslashes w = without_backslashes v.
Proof. exact (escape_keeps_text v w). Qed.

Lemma escape_changes_backslashes_only_witness :
  without_backslashes (lit "\ a\,b\\z\\") = without_backslashes (lit " a,b\z\").
Proof.
  apply escape_changes_backslashes_only. reflexivity.
Defined.

Lemma scan_hex_valid_true (s : str) : scan_hex_valid s = true.
Proof.
  induction s as [|c s IH]; [reflexivity|]. cbn [scan_hex_valid].
  change (in_str "c"%char hexdigits) with true. exact IH.
Qed.

(** X7. A string that starts with [#] and has an odd length is returned
    unchanged by [escape_attribute_value], whatever its other characters:
    the loop that looks for a character outside the hex digits tests the
    constant ['c'] and never finds one. *)
Theorem escape_sharp_odd_unchanged (s : str) :
  len ("#"%char :: s) mod 2 = 1 ->
  escape_attribute_value ("#"%char :: s) = Ret ("#"%char :: s).
Proof.
  intros H. unfold escape_attribute_value. cbn [truthy negb].
  rewrite getitem_head. cbn [bind]. cbv zeta.
  change (Ascii.eqb "#" "#") with true. cbv iota.
  destruct (Z.eqb_spec (len ("#"%char :: s) mod 2) 0) as [E|_]; [lia|].
  now rewrite scan_hex_valid_true.
Qed.

Lemma escape_sharp_odd_unchanged_witness :
  escape_attribute_value (lit "#z,") = Ret (lit "#z,").
Proof. apply (escape_sharp_odd_unchanged (lit "z,")). reflexivity. Defined.

Lemma escape_loop_without_backslash (v escaped buffer : str) :
  in_str BACKSLASH v = false ->
  escape_loop (mkEscaper STATE_ANY escaped buffer) v
  = mkEscaper STATE_ANY (escaped ++ escape_specials v) buffer.
Proof.
  revert escaped. induction v as [|c v IH]; intros escaped Hb.
  - cbn. now rewrite app_nil_r.
  - rewrite in_str_cons in Hb. apply orb_false_iff in Hb as [Hc Hb].
    rewrite escape_loop_cons. cbn [escape_step].
    rewrite Ascii.eqb_sym, Hc. unfold escape_specials. cbn [flat_map].
    fold (escape_specials v).
    destruct (in_str c special_chars); rewrite IH by assumption;
      now rewrite <- app_assoc.
Qed.

Lemma escape_specials_ends (v : str) (d : ascii) :
  v <> [] ->
  (hd d (escape_specials v) = hd d v \/ hd d (escape_specials v) = BACKSLASH)
  /\ last (escape_specials v) d = last v d
  /\ escape_specials v <> [].
Proof.
  intros Hv. repeat split.
  - destruct v as [|c v]; [congruence|]. unfold escape_specials. cbn [flat_map hd].
    destruct (in_str c special_chars); [now right|now left].
  - destruct (exists_last Hv) as (v' & c & ->). unfold escape_specials.
    rewrite flat_map_app, last_last. cbn [flat_map].
    destruct (in_str c special_chars); rewrite app_nil_r, last_app_ne by discriminate;
      reflexivity.
  - destruct v as [|c v]; [congruence|]. unfold escape_specials. cbn [flat_map].
    destruct (in_str c special_chars); discriminate.
Qed.

(** X8. On a non-empty value without backslash that neither starts nor ends
    with a SPACE, and is not a [#]-led string of odd length,
    [escape_attribute_value] returns the value with one backslash before
    each double quote, [#], [+], [,], [;], [<], [=], [>] and NUL. *)
Theorem escape_without_backslash (v : str) :
  v <> [] ->
  in_str BACKSLASH v = false ->
  hd " "%char v <> " "%char -> last v " "%char <> " "%char ->
  (forall t, v = "#"%char :: t -> len v mod 2 = 0) ->
  escape_attribute_value v = Ret (escape_specials v).
Proof.
  intros Hne Hb Hh Hl Hsharp. destruct v as [|c v']; [congruence|].
  unfold escape_attribute_value. cbn [truthy negb].
  rewrite getitem_head. cbn [bind]. cbv zeta.
  match goal with
  | |- context [if ?b then Ret (c :: v') else _] => assert (b = false) as ->
  end.
  { destruct (Ascii.eqb_spec c "#"); [|reflexivity]. subst c.
    now rewrite (Hsharp v' eq_refl). }
  unfold escaper_init. rewrite escape_loop_without_backslash by assumption.
  cbn [escape_final e_state e_escaped app].
  destruct (escape_specials_ends (c :: v') " "%char Hne) as (Hhd & Hlast & Hnn).
  rewrite (escape_spaces_plain _ " "%char Hnn) by now rewrite Hlast.
  destruct (Ascii.eqb_spec (hd " "%char (escape_specials (c :: v'))) " ") as [E|_];
    [|reflexivity].
  destruct Hhd as [E'|E']; rewrite E' in E; [contradiction|discriminate].
Qed.

Lemma escape_without_backslash_witness :
  escape_attribute_value (lit "a,b=c") = Ret (lit "a\,b\=c").
Proof.
  apply (escape_without_backslash (lit "a,b=c")); try discriminate; reflexivity.
Defined.

(** ** Boundaries and split points *)

Lemma boundary_concat (dn ava sep rest : str) :
  boundary dn ava sep rest -> dn = ava ++ sep ++ rest.
Proof.
  intros [a r1 r2 -> _ _ _ _ _|a r -> _ _ _|_]; try reflexivity.
  cbn. now rewrite app_nil_r.
Qed.

(** X9. [get_next_ava] cuts its argument without losing anything: the
    argument is the AVA, the separator and what [parse_dn] goes on with; the
    separator is ["+"], [","] or [""]; and the AVA is empty exactly when the
    argument is. *)
Theorem get_next_ava_cuts (dn : str) :
  dn = fst (get_next_ava dn) ++ snd (get_next_ava dn)
       ++ slice_from dn (len (fst (get_next_ava dn)) + 1)
  /\ (snd (get_next_ava dn) = lit "+" \/ snd (get_next_ava dn) = lit ","
      \/ snd (get_next_ava dn) = lit "")
  /\ (fst (get_next_ava dn) = [] <-> dn = []).
Proof.
  destruct (get_next_ava_boundary dn) as (ava & sep & rest & -> & B).
  cbn [fst snd]. rewrite (boundary_remainder _ _ _ _ B).
  split; [now apply boundary_concat|]. split.
  - destruct B; auto.
  - split.
    + intros ->. now apply boundary_ava_nil in B.
    + intros ->. inversion B as [a r1 r2 E|a r E|]; subst; try reflexivity;
        symmetry in E; apply app_eq_nil in E as [-> _]; reflexivity.
Qed.

(** What the loop of [split_ava] returns, read backwards, with and without
    [strip]. *)
Lemma split_ava_loop_inv_any (ava : str) (escape strip_ : bool) (t : str)
    (val : pyval) (fuel : nat) :
  forall equal,
    equal = -1 \/ (0 <= equal /\ nth_error ava (Z.to_nat equal) = Some "="%char) ->
    split_ava_loop fuel ava escape strip_ equal = Ret (t, val) ->
    (t = [] /\ val = if strip_ then VBoundStrip ava else VStr ava)
    \/ exists T V v,
        ava = T ++ "="%char :: V /\ T <> []
        /\ Ascii.eqb (last T " "%char) BACKSLASH = false
        /\ t = (if strip_ then strip T else T)
        /\ split_value escape strip_ V = Ret v /\ val = VStr v.
Proof.
  induction fuel as [|fuel IH]; intros equal Hhit; [discriminate|].
  destruct (Z.gtb_spec equal 0) as [Hpos|Hpos].
  2:{ cbn [split_ava_loop]. destruct (Z.gtb_spec equal 0); [lia|].
      intros [= <- <-]. now left. }
  destruct Hhit as [->|[_ He]]; [lia|].
  destruct (nth_error_split _ _ He) as (T & V & E & Hl).
  assert (equal = len T) as -> by (unfold len; lia).
  assert (T <> []) as HT by (intros ->; cbn in Hl; lia).
  rewrite E at 1. rewrite split_ava_loop_at by assumption. rewrite <- E.
  destruct (Ascii.eqb (last T " "%char) BACKSLASH) eqn:Hlast.
  - apply IH.
    assert (0 <= len T <= len ava) as Hr.
    { rewrite E, len_app. pose proof (len_nonneg T).
      pose proof (len_nonneg ("="%char :: V)). lia. }
    destruct (Z.eq_dec (rfind ava "="%char 0 (len T)) (-1)) as [En|En];
      [now left|right].
    destruct (rfind_hit ava "="%char _ Hr En) as [Hb Hh]. split; [lia|exact Hh].
  - destruct (split_value escape strip_ V) as [v| |] eqn:Ev; cbn [bind];
      try discriminate.
    intros [= <- <-]. right. exists T, V, v. repeat split; assumption.
Qed.

Lemma split_ava_inv_any (ava : str) (escape strip_ : bool) (t : str) (val : pyval) :
  split_ava ava escape strip_ = Ret (t, val) ->
  (t = [] /\ val = if strip_ then VBoundStrip ava else VStr ava)
  \/ exists T V v,
      ava = T ++ "="%char :: V /\ T <> []
      /\ Ascii.eqb (last T " "%char) BACKSLASH = false
      /\ t = (if strip_ then strip T else T)
      /\ split_value escape strip_ V = Ret v /\ val = VStr v.
Proof.
  unfold split_ava. apply split_ava_loop_inv_any.
  destruct (rfind0_hit ava "="%char) as [?|[? ?]]; [now left|right].
  split; [lia|assumption].
Qed.

Lemma split_value_returns (escape strip_ : bool) (V : str) :
  exists v, split_value escape strip_ V = Ret v.
Proof.
  unfold split_value. destruct strip_, escape; eauto using escape_attribute_value_total.
Qed.

Lemma split_ava_loop_returns (ava : str) (escape strip_ : bool) (fuel : nat) :
  forall equal,
    equal = -1 \/ (0 <= equal /\ nth_error ava (Z.to_nat equal) = Some "="%char) ->
    Z.max 0 equal < Z.of_nat fuel ->
    exists t val, split_ava_loop fuel ava escape strip_ equal = Ret (t, val).
Proof.
  induction fuel as [|fuel IH]; intros equal Hhit Hf; [lia|].
  destruct (Z.gtb_spec equal 0) as [Hpos|Hpos].
  2:{ cbn [split_ava_loop]. destruct (Z.gtb_spec equal 0); [lia|]. eauto. }
  destruct Hhit as [->|[_ He]]; [lia|].
  destruct (nth_error_split _ _ He) as (T & V & E & Hl).
  assert (equal = len T) as Eq by (unfold len; lia). rewrite Eq in *.
  assert (T <> []) as HT by (intros ->; cbn in Hl; lia).
  pose proof (split_ava_loop_at fuel T V escape strip_ HT) as Hstep.
  rewrite <- E in Hstep. rewrite Hstep. clear Hstep.
  destruct (Ascii.eqb (last T " "%char) BACKSLASH).
  - assert (0 <= len T <= len ava) as Hr.
    { rewrite E, len_app. pose proof (len_nonneg T).
      pose proof (len_nonneg ("="%char :: V)). lia. }
    destruct (rfind_bounds ava "="%char 0 (len T)) as [En|[Hb _]]; [lia|lia| |].
    + apply IH; [now left|lia].
    + apply IH; [right|lia].
      destruct (rfind_hit ava "="%char _ Hr ltac:(lia)) as [_ Hh].
      split; [lia|exact Hh].
  - destruct (split_value_returns escape strip_ V) as [v ->]. cbn [bind]. eauto.
Qed.

Lemma split_ava_returns (ava : str) (escape strip_ : bool) :
  exists t val,
    split_ava ava escape strip_ = Ret (t, val)
    /\ (forall self, val = VBoundStrip self -> t = [] /\ strip_ = true).
Proof.
  destruct (split_ava_loop_returns ava escape strip_ (S (List.length ava))
              (rfind0 ava "="%char)) as (t & val & E).
  - destruct (rfind0_hit ava "="%char) as [?|[? ?]]; [now left|right].
    split; [lia|assumption].
  - pose proof (rfind0_bounds ava "="%char). unfold len in *. lia.
  - exists t, val. split; [exact E|]. intros self ->.
    destruct (split_ava_inv_any _ _ _ _ _ E) as [[-> Hv]|(T & V & v & _ & _ & _ & _ & _ & Hv)];
      [|discriminate].
    split; [reflexivity|]. now destruct strip_.
Qed.

(** X10. [split_ava] never raises: the character it reads before an ['=']
    is always there, and the escaper it may call never fails.  It returns
    the bound method instead of a string only together with the empty
    type. *)
Theorem split_ava_never_raises (ava : str) (escape strip_ : bool) :
  exists t val,
    split_ava ava escape strip_ = Ret (t, val)
    /\ (forall self, val = VBoundStrip self -> t = [] /\ strip_ = true).
Proof. exact (split_ava_returns ava escape strip_). Qed.

Lemma split_ava_never_raises_witness :
  exists t val,
    split_ava (lit "abc") false true = Ret (t, val)
    /\ (forall self, val = VBoundStrip self -> t = [] /\ true = true).
Proof. exact (split_ava_never_raises (lit "abc") false true). Defined.

(** X11. [split_ava] splits at the last ['='] that is not the first
    character and does not follow a backslash: the type is what is before
    it and the value what is after it, both stripped when [strip] is set. *)
Theorem split_ava_at_last_plain_equal (T V : str) (strip_ : bool) :
  T <> [] -> last T " "%char <> BACKSLASH -> equals_escaped V ->
  split_ava (T ++ "="%char :: V) false strip_
  = Ret (if strip_ then strip T else T, VStr (if strip_ then strip V else V)).
Proof.
  intros HT Hl HV. rewrite split_ava_forward; try assumption.
  - unfold split_value. now destruct strip_.
  - now destruct (Ascii.eqb_spec (last T " "%char) BACKSLASH).
Qed.

Lemma split_ava_at_last_plain_equal_witness :
  split_ava (lit "cn = a\=b ") false true = Ret (lit "cn", VStr (lit "a\=b")).
Proof.
  apply (split_ava_at_last_plain_equal (lit "cn ") (lit " a\=b ") true).
  - discriminate.
  - discriminate.
  - intros j Hj.
    do 6 (destruct j as [|j]; [try discriminate; eexists; split; reflexivity|]).
    destruct j; discriminate.
Defined.

(** X12. Without [strip] and without [escape], the type and the value that
    [split_ava] returns are the two sides of an ['='] of the AVA; when the
    type is empty the value is the whole AVA. *)
Theorem split_ava_verbatim (ava t v : str) :
  split_ava ava false false = Ret (t, VStr v) ->
  (t = [] /\ v = ava) \/ (t <> [] /\ ava = t ++ "="%char :: v).
Proof.
  intros H.
  destruct (split_ava_inv_any _ _ _ _ _ H)
    as [[-> [= ->]]|(T & V & v' & -> & HT & _ & -> & Hv & [= ->])]; [now left|].
  right. cbn in Hv. injection Hv as <-. now split.
Qed.

Lemma split_ava_verbatim_witness :
  (lit "cn" = [] /\ lit " a" = lit "cn= a")
  \/ (lit "cn" <> [] /\ lit "cn= a" = lit "cn" ++ "="%char :: lit " a").
Proof. apply split_ava_verbatim. reflexivity. Defined.

(** ** parse_dn *)

Lemma parse_dn_loop_ret_or_invalid (fuel : nat) (dn : str) (escape strip_ : bool)
    (rdns : list ava_triple) :
  len dn < Z.of_nat fuel ->
  ret_or_invalid (parse_dn_loop fuel dn escape strip_ rdns).
Proof.
  revert dn rdns. induction fuel as [|fuel IH]; intros dn rdns Hf.
  - pose proof (len_nonneg dn). lia.
  - cbn [parse_dn_loop].
    pose proof (parse_dn_remainder_shorter dn) as Hs.
    destruct (get_next_ava dn) as [ava separator]. cbn [fst] in Hs.
    destruct ava as [|a ava]; cbn [truthy]; [left; eauto|].
    specialize (Hs ltac:(discriminate)).
    destruct (split_ava_returns (a :: ava) escape strip_)
      as (t & val & -> & Hval). cbn [bind].
    destruct t as [|c t].
    { cbn. right. eauto. }
    destruct (validate_attribute_type_cons c t) as [->|[m ->]]; cbn [bind negb];
      [|right; eauto].
    destruct val as [v|self]; [|destruct (Hval self eq_refl); discriminate].
    cbn [validate_attribute_value_obj as_str].
    destruct v as [|c' v].
    { cbn. right. eauto. }
    destruct (validate_attribute_value_cons c' v) as [->|[m ->]]; cbn [bind negb];
      [|right; eauto].
    apply IH. lia.
Qed.

(** X13. [parse_dn] returns a list or raises [LDAPInvalidDnError]: no
    subscript is out of range, and the bound method that [split_ava] may
    return is never used as a string. *)
Theorem parse_dn_returns_or_invalid_dn (dn : str) (escape strip_ : bool) :
  (exists rdns, parse_dn dn escape strip_ = Ret rdns)
  \/ (exists m, parse_dn dn escape strip_ = Raise (LDAPInvalidDnError m)).
Proof.
  apply parse_dn_loop_ret_or_invalid. unfold len. lia.
Qed.

Lemma parsed_valid (escape strip_ : bool) (dn : str) (rdns : list ava_triple) :
  parsed escape strip_ dn rdns ->
  forall t v sep, In (t, v, sep) rdns ->
    validate_attribute_type t = Ret true /\ validate_attribute_value v = Ret true.
Proof.
  induction 1 as [|dn ava sep rest t v rdns B Es Et Ev Hp IH]; intros t' v' sep' Hin.
  - destruct Hin.
  - destruct Hin as [[= <- <- <-]|Hin]; [now split|eauto].
Qed.

(** X14. Every triple that [parse_dn] returns has a type that
    [validate_attribute_type] accepts and a value that
    [validate_attribute_value] accepts. *)
Theorem parse_dn_triples_valid (dn : str) (escape strip_ : bool)
    (rdns : list ava_triple) (t v sep : str) :
  parse_dn dn escape strip_ = Ret rdns -> In (t, v, sep) rdns ->
  validate_attribute_type t = Ret true /\ validate_attribute_value v = Ret true.
Proof.
  intros H Hin. apply parse_dn_parsed in H. eapply parsed_valid; eassumption.
Qed.

Lemma parse_dn_triples_valid_witness :
  validate_attribute_type (lit "ou") = Ret true
  /\ validate_attribute_value (lit "b") = Ret true.
Proof.
  apply (parse_dn_triples_valid (lit "cn=a+ou=b,dc=example") false true
           [(lit "cn", lit "a", lit "+"); (lit "ou", lit "b", lit ",");
            (lit "dc", lit "example", lit "")] (lit "ou") (lit "b") (lit ",")).
  - vm_compute. reflexivity.
  - right. left. reflexivity.
Defined.

(** X15. [parse_dn] returns the empty list on the empty string only. *)
Theorem parse_dn_empty_iff (dn : str) (escape strip_ : bool) :
  parse_dn dn escape strip_ = Ret [] <-> dn = [].
Proof.
  rewrite parse_dn_parsed. split.
  - now inversion 1.
  - intros ->. constructor.
Qed.

Lemma parsed_verbatim (dn : str) (rdns : list ava_triple) :
  parsed false false dn rdns -> render rdns = dn.
Proof.
  induction 1 as [|dn ava sep rest t v rdns B Es Et Ev Hp IH]; [reflexivity|].
  rewrite render_cons, render_ava_app, IH, (boundary_concat _ _ _ _ B).
  f_equal.
  destruct (split_ava_inv_any _ _ _ _ _ Es)
    as [[-> _]|(T & V & v' & -> & _ & _ & -> & Hv & [= ->])]; [discriminate|].
  cbn in Hv. now injection Hv as <-.
Qed.

(** X16. Without [strip] and without [escape], joining each returned type,
    ['='], value and separator gives back the string that [parse_dn] was
    given. *)
Theorem parse_dn_verbatim_round_trip (dn : str) (rdns : list ava_triple) :
  parse_dn dn false false = Ret rdns -> render rdns = dn.
Proof.
  intros H. apply parse_dn_parsed in H. now apply parsed_verbatim.
Qed.

Lemma parse_dn_verbatim_round_trip_witness :
  render [(lit "cn", lit "John Smith", lit "+"); (lit "ou", lit "x", lit ",");
          (lit "dc", lit "example", lit "")]
  = lit "cn=John Smith+ou=x,dc=example".
Proof.
  apply parse_dn_verbatim_round_trip. vm_compute. reflexivity.
Defined.

Lemma split_ava_loop_escape_any (ava t v : str) (strip_ : bool) (fuel : nat) :
  forall equal,
    split_ava_loop fuel ava false strip_ equal = Ret (t, VStr v) ->
    validate_attribute_value v = Ret true ->
    split_ava_loop fuel ava true strip_ equal = Ret (t, VStr v).
Proof.
  induction fuel as [|fuel IH]; intros equal; [discriminate|].
  cbn [split_ava_loop]. destruct (equal >? 0); [|now destruct strip_].
  destruct (getitem ava (equal - 1)) as [c| |]; cbn [bind]; try discriminate.
  destruct (negb (Ascii.eqb c BACKSLASH)); [|apply IH].
  destruct strip_; cbn [bind]; intros [= <- <-] Hv;
    now rewrite (escape_valid_value _ Hv).
Qed.

(** X17. What [parse_dn] returns without [escape] it returns with [escape]
    too: the values were valid, and the escaper leaves them as they are. *)
Theorem parse_dn_escape_keeps_result (dn : str) (strip_ : bool)
    (rdns : list ava_triple) :
  parse_dn dn false strip_ = Ret rdns -> parse_dn dn true strip_ = Ret rdns.
Proof.
  rewrite !parse_dn_parsed.
  induction 1 as [|dn' ava sep rest t v rdns' B Es Et Ev Hp IH]; [constructor|].
  econstructor; try eassumption. now apply split_ava_loop_escape_any.
Qed.

Lemma parse_dn_escape_keeps_result_witness :
  parse_dn (lit "cn=a\+b ,dc=c") true true
  = Ret [(lit "cn", lit "a\+b", lit ","); (lit "dc", lit "c", lit "")].
Proof. apply parse_dn_escape_keeps_result. vm_compute. reflexivity. Defined.

(** X18. A non-empty string without any ['='] is rejected by [parse_dn]:
    the first AVA has the empty type. *)
Theorem parse_dn_without_equal_rejected (dn : str) (escape strip_ : bool) :
  dn <> [] -> in_str "="%char dn = false ->
  parse_dn dn escape strip_
  = Raise (LDAPInvalidDnError (lit "unable to validate attribute type: ")).
Proof.
  intros Hne He. unfold parse_dn. cbn [parse_dn_loop].
  destruct (get_next_ava_boundary dn) as (ava & sep & rest & -> & B).
  assert (ava <> []) as Ha by (intros ->; now apply boundary_ava_nil in B).
  assert (in_str "="%char ava = false) as Hea.
  { rewrite (boundary_concat _ _ _ _ B), in_str_app in He.
    now apply orb_false_iff in He as [? _]. }
  destruct ava as [|a ava]; [congruence|]. cbn [truthy].
  unfold split_ava. rewrite (rfind0_absent _ _ Hea). cbn [split_ava_loop].
  reflexivity.
Qed.

Lemma parse_dn_without_equal_rejected_witness :
  parse_dn (lit "a, b+c") false true
  = Raise (LDAPInvalidDnError (lit "unable to validate attribute type: ")).
Proof.
  apply parse_dn_without_equal_rejected; [discriminate|reflexivity].
Defined.

Lemma validate_loop_ends_in_escape (y : str) :
  validate_loop STATE_ANY y = Ret STATE_ESCAPE -> exists y', y = y' ++ [BACKSLASH].
Proof.
  intros H. destruct (nil_or_not y) as [->|Hy]; [discriminate|].
  destruct (exists_last Hy) as (y' & c & ->). exists y'.
  rewrite validate_loop_app in H.
  destruct (validate_loop STATE_ANY y') as [st| |]; cbn [bind validate_loop] in H;
    try discriminate.
  destruct (validate_step st c) as [st'| |] eqn:E; cbn [bind] in H; try discriminate.
  injection H as ->. now apply validate_step_to_escape in E as [_ ->].
Qed.

Lemma valid_value_final_backslash (y : str) :
  validate_attribute_value (y ++ [BACKSLASH]) = Ret true ->
  exists y', y = y' ++ [BACKSLASH].
Proof.
  intros H.
  destruct (validate_attribute_value_true _ H) as (c & v' & E & _ & _ & _ & Hv).
  rewrite validate_loop_app in Hv.
  destruct (validate_loop STATE_ANY y) as [st| |] eqn:Ey; cbn [bind validate_loop] in Hv;
    try discriminate.
  destruct st.
  - cbn in Hv. discriminate.
  - now apply validate_loop_ends_in_escape.
  - cbn in Hv. discriminate.
Qed.

Lemma snoc_eq_middle (a T V : str) (c d : ascii) :
  a ++ [c] = T ++ d :: V -> c <> d -> exists V', V = V' ++ [c] /\ a = T ++ d :: V'.
Proof.
  intros E Hcd. destruct (nil_or_not V) as [->|HV].
  - change (T ++ [d]) with (T ++ [d]) in E. apply app_inj_tail in E as [_ E].
    congruence.
  - destruct (exists_last HV) as (V' & c' & ->).
    change (T ++ d :: V' ++ [c']) with (T ++ (d :: V') ++ [c']) in E.
    rewrite app_assoc in E. apply app_inj_tail in E as [-> ->]. eauto.
Qed.

Lemma strip_final_backslash (V : str) :
  exists w y, V = w ++ y /\ strip (V ++ [BACKSLASH]) = y ++ [BACKSLASH].
Proof.
  unfold strip. destruct (lstrip_decomp V) as (w & E & _).
  exists w, (lstrip V). split; [exact E|].
  rewrite lstrip_snoc by reflexivity. now apply rstrip_snoc.
Qed.

(** X19. [get_next_ava] cuts at a comma whether or not it follows a
    backslash, so [parse_dn] without [escape] rejects a DN whose first
    AVA ends with one backslash before the comma: the value is left
    with an unfinished escape. *)
Theorem parse_dn_escaped_comma_rejected (x r : str) (strip_ : bool) :
  in_str ","%char x = false -> in_str "+"%char x = false ->
  (forall y, x <> y ++ [BACKSLASH]) ->
  get_next_ava (x ++ BACKSLASH :: ","%char :: r) = (x ++ [BACKSLASH], lit ",")
  /\ exists m,
      parse_dn (x ++ BACKSLASH :: ","%char :: r) false strip_
      = Raise (LDAPInvalidDnError m).
Proof.
  intros Hc Hp Hx.
  assert (get_next_ava (x ++ BACKSLASH :: ","%char :: r) = (x ++ [BACKSLASH], lit ","))
    as Hg.
  { change (x ++ BACKSLASH :: ","%char :: r) with (x ++ [BACKSLASH] ++ ","%char :: r).
    rewrite app_assoc. apply get_next_ava_comma.
    - now rewrite in_str_app, Hc.
    - intros E. apply app_eq_nil in E as [_ E]. discriminate.
    - intros (a & r' & E & _ & _ & _).
      apply (f_equal (in_str "+"%char)) in E.
      rewrite !in_str_app, !in_str_cons, Hp, Ascii.eqb_refl, orb_true_r in E.
      discriminate. }
  split; [exact Hg|].
  destruct (parse_dn_loop_ret_or_invalid (S (List.length (x ++ BACKSLASH :: ","%char :: r)))
              (x ++ BACKSLASH :: ","%char :: r) false strip_ [] ltac:(unfold len; lia))
    as [[rdns H]|H]; [exfalso|exact H].
  apply parse_dn_parsed in H.
  inversion H as [E|dn ava sep rest t v rdns' B Es Et Ev Hp' E1 E2].
  { symmetry in E. apply app_eq_nil in E as [_ E]. discriminate. }
  subst. rewrite (boundary_get_next_ava _ _ _ _ B) in Hg. injection Hg as -> ->.
  destruct (split_ava_inv_any _ _ _ _ _ Es)
    as [[-> _]|(T & V & v' & E & _ & _ & _ & Hv & [= <-])]; [discriminate|].
  destruct (snoc_eq_middle _ _ _ _ _ E ltac:(discriminate)) as (V' & -> & ->).
  assert (exists w y, V' = w ++ y /\ v = y ++ [BACKSLASH]) as (w & y & -> & ->).
  { destruct strip_; cbn in Hv; injection Hv as <-.
    - apply strip_final_backslash.
    - exists [], V'. now split. }
  destruct (valid_value_final_backslash _ Ev) as [y' ->].
  apply (Hx (T ++ "="%char :: w ++ y')).
  rewrite <- app_assoc. cbn [app]. now rewrite <- app_assoc.
Qed.

Lemma parse_dn_escaped_comma_rejected_witness :
  get_next_ava (lit "cn=a\,b,dc=c") = (lit "cn=a\", lit ",")
  /\ exists m, parse_dn (lit "cn=a\,b,dc=c") false true = Raise (LDAPInvalidDnError m).
Proof.
  apply (parse_dn_escaped_comma_rejected (lit "cn=a") (lit "b,dc=c") true).
  - reflexivity.
  - reflexivity.
  - intros y E. apply (f_equal (fun s => last s "x"%char)) in E.
    rewrite last_last in E. discriminate.
Defined.

(** ** to_dn *)

Section ToDn.

Variables decompose remove_space space_around_equal separate_rdn : bool.

Let step := to_dn_step decompose remove_space space_around_equal separate_rdn.
Let loop := to_dn_loop decompose remove_space space_around_equal separate_rdn.
Let add_ava (ava : str) := _add_ava ava decompose remove_space space_around_equal.

Lemma to_dn_unfold (s : str) :
  to_dn s decompose remove_space space_around_equal separate_rdn
  = s_dn (loop scanner_init s) ++ [add_ava (s_component (loop scanner_init s))].
Proof. reflexivity. Qed.

Lemma to_dn_loop_cons (st : scanner) (c : ascii) (s : str) :
  loop st (c :: s) = loop (step st c) s.
Proof. reflexivity. Qed.

Lemma to_dn_loop_app (st : scanner) (s t : str) :
  loop st (s ++ t) = loop (loop st s) t.
Proof. unfold loop, to_dn_loop. apply fold_left_app. Qed.

(** The steps of the loop. *)
Lemma to_dn_step_backslash (dn : list component) (component : str) (e : bool) :
  step (mkScanner dn component e) BACKSLASH
  = mkScanner dn (component ++ [BACKSLASH]) true.
Proof. reflexivity. Qed.

Lemma to_dn_step_escaped (dn : list component) (component : str) (c : ascii) :
  c <> BACKSLASH -> c <> " "%char ->
  step (mkScanner dn component true) c = mkScanner dn (component ++ [c]) false.
Proof.
  intros H1 H2. unfold step, to_dn_step.
  assert (in_str c [BACKSLASH] = false) as ->.
  { rewrite in_str_cons. cbn. rewrite orb_false_r. now apply Ascii.eqb_neq. }
  assert (in_str c (lit " ") = false) as ->.
  { change (lit " ") with [" "%char]. rewrite in_str_cons. cbn.
    rewrite orb_false_r. now apply Ascii.eqb_neq. }
  reflexivity.
Qed.

Lemma to_dn_step_plain (dn : list component) (component : str) (e : bool)
    (c : ascii) :
  c <> BACKSLASH -> e = false \/ c = " "%char ->
  c <> ","%char -> c <> "+"%char ->
  step (mkScanner dn component e) c = mkScanner dn (component ++ [c]) e.
Proof.
  intros H1 H2 H3 H4. unfold step, to_dn_step.
  assert (in_str c [BACKSLASH] = false) as ->.
  { rewrite in_str_cons. cbn. rewrite orb_false_r. now apply Ascii.eqb_neq. }
  assert (e && negb (in_str c (lit " ")) = false) as ->.
  { destruct H2 as [->| ->]; [reflexivity|]. cbn. apply andb_false_r. }
  assert (in_str c (lit "+") = false) as ->.
  { change (lit "+") with ["+"%char]. rewrite in_str_cons. cbn.
    rewrite orb_false_r. now apply Ascii.eqb_neq. }
  cbn [andb]. apply Ascii.eqb_neq in H3. now rewrite H3.
Qed.

Lemma to_dn_step_comma (dn : list component) (component : str) :
  step (mkScanner dn component false) ","%char
  = if in_str "="%char component then mkScanner (dn ++ [add_ava component]) [] false
    else mkScanner dn (component ++ [","%char]) false.
Proof.
  unfold step, to_dn_step. cbn [andb].
  change (in_str "," [BACKSLASH]) with false.
  change (in_str "," (lit "+")) with false. reflexivity.
Qed.

Lemma to_dn_step_plus (dn : list component) (component : str) :
  step (mkScanner dn component false) "+"%char
  = if separate_rdn then mkScanner (dn ++ [add_ava component]) [] false
    else mkScanner dn (component ++ ["+"%char]) false.
Proof.
  unfold step, to_dn_step. cbn [andb].
  change (in_str "+" [BACKSLASH]) with false.
  change (in_str "+" (lit "+")) with true.
  destruct separate_rdn; reflexivity.
Qed.

(** The components found so far do not matter to the rest of the loop. *)
Lemma to_dn_step_dn (dn : list component) (component : str) (e : bool) (c : ascii) :
  step (mkScanner dn component e) c
  = let st := step (mkScanner [] component e) c in
    mkScanner (dn ++ s_dn st) (s_component st) (s_escape_sequence st).
Proof.
  unfold step, to_dn_step.
  repeat match goal with |- context [if ?b then _ else _] => destruct b end;
    cbn; now rewrite ?app_nil_r.
Qed.

Lemma to_dn_loop_dn (s : str) (dn : list component) (component : str) (e : bool) :
  loop (mkScanner dn component e) s
  = let st := loop (mkScanner [] component e) s in
    mkScanner (dn ++ s_dn st) (s_component st) (s_escape_sequence st).
Proof.
  revert dn component e. induction s as [|c s IH]; intros dn component e.
  - cbn. now rewrite app_nil_r.
  - rewrite !to_dn_loop_cons, to_dn_step_dn. cbv zeta.
    destruct (step (mkScanner [] component e) c) as [dn1 c1 e1].
    cbn [s_dn s_component s_escape_sequence].
    rewrite IH, (IH dn1). cbv zeta. cbn [s_dn s_component s_escape_sequence].
    now rewrite app_assoc.
Qed.

(** Without a delimiter that ends a component, the loop only copies. *)
Lemma to_dn_loop_copy (a : str) (component : str) :
  in_str BACKSLASH a = false -> in_str ","%char a = false ->
  (separate_rdn = true -> in_str "+"%char a = false) ->
  loop (mkScanner [] component false) a = mkScanner [] (component ++ a) false.
Proof.
  revert component. induction a as [|c a IH]; intros component Hb Hc Hp.
  - cbn. now rewrite app_nil_r.
  - rewrite in_str_cons in Hb, Hc. apply orb_false_iff in Hb as [Hb1 Hb2].
    apply orb_false_iff in Hc as [Hc1 Hc2].
    assert (separate_rdn = true -> in_str "+"%char a = false /\ c <> "+"%char) as Hp'.
    { intros Hs. specialize (Hp Hs). rewrite in_str_cons in Hp.
      apply orb_false_iff in Hp as [Hp1 Hp2]. split; [assumption|].
      intros ->. discriminate. }
    rewrite to_dn_loop_cons.
    assert (step (mkScanner [] component false) c
            = mkScanner [] (component ++ [c]) false) as ->.
    { destruct (Ascii.eqb_spec c "+") as [->|Hne].
      - rewrite to_dn_step_plus. destruct separate_rdn; [|reflexivity].
        now destruct (Hp' eq_refl).
      - apply to_dn_step_plain; auto; intros ->; discriminate. }
    rewrite IH; [now rewrite <- app_assoc|assumption|assumption|].
    intros Hs. now destruct (Hp' Hs).
Qed.

(** X20. Where a component ends: after a text [a] without backslash, comma
    or (when [separate_rdn] is set) plus sign, a comma ends the component if
    [a] has an ['='], and a plus sign ends it if [separate_rdn] is set; the
    result is then the component made of [a], followed by the result for
    what is after the delimiter. *)
Theorem to_dn_first_component (a b : str) (c : ascii) :
  in_str BACKSLASH a = false -> in_str ","%char a = false ->
  (separate_rdn = true -> in_str "+"%char a = false) ->
  (c = ","%char /\ in_str "="%char a = true)
  \/ (c = "+"%char /\ separate_rdn = true) ->
  to_dn (a ++ c :: b) decompose remove_space space_around_equal separate_rdn
  = _add_ava a decompose remove_space space_around_equal
    :: to_dn b decompose remove_space space_around_equal separate_rdn.
Proof.
  intros Hb Hc Hp Hsplit. rewrite !to_dn_unfold.
  rewrite to_dn_loop_app. unfold scanner_init.
  rewrite (to_dn_loop_copy a (lit "")) by assumption. cbn [lit list_ascii_of_string app].
  rewrite to_dn_loop_cons.
  assert (step (mkScanner [] a false) c = mkScanner ([] ++ [add_ava a]) [] false) as ->.
  { destruct Hsplit as [[-> He]|[-> Hs]].
    - now rewrite to_dn_step_comma, He.
    - rewrite to_dn_step_plus. unfold add_ava. now rewrite Hs. }
  cbn [app]. rewrite to_dn_loop_dn. cbv zeta.
  cbn [s_dn s_component s_escape_sequence app]. reflexivity.
Qed.

(** X21. A comma ends a component only if the component has an ['=']: with
    [separate_rdn] unset, a string without ['='] comes back as one
    component. *)
Theorem to_dn_without_equal (s : str) :
  separate_rdn = false -> in_str "="%char s = false ->
  to_dn s decompose remove_space space_around_equal separate_rdn
  = [_add_ava s decompose remove_space space_around_equal].
Proof.
  intros Hs He. rewrite to_dn_unfold.
  assert (forall t component e,
             in_str "="%char component = false -> in_str "="%char t = false ->
             exists e', loop (mkScanner [] component e) t
                        = mkScanner [] (component ++ t) e') as Hloop.
  { induction t as [|c t IH]; intros component e Hc Ht.
    - exists e. cbn. now rewrite app_nil_r.
    - rewrite in_str_cons in Ht. apply orb_false_iff in Ht as [Ht1 Ht2].
      rewrite to_dn_loop_cons.
      assert (exists e1, step (mkScanner [] component e) c
                         = mkScanner [] (component ++ [c]) e1) as [e1 ->].
      { unfold step, to_dn_step. rewrite Hs, Hc, andb_false_r.
        repeat match goal with |- context [if ?b then _ else _] => destruct b end;
          eauto. }
      destruct (IH (component ++ [c]) e1) as [e' ->]; [|assumption|].
      + rewrite in_str_app, Hc, in_str_cons, Ht1. reflexivity.
      + exists e'. now rewrite <- app_assoc. }
  destruct (Hloop s (lit "") false eq_refl He) as [e' E].
  unfold scanner_init. rewrite E. reflexivity.
Qed.

Lemma snoc_eq_backslash (p p' sp : str) (c : ascii) :
  p ++ [c] = p' ++ BACKSLASH :: sp -> only_spaces sp ->
  (c = BACKSLASH /\ sp = [])
  \/ (c = " "%char /\ exists sp', p = p' ++ BACKSLASH :: sp' /\ only_spaces sp').
Proof.
  intros E Hsp. destruct (nil_or_not sp) as [->|Hne].
  - apply app_inj_tail in E as [_ ->]. now left.
  - destruct (exists_last Hne) as (sp' & x & ->). right.
    change (p' ++ BACKSLASH :: sp' ++ [x]) with (p' ++ (BACKSLASH :: sp') ++ [x]) in E.
    rewrite app_assoc in E. apply app_inj_tail in E as [-> ->].
    split; [apply Hsp, in_or_app; right; now left|].
    exists sp'. split; [reflexivity|]. intros y Hy. apply Hsp, in_or_app. now left.
Qed.

Lemma to_dn_loop_protected (s : str) :
  (forall p c q, s = p ++ c :: q -> c = ","%char \/ c = "+"%char ->
                 exists p' sp, p = p' ++ BACKSLASH :: sp /\ only_spaces sp) ->
  forall p q, s = p ++ q ->
    exists e, loop scanner_init p = mkScanner [] p e
              /\ ((exists p' sp, p = p' ++ BACKSLASH :: sp /\ only_spaces sp) ->
                  e = true).
Proof.
  intros Hs. induction p as [|c p IH] using rev_ind; intros q E.
  - exists false. split; [reflexivity|].
    intros (p' & sp & E' & _). symmetry in E'. apply app_eq_nil in E' as [_ E'].
    discriminate.
  - rewrite <- app_assoc in E. cbn [app] in E.
    destruct (IH _ E) as (e & El & He). rewrite to_dn_loop_app, El.
    cbn [loop to_dn_loop fold_left]. fold step.
    destruct (Ascii.eqb_spec c BACKSLASH) as [->|Hb].
    { exists true. split; [apply to_dn_step_backslash|reflexivity]. }
    assert (forall p' sp, p ++ [c] = p' ++ BACKSLASH :: sp -> only_spaces sp ->
                          c = " "%char /\ e = true) as Hback.
    { intros p' sp E' Hsp.
      destruct (snoc_eq_backslash _ _ _ _ E' Hsp) as [[-> _]|[-> (sp' & -> & Hsp')]];
        [congruence|].
      split; [reflexivity|]. apply He. eauto. }
    destruct (Ascii.eqb_spec c " ") as [->|Hsp].
    { exists e. split; [apply to_dn_step_plain; auto; discriminate|].
      intros (p' & sp & E' & Hsp). now destruct (Hback _ _ E' Hsp). }
    assert (e = true \/ (e = false /\ c <> ","%char /\ c <> "+"%char)) as [->|(-> & Hc & Hp)].
    { destruct e; [now left|right]. split; [reflexivity|].
      split; intros ->.
      - destruct (Hs _ _ _ E (or_introl eq_refl)) as (p' & sp & E' & Hsp').
        assert (false = true) by (apply He; eauto). discriminate.
      - destruct (Hs _ _ _ E (or_intror eq_refl)) as (p' & sp & E' & Hsp').
        assert (false = true) by (apply He; eauto). discriminate. }
    + exists false. split; [now apply to_dn_step_escaped|].
      intros (p' & sp & E' & Hsp'). now destruct (Hback _ _ E' Hsp').
    + exists false. split; [apply to_dn_step_plain; auto|].
      intros (p' & sp & E' & Hsp'). now destruct (Hback _ _ E' Hsp').
Qed.

(** X22. A comma or plus sign that follows a backslash, directly or after
    SPACE characters only, does not end a component: a string in which every
    comma and plus sign is so placed comes back as one component. *)
Theorem to_dn_escaped_delimiters (s : str) :
  (forall p c q, s = p ++ c :: q -> c = ","%char \/ c = "+"%char ->
                 exists p' sp, p = p' ++ BACKSLASH :: sp /\ only_spaces sp) ->
  to_dn s decompose remove_space space_around_equal separate_rdn
  = [_add_ava s decompose remove_space space_around_equal].
Proof.
  intros Hs. rewrite to_dn_unfold.
  destruct (to_dn_loop_protected s Hs s [] (eq_sym (app_nil_r s))) as (e & -> & _).
  reflexivity.
Qed.

End ToDn.

Lemma to_dn_first_component_witness :
  to_dn (lit "cn = a,dc=b+c") true true false false
  = [CPair (lit "cn") (lit "a"); CPair (lit "dc") (lit "b+c")].
Proof.
  apply (to_dn_first_component true true false false (lit "cn = a") (lit "dc=b+c") ","%char).
  - reflexivity.
  - reflexivity.
  - discriminate.
  - left. split; reflexivity.
Defined.

Lemma to_dn_without_equal_witness :
  to_dn (lit "a,b") false false false false = [CStr (lit "a,b=")].
Proof.
  apply (to_dn_without_equal false false false false (lit "a,b")); reflexivity.
Defined.

Lemma to_dn_escaped_delimiters_witness :
  to_dn (lit "cn=a\ ,b") false false false true = [CStr (lit "cn=a\ ,b")].
Proof.
  apply (to_dn_escaped_delimiters false false false true (lit "cn=a\ ,b")).
  intros p c q E Hc.
  do 6 (destruct p as [|? p]; [injection E as <- _; destruct Hc; discriminate|];
        injection E as <- E).
  destruct p as [|? p].
  - exists (lit "cn=a"), (lit " "). split; [reflexivity|].
    intros x [<-|[]]. reflexivity.
  - injection E as <- E.
    destruct p as [|? p]; [injection E as <- _; destruct Hc; discriminate|].
    injection E as <- E. destruct p; discriminate.
Defined.

(** *** Strings and pairs *)

Lemma partition_spec (s : str) (c : ascii) :
  (in_str c s = false /\ partition s c = (s, [], []))
  \/ exists a b, s = a ++ c :: b /\ in_str c a = false
                 /\ partition s c = (a, [c], b).
Proof.
  induction s as [|x s IH]; [now left|]. cbn [partition].
  destruct (Ascii.eqb_spec x c) as [->|Hx].
  - right. exists [], s. repeat split.
  - assert (Ascii.eqb c x = false) as Hcx by (apply Ascii.eqb_neq; congruence).
    destruct IH as [[Hn ->]|(a & b & -> & Ha & ->)].
    + left. split; [|reflexivity]. now rewrite in_str_cons, Hcx.
    + right. exists (x :: a), b. repeat split. now rewrite in_str_cons, Hcx.
Qed.

Lemma add_ava_join (ava : str) (remove_space space_around_equal : bool) :
  _add_ava ava false remove_space space_around_equal
  = join_component space_around_equal
      (_add_ava ava true remove_space space_around_equal).
Proof.
  unfold _add_ava. destruct (negb (truthy ava)); [reflexivity|].
  destruct (partition ava "="%char) as [[attr_name sep] value].
  now destruct remove_space.
Qed.

Lemma to_dn_step_join (remove_space space_around_equal separate_rdn : bool)
    (dn : list component) (component : str) (e : bool) (c : ascii) :
  to_dn_step false remove_space space_around_equal separate_rdn
    (mkScanner (map (join_component space_around_equal) dn) component e) c
  = let st := to_dn_step true remove_space space_around_equal separate_rdn
                (mkScanner dn component e) c in
    mkScanner (map (join_component space_around_equal) (s_dn st))
      (s_component st) (s_escape_sequence st).
Proof.
  unfold to_dn_step.
  repeat match goal with |- context [if ?b then _ else _] => destruct b end;
    cbn [s_dn s_component s_escape_sequence]; rewrite ?map_app; cbn [map];
    rewrite ?add_ava_join; reflexivity.
Qed.

Lemma to_dn_loop_join (remove_space space_around_equal separate_rdn : bool)
    (s : str) (dn : list component) (component : str) (e : bool) :
  to_dn_loop false remove_space space_around_equal separate_rdn
    (mkScanner (map (join_component space_around_equal) dn) component e) s
  = let st := to_dn_loop true remove_space space_around_equal separate_rdn
                (mkScanner dn component e) s in
    mkScanner (map (join_component space_around_equal) (s_dn st))
      (s_component st) (s_escape_sequence st).
Proof.
  revert dn component e. induction s as [|c s IH]; intros dn component e;
    [reflexivity|].
  unfold to_dn_loop. cbn [fold_left].
  rewrite to_dn_step_join. cbv zeta.
  destruct (to_dn_step true remove_space space_around_equal separate_rdn
              (mkScanner dn component e) c) as [dn1 c1 e1].
  cbn [s_dn s_component s_escape_sequence]. apply IH.
Qed.

Lemma to_dn_join (s : str) (remove_space space_around_equal separate_rdn : bool) :
  to_dn s false remove_space space_around_equal separate_rdn
  = map (join_component space_around_equal)
      (to_dn s true remove_space space_around_equal separate_rdn).
Proof.
  unfold to_dn.
  fold (to_dn_loop false remove_space space_around_equal separate_rdn scanner_init s).
  fold (to_dn_loop true remove_space space_around_equal separate_rdn scanner_init s).
  change scanner_init
    with (mkScanner (map (join_component space_around_equal) []) (lit "") false) at 1 2.
  rewrite to_dn_loop_join. cbv zeta. cbn [s_dn s_component].
  rewrite map_app. cbn [map]. now rewrite add_ava_join.
Qed.

(** X23. The strings that [to_dn] returns without [decompose] are the pairs
    it returns with [decompose], each joined by ['='], with a SPACE on both
    sides when [space_around_equal] is set. *)
Theorem to_dn_strings_of_pairs (s : str)
    (remove_space space_around_equal separate_rdn : bool) :
  to_dn s false remove_space space_around_equal separate_rdn
  = map (join_component space_around_equal)
      (to_dn s true remove_space space_around_equal separate_rdn).
Proof. exact (to_dn_join s remove_space space_around_equal separate_rdn). Qed.



Lemma to_dn_loop_elements (P : component -> Prop)
    (decompose remove_space space_around_equal separate_rdn : bool) :
  (forall ava, P (_add_ava ava decompose remove_space space_around_equal)) ->
  forall s st, Forall P (s_dn st) ->
    Forall P (s_dn (to_dn_loop decompose remove_space space_around_equal
                      separate_rdn st s)).
Proof.
  intros HP. induction s as [|c s IH]; intros st Hst; [exact Hst|].
  unfold to_dn_loop. cbn [fold_left]. apply IH.
  destruct st as [dn component e]. unfold to_dn_step.
  repeat match goal with |- context [if ?b then _ else _] => destruct b end;
    cbn [s_dn] in *; try assumption;
    apply Forall_app; split; auto.
Qed.



(** *** Joining the components again *)

Lemma join_with_snoc (sep : str) (l : list str) (x : str) :
  l <> [] -> join_with sep (l ++ [x]) = join_with sep l ++ sep ++ x.
Proof.
  induction l as [|y l IH]; [congruence|]. intros _.
  destruct l as [|z l]; [reflexivity|].
  cbn [app join_with] in *. rewrite IH by discriminate.
  now rewrite <- !app_assoc.
Qed.

Lemma join_with_last_app (sep : str) (l : list str) (x y : str) :
  join_with sep (l ++ [x ++ y]) = join_with sep (l ++ [x]) ++ y.
Proof.
  destruct (list_eq_dec (list_eq_dec ascii_dec) l []) as [->|Hl]; [reflexivity|].
  rewrite !join_with_snoc by assumption. now rewrite <- !app_assoc.
Qed.

Lemma add_ava_verbatim (ava : str) :
  ava = [] \/ in_str "="%char ava = true ->
  _add_ava ava false false false = CStr ava.
Proof.
  intros [->|He]; [reflexivity|]. unfold _add_ava.
  destruct ava as [|a ava]; [discriminate|]. cbn [truthy negb].
  destruct (partition_spec (a :: ava) "="%char) as [[Hn _]|(x & y & E & _ & ->)];
    [congruence|].
  rewrite E. reflexivity.
Qed.

Lemma to_dn_loop_step
    (decompose remove_space space_around_equal separate_rdn : bool)
    (st : scanner) (c : ascii) (s : str) :
  to_dn_loop decompose remove_space space_around_equal separate_rdn st (c :: s)
  = to_dn_loop decompose remove_space space_around_equal separate_rdn
      (to_dn_step decompose remove_space space_around_equal separate_rdn st c) s.
Proof. reflexivity. Qed.

(** The strings found so far, then the current component, joined by commas,
    are what has been read. *)
Lemma to_dn_loop_text (s : str) (dn : list str) (component : str) (e : bool) :
  let st := to_dn_loop false false false false
              (mkScanner (map CStr dn) component e) s in
  exists dn', s_dn st = map CStr dn'
              /\ join_with (lit ",") (dn' ++ [s_component st])
                 = join_with (lit ",") (dn ++ [component]) ++ s.
Proof.
  revert dn component e. induction s as [|c s IH]; intros dn component e.
  - exists dn. cbn. now rewrite app_nil_r.
  - cbv zeta. rewrite to_dn_loop_step.
    assert (exists dn1 c1 e1,
               to_dn_step false false false false (mkScanner (map CStr dn) component e) c
               = mkScanner (map CStr dn1) c1 e1
               /\ join_with (lit ",") (dn1 ++ [c1])
                  = join_with (lit ",") (dn ++ [component]) ++ [c])
      as (dn1 & c1 & e1 & -> & E1).
    { unfold to_dn_step. rewrite andb_false_r.
      destruct (in_str c [BACKSLASH]);
        [exists dn, (component ++ [c]), true; split; [reflexivity|apply join_with_last_app]|].
      destruct (e && negb (in_str c (lit " ")));
        [exists dn, (component ++ [c]), false; split; [reflexivity|apply join_with_last_app]|].
      destruct (Ascii.eqb_spec c ",") as [->|Hc];
        [|exists dn, (component ++ [c]), e; split; [reflexivity|apply join_with_last_app]].
      destruct (in_str "="%char component) eqn:He;
        [|exists dn, (component ++ [","%char]), e; split; [reflexivity|apply join_with_last_app]].
      exists (dn ++ [component]), [], e. split.
      - rewrite add_ava_verbatim by now right. now rewrite map_app.
      - rewrite join_with_snoc by (intros E; apply app_eq_nil in E as [_ E]; discriminate).
        reflexivity. }
    destruct (IH dn1 c1 e1) as (dn' & Edn & Ej). exists dn'. split; [exact Edn|].
    rewrite Ej, E1, <- app_assoc. reflexivity.
Qed.

Lemma suffix_after_delimiter (X Y p q : str) (c : ascii) :
  X ++ c :: Y = p ++ q -> in_str c q = false -> exists z, Y = z ++ q.
Proof.
  revert X. induction p as [|x p IH]; intros X E Hq.
  - cbn in E. rewrite <- E, in_str_app, in_str_cons, Ascii.eqb_refl in Hq.
    cbn in Hq. now rewrite orb_true_r in Hq.
  - destruct X as [|x' X]; cbn [app] in E; injection E as _ E.
    + exists p. exact E.
    + now apply (IH X).
Qed.

Lemma join_with_last_suffix (l : list str) (x : str) :
  join_with (lit ",") (l ++ [x]) = x
  \/ exists X, join_with (lit ",") (l ++ [x]) = X ++ ","%char :: x.
Proof.
  destruct (list_eq_dec (list_eq_dec ascii_dec) l []) as [->|Hl]; [now left|right].
  rewrite join_with_snoc by assumption. eauto.
Qed.

(** X25. With all options unset, when an ['='] comes after the last comma
    of the string (or the string has an ['='] and no comma), the components
    that [to_dn] returns, joined by commas, are the string again. *)
Theorem to_dn_join_round_trip (s p q : str) :
  s = p ++ q -> in_str ","%char q = false -> in_str "="%char q = true ->
  join_with (lit ",") (map component_str (to_dn s false false false false)) = s.
Proof.
  intros E Hc He. unfold to_dn.
  fold (to_dn_loop false false false false scanner_init s).
  destruct (to_dn_loop_text s [] (lit "") false) as (dn' & Edn & Ej).
  cbn [map app] in Edn, Ej. fold scanner_init in Edn, Ej.
  rewrite Edn. change (join_with (lit ",") [lit ""]) with (@nil ascii) in Ej.
  cbn [app] in Ej.
  set (component := s_component (to_dn_loop false false false false scanner_init s)) in *.
  assert (in_str "="%char component = true) as Hcomp.
  { destruct (join_with_last_suffix dn' component) as [E'|[X E']]; rewrite E' in Ej.
    - rewrite Ej, E, in_str_app, He. apply orb_true_r.
    - rewrite E in Ej. destruct (suffix_after_delimiter _ _ _ _ _ Ej Hc) as [z ->].
      rewrite in_str_app, He. apply orb_true_r. }
  rewrite add_ava_verbatim by now right.
  rewrite map_app, map_map. cbn [map component_str].
  rewrite map_id. exact Ej.
Qed.

Lemma to_dn_join_round_trip_witness :
  join_with (lit ",")
    (map component_str (to_dn (lit "cn=a\,b, ou=x+y=z,dc=c") false false false false))
  = lit "cn=a\,b, ou=x+y=z,dc=c".
Proof.
  apply (to_dn_join_round_trip _ (lit "cn=a\,b, ou=x+y=z,") (lit "dc=c"));
    reflexivity.
Defined.

(** ** safe_dn on every DN it accepts *)

Lemma escape_step_extends (e : escaper) (c : ascii) :
  exists x, e_escaped (escape_step e c) = e_escaped e ++ x.
Proof.
  destruct e as [st escaped buffer]. unfold escape_step.
  destruct st;
    repeat match goal with |- context [if ?b then _ else _] => destruct b end;
    cbn [e_escaped]; eauto; exists []; now rewrite app_nil_r.
Qed.

Lemma escape_loop_extends (s : str) (e : escaper) :
  exists x, e_escaped (escape_loop e s) = e_escaped e ++ x.
Proof.
  revert e. induction s as [|c s IH]; intros e.
  - exists []. cbn. now rewrite app_nil_r.
  - rewrite escape_loop_cons. destruct (IH (escape_step e c)) as [x ->].
    destruct (escape_step_extends e c) as [y ->]. exists (y ++ x).
    now rewrite app_assoc.
Qed.

Lemma escape_final_extends (e : escaper) :
  exists x, escape_final e = e_escaped e ++ x.
Proof.
  unfold escape_final. destruct (e_state e); eauto. exists []. now rewrite app_nil_r.
Qed.

Lemma hd_app (d : ascii) (l x : str) : l <> [] -> hd d (l ++ x) = hd d l.
Proof. destruct l; [congruence|reflexivity]. Qed.

Lemma escape_final_loop_head (s : str) (e : escaper) (d : ascii) :
  e_escaped e <> [] -> hd d (escape_final (escape_loop e s)) = hd d (e_escaped e).
Proof.
  intros He. destruct (escape_final_extends (escape_loop e s)) as [x ->].
  destruct (escape_loop_extends s e) as [y ->].
  rewrite <- app_assoc. now apply hd_app.
Qed.

Lemma escape_pending_head (s : str) (buffer : str) (st : state) (d : ascii) :
  st <> STATE_ANY ->
  hd d (escape_final (escape_loop (mkEscaper st [] buffer) s)) = BACKSLASH.
Proof.
  revert st buffer. induction s as [|c s IH]; intros st buffer Hst.
  - destruct st; [congruence|reflexivity|reflexivity].
  - rewrite escape_loop_cons. destruct st; [congruence| |]; cbn [escape_step].
    + destruct (in_str c hexdigits); [now apply IH|].
      destruct (in_str c escapable_chars);
        now rewrite escape_final_loop_head by discriminate.
    + destruct (in_str c hexdigits);
        now rewrite escape_final_loop_head by discriminate.
Qed.

Lemma escape_final_head (c : ascii) (s : str) (d : ascii) :
  hd d (escape_final (escape_loop escaper_init (c :: s))) = c
  \/ hd d (escape_final (escape_loop escaper_init (c :: s))) = BACKSLASH.
Proof.
  rewrite escape_loop_cons. unfold escaper_init. cbn [escape_step].
  destruct (Ascii.eqb c BACKSLASH).
  - right. now apply escape_pending_head.
  - destruct (in_str c special_chars);
      rewrite escape_final_loop_head by discriminate; cbn; auto.
Qed.

Lemma escape_spaces_ends (F w : str) :
  F <> [] -> escape_spaces F = Ret w ->
  (hd " "%char w = hd " "%char F \/ hd " "%char w = BACKSLASH)
  /\ (last w " "%char = last F " "%char \/ last w " "%char = " "%char).
Proof.
  intros HF. destruct (escape_spaces_cases F HF) as [->|(x & p & Ex & _ & ->)];
    intros [= <-].
  - destruct F as [|f0 F]; [congruence|]. cbn [hd].
    destruct (Ascii.eqb f0 " "); split; auto.
  - split.
    + destruct F as [|f0 F]; [congruence|]. cbn [hd] in *.
      destruct (Ascii.eqb f0 " ").
      * destruct x; injection Ex as <- _; now right.
      * destruct x; injection Ex as <- _; now left.
    + right. now rewrite last_app_ne by discriminate.
Qed.

Lemma escape_result_ends (c1 d1 : ascii) (s1 s2 v : str) :
  c1 :: s1 = s2 ++ [d1] -> escape_attribute_value (c1 :: s1) = Ret v ->
  (hd " "%char v = c1 \/ hd " "%char v = BACKSLASH)
  /\ (last v " "%char = d1 \/ last v " "%char = BACKSLASH
      \/ last v " "%char = " "%char).
Proof.
  intros E. unfold escape_attribute_value. cbn [truthy negb].
  rewrite getitem_head. cbn [bind]. cbv zeta.
  match goal with |- context [if ?b then Ret _ else _] => destruct b end.
  - intros [= <-]. split; [now left|]. left. rewrite E. apply last_last.
  - pose proof (escaped_nonempty (c1 :: s1) ltac:(discriminate)) as HF.
    pose proof (escape_final_head c1 s1 " "%char) as Hh.
    assert (last (escape_final (escape_loop escaper_init (c1 :: s1))) " "%char = d1
            \/ last (escape_final (escape_loop escaper_init (c1 :: s1))) " "%char
               = BACKSLASH) as Hl.
    { rewrite E, escape_loop_snoc. apply escape_final_last. }
    revert HF Hh Hl.
    generalize (escape_final (escape_loop escaper_init (c1 :: s1))). intros F HF Hh Hl He.
    destruct (escape_spaces_ends F v HF He) as [H1 H2]. split.
    + destruct H1 as [H1|H1]; [rewrite H1; exact Hh|now right].
    + destruct H2 as [H2|H2]; [rewrite H2|]; tauto.
Qed.

(** The ends of an escaped value that the validator accepts. *)
Lemma escaped_valid_ends (V1 v : str) (c1 d1 : ascii) (s1 s2 : str) :
  V1 = c1 :: s1 -> V1 = s2 ++ [d1] ->
  is_space c1 = false -> is_space d1 = false ->
  escape_attribute_value V1 = Ret v -> validate_attribute_value v = Ret true ->
  strip v = v.
Proof.
  intros E1 E2 Hc Hd He Hv.
  destruct (validate_attribute_value_true v Hv) as (c & v' & Ev & _ & _ & Hl & _).
  rewrite E1 in He, E2.
  destruct (escape_result_ends _ _ _ _ _ E2 He) as [Hhd Hlast].
  clear He Hv. subst v.
  destruct (exists_last (l := c :: v') ltac:(discriminate)) as (E' & l0 & EE).
  apply (strip_fixed c l0 v' E' EE).
  - cbn [hd] in Hhd. destruct Hhd as [->| ->]; [assumption|reflexivity].
  - rewrite EE, last_last in Hlast, Hl.
    destruct Hlast as [->|[->| ->]]; [assumption|reflexivity|discriminate].
Qed.

Lemma in_str_without_backslashes (c : ascii) (s : str) :
  c <> BACKSLASH -> in_str c (without_backslashes s) = in_str c s.
Proof.
  intros Hc. apply Ascii.eqb_neq in Hc.
  induction s as [|x s IH]; [reflexivity|].
  rewrite without_backslashes_cons, in_str_app, IH, in_str_cons.
  destruct (Ascii.eqb_spec x BACKSLASH) as [->|Hx].
  - now rewrite Hc.
  - now rewrite in_str_cons, orb_false_r.
Qed.

(** The AVA that was split with escaping, and the type and value it gave. *)
Lemma split_ava_shape_escaped (ava t v : str) :
  split_ava ava true true = Ret (t, VStr v) ->
  validate_attribute_value v = Ret true ->
  exists V1, ava_shape ava t V1 /\ escape_attribute_value V1 = Ret v
             /\ strip v = v.
Proof.
  intros H Hv. destruct (split_ava_inv _ _ _ _ H) as (T & V & -> & _ & -> & He).
  cbn in He. exists (strip V). split; [|split; [exact He|]].
  - destruct (strip_decomp T) as (w1 & w2 & ET & H1 & H2).
    destruct (strip_decomp V) as (w3 & w4 & EV & H3 & H4).
    exists w1, w2, w3, w4. repeat split; try assumption.
    rewrite ET at 1. rewrite EV at 1. now rewrite <- !app_assoc.
  - destruct (strip_ends V) as [E|(c & s' & s'' & d & E1 & E2 & Hc & Hd)].
    + rewrite E in He. injection He as <-. discriminate.
    + eapply escaped_valid_ends; eassumption.
Qed.

Lemma plus_splits_escaped (t v V1 : str) :
  typed t -> without_backslashes v = without_backslashes V1 ->
  plus_splits (t ++ "="%char :: v) -> plus_splits (t ++ "="%char :: V1).
Proof.
  intros Ht Hw (a & r & E & Ha & _ & Hr).
  assert (in_str "+"%char t = false) as Htp by now apply typed_absent.
  assert (in_str "+"%char v = true) as Hv.
  { apply (f_equal (in_str "+"%char)) in E.
    rewrite !in_str_app, !in_str_cons, Htp, Ascii.eqb_refl, orb_true_r in E.
    exact E. }
  destruct (in_str_split_first _ _ Hv) as (a' & r' & -> & Ha').
  assert (a = t ++ "="%char :: a' /\ r = r') as [-> ->].
  { apply (first_occurrence_unique "+"%char); [|assumption|].
    - rewrite <- E, <- app_assoc. reflexivity.
    - now rewrite in_str_app, in_str_cons, Htp, Ha'. }
  assert (in_str "+"%char V1 = true) as HV1.
  { rewrite <- (in_str_without_backslashes "+"%char V1), <- Hw by discriminate.
    now rewrite in_str_without_backslashes by discriminate. }
  destruct (in_str_split_first _ _ HV1) as (a1 & r1 & -> & Ha1).
  rewrite !without_backslashes_app, !without_backslashes_cons in Hw.
  change (Ascii.eqb "+" BACKSLASH) with false in Hw. cbv iota in Hw. cbn [app] in Hw.
  apply first_occurrence_unique in Hw as [_ Hw];
    [|now rewrite in_str_without_backslashes by discriminate
     |now rewrite in_str_without_backslashes by discriminate].
  exists (t ++ "="%char :: a1), r1. repeat split.
  - now rewrite <- app_assoc.
  - now rewrite in_str_app, in_str_cons, Htp, Ha1.
  - intros E'. apply app_eq_nil in E' as [_ E']. discriminate.
  - rewrite <- (in_str_without_backslashes "="%char r1), <- Hw by discriminate.
    now rewrite in_str_without_backslashes by discriminate.
Qed.

Lemma boundary_transfer_escaped (dn ava sep rest t v V1 R : str) :
  boundary dn ava sep rest -> ava_shape ava t V1 -> typed t ->
  without_backslashes v = without_backslashes V1 ->
  (rest = [] -> R = []) ->
  (in_str ","%char rest = true ->
   exists r1 r2, R = r1 ++ ","%char :: r2 /\ in_str ","%char r1 = false
                 /\ in_str "="%char r1 = true) ->
  boundary ((t ++ "="%char :: v) ++ sep ++ R) (t ++ "="%char :: v) sep R.
Proof.
  intros B Hs Ht Hw Hnil Hcomma.
  assert (forall c, in_str c type_chars = false -> Ascii.eqb c "=" = false ->
                    c <> BACKSLASH ->
                    in_str c ava = false -> in_str c (t ++ "="%char :: v) = false)
    as Habs.
  { intros c Hc1 Hc2 Hc3 Hc4. rewrite in_str_app, in_str_cons.
    rewrite (typed_absent t c Ht Hc1), Hc2.
    rewrite <- (in_str_without_backslashes c v), Hw by assumption.
    rewrite in_str_without_backslashes by assumption.
    now rewrite (shape_absent _ _ _ _ Hs Hc4). }
  assert (t ++ "="%char :: v <> []) as Hne
    by (intros E; apply app_eq_nil in E as [_ E]; discriminate).
  inversion B as [a r1 r2 Ed Hp Hc Hane Hc1 He1|a r Ed Hc Hane Hns|Hl]; subst.
  - destruct Hcomma as (r1' & r2' & -> & Hr1 & Hr2).
    { now rewrite in_str_app, in_str_cons, Ascii.eqb_refl, orb_true_r. }
    change (lit "+" ++ r1' ++ ","%char :: r2') with ("+"%char :: r1' ++ ","%char :: r2').
    constructor; auto; apply Habs; auto; discriminate.
  - change (lit "," ++ R) with (","%char :: R).
    constructor; auto; [apply Habs; auto; discriminate|].
    intros Hps. apply Hns. apply (shape_plus_splits _ _ _ Hs Ht).
    eapply plus_splits_escaped; eassumption.
  - rewrite (Hnil eq_refl). cbn [lit list_ascii_of_string app]. rewrite app_nil_r.
    constructor. left. destruct Hl as [Hl|[r ->]]; [apply Habs; auto; discriminate|].
    destruct (shape_first _ _ _ _ _ Hs Ht eq_refl); discriminate.
Qed.

Lemma parsed_escaped_keeps_comma (dn : str) (rdns : list ava_triple) :
  parsed true true dn rdns ->
  in_str ","%char dn = true -> in_str ","%char (render rdns) = true.
Proof.
  induction 1 as [|dn ava sep rest t v rdns B Es Et Ev Hp IH]; [discriminate|].
  intros Hc. rewrite render_cons, render_ava_app, !in_str_app.
  destruct (split_ava_shape_escaped _ _ _ Es Ev) as (V1 & Hs & _).
  apply validate_attribute_type_true in Et.
  inversion B as [a r1 r2 Ed _ _ _ _ _|a r Ed _ _ _|Hl]; subst.
  - rewrite IH; [now rewrite !orb_true_r|].
    now rewrite in_str_app, in_str_cons, Ascii.eqb_refl, orb_true_r.
  - change (in_str "," (lit ",")) with true. cbn [orb]. apply orb_true_r.
  - destruct Hl as [Hl|[r ->]]; [congruence|].
    destruct (shape_first _ _ _ _ _ Hs Et eq_refl); discriminate.
Qed.

Lemma parsed_escaped_render (dn : str) (rdns : list ava_triple) :
  parsed true true dn rdns ->
  forall escape, parsed escape true (render rdns) rdns.
Proof.
  induction 1 as [|dn ava sep rest t v rdns B Es Et Ev Hp IH]; intros escape;
    [constructor|].
  destruct (split_ava_shape_escaped _ _ _ Es Ev) as (V1 & Hs & He & Hstrip).
  pose proof (validate_attribute_type_true _ Et) as Ht.
  rewrite render_cons, render_ava_app.
  apply parsed_cons with (ava := t ++ "="%char :: v) (rest := render rdns).
  - apply (boundary_transfer_escaped dn ava sep rest t v V1); try assumption.
    + now apply escape_keeps_text.
    + intros ->. now rewrite (parsed_nil_inv _ _ _ Hp).
    + intros Hc. pose proof (parsed_escaped_keeps_comma _ _ Hp Hc) as Hr.
      destruct (in_str_split_first _ _ Hr) as (r1 & r2 & E & Hr1).
      exists r1, r2. repeat split; try assumption.
      destruct rdns as [|[[t2 v2] sep2] rdns]; [discriminate|].
      pose proof (parsed_typed _ _ _ _ _ _ _ Hp) as Ht2.
      rewrite render_cons, render_ava_app, <- app_assoc in E. cbn [app] in E.
      apply (first_comma_after_equal t2 (v2 ++ sep2 ++ render rdns) r1 r2);
        [|exact E].
      now apply typed_absent.
  - rewrite split_ava_forward.
    + rewrite (type_strip_fixed t) by apply Ht.
      unfold split_value. rewrite Hstrip.
      destruct escape; [rewrite (escape_valid_value _ Ev)|]; reflexivity.
    + apply Ht.
    + now apply typed_last_plain.
    + now apply valid_value_equals_escaped.
  - assumption.
  - assumption.
  - apply IH.
Qed.

(** X26. [safe_dn] changes nothing in a string that it returned: whenever
    [safe_dn(d)] succeeds, its result is accepted by [parse_dn] (with the
    triples found in [d]) and by [safe_dn], which returns it as it is. *)
Theorem safe_dn_idempotent (d s : str) :
  safe_dn d = Ret s ->
  safe_dn s = Ret s /\ parse_dn s false true = parse_dn d true true.
Proof.
  unfold safe_dn. destruct (parse_dn d true true) as [rdns| |] eqn:E; cbn [bind];
    try discriminate.
  intros [= <-]. apply parse_dn_parsed in E.
  pose proof (parsed_escaped_render _ _ E) as Hr.
  rewrite (proj2 (parse_dn_parsed _ true true rdns) (Hr true)).
  rewrite (proj2 (parse_dn_parsed _ false true rdns) (Hr false)).
  split; reflexivity.
Qed.

Lemma safe_dn_idempotent_witness :
  safe_dn (lit "cn=a\;b\+c,dc=x") = Ret (lit "cn=a\;b\+c,dc=x")
  /\ parse_dn (lit "cn=a\;b\+c,dc=x") false true
     = parse_dn (lit " cn = a;b\+c , dc=x") true true.
Proof.
  apply (safe_dn_idempotent (lit " cn = a;b\+c , dc=x")). vm_compute. reflexivity.
Defined.

(** ** White space *)

Lemma add_ava_stripped (ava : str) (space_around_equal : bool) :
  _add_ava ava true true space_around_equal = CStr []
  \/ exists attr_name value,
      _add_ava ava true true space_around_equal = CPair attr_name value
      /\ strip attr_name = attr_name /\ strip value = value.
Proof.
  destruct ava as [|a ava]; [now left|right]. unfold _add_ava. cbn [truthy negb].
  destruct (partition (a :: ava) "="%char) as [[attr_name sep] value].
  eexists _, _. split; [reflexivity|]. split; apply strip_idempotent.
Qed.

(** X27. With [decompose] and [remove_space], the attribute names and the
    values that [to_dn] returns have no white space at either end:
    stripping them again changes nothing. *)
Theorem to_dn_remove_space (s : str) (space_around_equal separate_rdn : bool)
    (attr_name value : str) :
  In (CPair attr_name value) (to_dn s true true space_around_equal separate_rdn) ->
  strip attr_name = attr_name /\ strip value = value.
Proof.
  intros Hin.
  assert (Forall (fun x => forall a v, x = CPair a v -> strip a = a /\ strip v = v)
            (to_dn s true true space_around_equal separate_rdn)) as H.
  { assert (forall ava, (fun x => forall a v, x = CPair a v -> strip a = a /\ strip v = v)
                          (_add_ava ava true true space_around_equal)) as HP.
    { intros ava a v E.
      destruct (add_ava_stripped ava space_around_equal) as [E'|(a' & v' & E' & Ha & Hv)];
        rewrite E' in E; [discriminate|]. injection E as <- <-. now split. }
    unfold to_dn. apply Forall_app. split.
    - apply (to_dn_loop_elements _ true true space_around_equal separate_rdn HP).
      constructor.
    - constructor; [apply HP|constructor]. }
  rewrite Forall_forall in H. now apply (H _ Hin).
Qed.

Lemma to_dn_remove_space_witness :
  strip (lit "dc") = lit "dc" /\ strip (lit "b c") = lit "b c".
Proof.
  apply (to_dn_remove_space (lit " cn = a , dc = b c ") false false).
  right. left. reflexivity.
Defined.

Lemma parsed_stripped (escape : bool) (dn : str) (rdns : list ava_triple) :
  parsed escape true dn rdns ->
  forall t v sep, In (t, v, sep) rdns -> strip t = t /\ strip v = v.
Proof.
  induction 1 as [|dn ava sep rest t v rdns B Es Et Ev Hp IH]; intros t' v' sep' Hin.
  - destruct Hin.
  - destruct Hin as [[= <- <- <-]|Hin]; [|eauto].
    destruct (validate_attribute_type_true _ Et) as [Hne Ht].
    split; [now apply type_strip_fixed|].
    destruct escape.
    + now destruct (split_ava_shape_escaped _ _ _ Es Ev) as (V1 & _ & _ & Hs).
    + now destruct (split_ava_shape _ _ _ Es) as [_ Hs].
Qed.

(** X28. With [strip], the types and the values that [parse_dn] returns have
    no white space at either end, also when the value went through the
    escaper. *)
Theorem parse_dn_strips (dn : str) (escape : bool) (rdns : list ava_triple)
    (t v sep : str) :
  parse_dn dn escape true = Ret rdns -> In (t, v, sep) rdns ->
  strip t = t /\ strip v = v.
Proof.
  intros H Hin. apply parse_dn_parsed in H. eapply parsed_stripped; eassumption.
Qed.

Lemma parse_dn_strips_witness :
  strip (lit "cn") = lit "cn" /\ strip (lit "John  Smith") = lit "John  Smith".
Proof.
  apply (parse_dn_strips (lit "  cn =  John  Smith ,dc=x") true
           [(lit "cn", lit "John  Smith", lit ","); (lit "dc", lit "x", lit "")]
           (lit "cn") (lit "John  Smith") (lit ",")).
  - vm_compute. reflexivity.
  - left. reflexivity.
Defined.

(** ** Where escaping then validating succeeds *)

(** A final SPACE of the value is the last character written. *)
Lemma escape_final_space (e : escaper) :
  last (escape_final (escape_step e " "%char)) " "%char = " "%char.
Proof.
  destruct e as [st escaped buffer]. unfold escape_step, escape_final.
  destruct st; cbn [e_state e_escaped e_buffer].
  - change (Ascii.eqb " " BACKSLASH) with false.
    change (in_str " "%char special_chars) with false. cbv iota.
    cbn [e_state e_escaped]. apply last_last.
  - change (in_str " "%char hexdigits) with false.
    change (in_str " "%char escapable_chars) with true. cbv iota.
    cbn [e_state e_escaped].
    change [BACKSLASH; " "%char] with ([BACKSLASH] ++ [" "%char]).
    rewrite app_assoc. apply last_last.
  - change (in_str " "%char hexdigits) with false. cbv iota.
    cbn [e_state e_escaped]. rewrite !app_assoc. apply last_last.
Qed.

(** X29. Escaping then validating succeeds on no other value: when the
    escaped form of [v] passes the validator, [v] is not empty, does not
    end with a SPACE, is not a ['#']-led string of odd length, and passes
    the reading of [read_step] from outside an escape. *)
Theorem escaped_validates_only (v : str) :
  escaped_validates v ->
  v <> []
  /\ (forall t, v <> t ++ [" "%char])
  /\ (forall t, v = "#"%char :: t -> len v mod 2 = 0)
  /\ reads OUTSIDE v = true.
Proof.
  intros (w & Hw & Hv).
  assert (v <> []) as Hne.
  { intros ->. injection Hw as <-. discriminate. }
  assert (forall t, v = "#"%char :: t -> len v mod 2 = 0) as Hsharp.
  { intros t ->. destruct (Z.eqb_spec (len ("#"%char :: t) mod 2) 0) as [E|E]; [exact E|].
    exfalso. revert Hw. unfold escape_attribute_value. cbn [truthy negb].
    rewrite getitem_head. cbn [bind]. cbv zeta.
    change (Ascii.eqb "#" "#") with true. cbv iota.
    destruct (Z.eqb_spec (len ("#"%char :: t) mod 2) 0) as [E'|_]; [contradiction|].
    rewrite scan_hex_valid_true. intros [= <-].
    destruct (validate_sharp_raises t) as [m Hm]. congruence. }
  destruct (validate_attribute_value_true w Hv) as (c & w' & Ew & _ & Hc & Hl & Hloop).
  assert (escape_spaces (escape_final (escape_loop escaper_init v)) = Ret w) as Hmain.
  { revert Hw. destruct v as [|c0 v']; [congruence|].
    unfold escape_attribute_value. cbn [truthy negb].
    rewrite getitem_head. cbn [bind]. cbv zeta.
    match goal with |- context [if ?b then Ret _ else _] => destruct b eqn:Eb end;
      [|trivial].
    intros [= <-]. destruct (Ascii.eqb_spec c0 "#") as [->|]; [|discriminate].
    destruct (validate_sharp_raises v') as [m Hm]. congruence. }
  pose proof (escaped_nonempty v Hne) as HE.
  set (E := escape_final (escape_loop escaper_init v)) in *.
  assert (forall t, v <> t ++ [" "%char]) as Hsp.
  { intros t ->. 
    assert (last E " "%char = " "%char) as HlE.
    { subst E. rewrite escape_loop_snoc. apply escape_final_space. }
    destruct (escape_spaces_ends E w HE Hmain) as [_ [H|H]];
      [rewrite HlE in H|]; rewrite H in Hl; discriminate. }
  repeat split; try assumption.
  apply (reading_loop v OUTSIDE escaper_init reading_init). fold E.
  assert (Ascii.eqb (last E " "%char) " " = false) as HlE.
  { subst E. destruct (exists_last Hne) as (v' & d & ->).
    rewrite escape_loop_snoc.
    destruct (escape_final_last (escape_loop escaper_init v') d " "%char) as [->| ->];
      [|reflexivity].
    destruct (Ascii.eqb_spec d " "); [|reflexivity]. subst. now destruct (Hsp v'). }
  rewrite (escape_spaces_plain E " "%char HE) in Hmain
    by (intros H; rewrite H in HlE; discriminate).
  injection Hmain as <-.
  destruct E as [|e0 E']; [congruence|]. cbn [hd] in Hloop.
  destruct (Ascii.eqb_spec e0 " ") as [->|]; [|exact Hloop].
  exact Hloop.
Qed.

Lemma escaped_validates_only_witness :
  lit "\1\ab" <> []
  /\ (forall t, lit "\1\ab" <> t ++ [" "%char])
  /\ (forall t, lit "\1\ab" = "#"%char :: t -> len (lit "\1\ab") mod 2 = 0)
  /\ reads OUTSIDE (lit "\1\ab") = true.
Proof.
  apply escaped_validates_only. exists (lit "\\1\ab"). split; reflexivity.
Defined.
